(** * GNN-RDM: distributed GCN training, partitioning and ring multiplication

    A shallow embedding of [src/gcn_distr.py] (1D ring scheme: [norm],
    [blockRow], [GCNFunc.backward], [test]) and of [src/examples/gcn_2d.py]
    (2D scheme: [get_proc_groups], [scale_elements], [split_coo],
    [twod_partition]), followed by the properties of the specification
    that were checked against them.

    Conventions.
    - Python integers are [Z]; [%] and [//] floor like [Z.modulo] and
      [Z.div], [int(a / b)] truncates like [Z.quot]; a zero divisor raises.
    - Exceptions are values of [exn]; fallible code returns [result].
    - Dense tensors are two-dimensional with entries in [Z]: the algebra
      of [torch.mm] and [+=] is exact, rounding is outside the model.
    - Degree scale factors are IEEE binary64 values ([PrimFloat]), so that
      [0 ** -0.5 = inf] is computed and not assumed.
    - Vertex numbers and boundaries are 64-bit integers in the code; a
      statement that depends on it bounds the node count ([< 2 ^ 63] for
      the comparisons of [split_coo], [<= 2 ^ 26] for the bins of
      [torch.histc]).
    - The grid shape functions [CAGF.proc_row_size] and
      [CAGF.proc_col_size] belong to the cagnet package and are parameters. *)

From Stdlib Require Import ZArith List Bool Lia Permutation.
From Stdlib Require Import Floats.PrimFloat Uint63.
From Stdlib Require Import Sorted QArith.
Import ListNotations.
Open Scope Z_scope.

(* ================================================================== *)
(** * Python runtime: exceptions, ranges, indexing *)

Inductive exn : Type :=
| ZeroDivisionError
| ValueError
| IndexError
| RuntimeError.

Inductive result (A : Type) : Type :=
| Ok (a : A)
| Raise (e : exn).
Arguments Ok {A} a.
Arguments Raise {A} e.

Definition bind {A B} (m : result A) (k : A -> result B) : result B :=
  match m with
  | Ok a => k a
  | Raise e => Raise e
  end.

Notation "x <- m ;; k" := (bind m (fun x => k))
  (at level 61, m at next level, right associativity).
Notation "' p <- m ;; k" := (bind m (fun p => k))
  (at level 61, p pattern, m at next level, right associativity).

(** [range(stop)] *)
Definition py_range (stop : Z) : list Z :=
  map Z.of_nat (seq 0 (Z.to_nat stop)).

(** [range(start, stop, step)]; a zero step raises [ValueError]. *)
Definition py_range3 (start stop step : Z) : result (list Z) :=
  if step =? 0 then Raise ValueError
  else
    let count :=
      if 0 <? step then (stop - start + step - 1) / step
      else (start - stop - step - 1) / (- step) in
    Ok (map (fun k => start + Z.of_nat k * step) (seq 0 (Z.to_nat count))).

(** [l[i]], negative indices counting from the end. *)
Definition py_get {A} (l : list A) (i : Z) : result A :=
  let n := Z.of_nat (length l) in
  let j := if i <? 0 then i + n else i in
  if (0 <=? j) && (j <? n) then
    match nth_error l (Z.to_nat j) with
    | Some a => Ok a
    | None => Raise IndexError
    end
  else Raise IndexError.

(** [l[:k]] *)
Definition py_take {A} (l : list A) (k : Z) : list A :=
  let n := Z.of_nat (length l) in
  let j := if k <? 0 then Z.max 0 (k + n) else k in
  firstn (Z.to_nat j) l.

(** [int(a / b)] on integers: true division, then truncation. *)
Definition int_truediv (a b : Z) : result Z :=
  if b =? 0 then Raise ZeroDivisionError else Ok (Z.quot a b).

(** [a % b] *)
Definition py_mod (a b : Z) : result Z :=
  if b =? 0 then Raise ZeroDivisionError else Ok (a mod b).

(** [a // b] *)
Definition py_floordiv (a b : Z) : result Z :=
  if b =? 0 then Raise ZeroDivisionError else Ok (a / b).

(** Monadic map over a list, left to right. *)
Fixpoint mapM {A B} (f : A -> result B) (l : list A) : result (list B) :=
  match l with
  | [] => Ok []
  | a :: l' => b <- f a ;; bs <- mapM f l' ;; Ok (b :: bs)
  end.

(* ================================================================== *)
(** * Dense two-dimensional tensors *)

Record tensor : Type := mkTensor {
  nrows : nat;                 (* size(0) *)
  ncols : nat;                 (* size(1) *)
  rows : list (list Z)
}.

Definition tabulate (r c : nat) (f : nat -> nat -> Z) : tensor :=
  mkTensor r c (map (fun i => map (fun j => f i j) (seq 0 c)) (seq 0 r)).

Definition get (A : tensor) (i j : nat) : Z :=
  nth j (nth i (rows A) []) 0.

(** [torch.zeros(r, c)] *)
Definition zeros (r c : nat) : tensor := tabulate r c (fun _ _ => 0).

Fixpoint sumZ (n : nat) (f : nat -> Z) : Z :=
  match n with
  | O => 0
  | S n' => sumZ n' f + f n'
  end.

(** [torch.mm(A, B)] *)
Definition mm (A B : tensor) : result tensor :=
  if Nat.eqb (ncols A) (nrows B) then
    Ok (tabulate (nrows A) (ncols B)
          (fun i j => sumZ (ncols A) (fun k => get A i k * get B k j)))
  else Raise RuntimeError.

(** [A.t()] *)
Definition transpose (A : tensor) : tensor :=
  tabulate (ncols A) (nrows A) (fun i j => get A j i).

(** [z += x]: the right operand is broadcast to the shape of [z]. *)
Definition iadd (z x : tensor) : result tensor :=
  if (Nat.eqb (nrows x) (nrows z) || Nat.eqb (nrows x) 1)
     && (Nat.eqb (ncols x) (ncols z) || Nat.eqb (ncols x) 1) then
    Ok (tabulate (nrows z) (ncols z)
          (fun i j => get z i j
                      + get x (if Nat.eqb (nrows x) (nrows z) then i else O)
                              (if Nat.eqb (ncols x) (ncols z) then j else O)))
  else Raise RuntimeError.

(** Columns [[c0, c0 + w)] of [A]. *)
Definition col_block (A : tensor) (c0 w : nat) : tensor :=
  tabulate (nrows A) w (fun i j => get A i (c0 + j)).

(** [torch.split(A, split_size, dim=1)]: chunks of [split_size] columns, the
    last one shorter when the width is not a multiple; at least one chunk. *)
Definition split_cols (A : tensor) (split_size : Z) : result (list tensor) :=
  if split_size <? 0 then Raise RuntimeError
  else if split_size =? 0 then
    if Nat.eqb (ncols A) 0 then Ok [A] else Raise RuntimeError
  else
    let s := Z.to_nat split_size in
    let num := Nat.max ((ncols A + s - 1) / s) 1 in
    Ok (map (fun k => col_block A (k * s) (Nat.min s (ncols A - k * s)))
            (seq 0 num)).

(** [torch.cat(blocks, dim=0)] for blocks of a common width [c]. *)
Definition vstack (c : nat) (blocks : list tensor) : tensor :=
  mkTensor (list_sum (map nrows blocks)) c (concat (map rows blocks)).

(* ================================================================== *)
(** * gcn_distr.py: the ring multiplier [blockRow] *)

(** [blockRow(adj_matrix, inputs, weight, rank, size)] is run by every rank
    of the job and talks to its neighbours, so it is embedded in three
    layers: [blockRow_enter] (lines 39-44) and [blockRow_code] (lines 46-68)
    are one rank's call, [advance] gives the statements their meaning on
    that rank's variables, and [run] lets the ranks exchange tensors.
    [blockRow] below is the job as a whole.

    The statements of one rank after the prologue.  [Send] and [Recv] are
    the blocking [dist.send] and [dist.recv]; a transfer takes place when
    the sender and the receiver have both reached their call. *)
Inductive instr : Type :=
| Accumulate (part_id : Z)  (* z_loc += torch.mm(am_partitions[part_id], inputs) *)
| Send (dst : Z)            (* dist.send(tensor=inputs, dst=dst) *)
| Recv (src : Z)            (* dist.recv(tensor=inputs_recv, src=src) *)
| Rebind                    (* inputs = inputs_recv *)
| MulWeight.                (* z_loc = torch.mm(z_loc, weight) *)

(** The body of [for i in range(size)] at iteration [i]. *)
Definition blockRow_iter (rank size i : Z) : list instr :=
  let part_id := (rank + i) mod size in
  Accumulate part_id ::
  (if i =? size - 1 then []
   else
     let dst := (rank + 1) mod size in
     let src := rank - 1 in
     let src := if src <? 0 then size - 1 else src in
     (if rank =? 0 then [Send dst; Recv src] else [Recv src; Send dst])
     ++ [Rebind]).

Definition blockRow_code (rank size : Z) : list instr :=
  flat_map (blockRow_iter rank size) (py_range size) ++ [MulWeight].

(** The local variables of one [blockRow] activation.  [inputs] and
    [inputs_recv] are names of tensor objects: after [inputs = inputs_recv]
    both names denote the receive buffer, which [inputs_is_recv] records. *)
Record store : Type := mkStore {
  am_partitions : list tensor;
  weight : tensor;
  inputs_arg : tensor;       (* the tensor object passed in as [inputs] *)
  inputs_recv : tensor;      (* the tensor object [inputs_recv] *)
  inputs_is_recv : bool;
  z_loc : tensor
}.

(** The tensor the name [inputs] denotes. *)
Definition inputs (s : store) : tensor :=
  if inputs_is_recv s then inputs_recv s else inputs_arg s.

(** Lines 39-44: partitions, accumulator and receive buffer. *)
Definition blockRow_enter (adj_matrix inputs0 weight0 : tensor) (size : Z)
  : result store :=
  n_per_proc <- int_truediv (Z.of_nat (ncols adj_matrix)) size ;;
  parts <- split_cols adj_matrix n_per_proc ;;
  if n_per_proc <? 0 then Raise RuntimeError
  else
    Ok (mkStore parts weight0 inputs0
          (zeros (nrows inputs0) (ncols inputs0)) false
          (zeros (Z.to_nat n_per_proc) (ncols inputs0))).

Definition set_z_loc (s : store) (z : tensor) : store :=
  mkStore (am_partitions s) (weight s) (inputs_arg s) (inputs_recv s)
          (inputs_is_recv s) z.

Definition set_rebound (s : store) : store :=
  mkStore (am_partitions s) (weight s) (inputs_arg s) (inputs_recv s)
          true (z_loc s).

(** [dist.recv] fills the receive buffer in place. *)
Definition deliver (s : store) (msg : tensor) : result store :=
  if Nat.eqb (nrows msg) (nrows (inputs_recv s))
     && Nat.eqb (ncols msg) (ncols (inputs_recv s)) then
    Ok (mkStore (am_partitions s) (weight s) (inputs_arg s) msg
                (inputs_is_recv s) (z_loc s))
  else Raise RuntimeError.

(** Runs the local statements at the head of [code]; stops in front of a
    communication call or at the end. *)
Fixpoint advance (code : list instr) (s : store) : result (store * list instr) :=
  match code with
  | Accumulate part_id :: rest =>
      part <- py_get (am_partitions s) part_id ;;
      prod <- mm part (inputs s) ;;
      z <- iadd (z_loc s) prod ;;
      advance rest (set_z_loc s z)
  | Rebind :: rest => advance rest (set_rebound s)
  | MulWeight :: rest =>
      z <- mm (z_loc s) (weight s) ;;
      advance rest (set_z_loc s z)
  | _ => Ok (s, code)
  end.

(** One process of the job: its variables and the statements left to run. *)
Definition process : Type := (store * list instr)%type.

Definition waits_recv_from (p : process) (src : Z) : bool :=
  match snd p with
  | Recv s :: _ => s =? src
  | _ => false
  end.

(** The first rank, from [rank] on, blocked in a [send] whose destination
    is blocked in the matching [recv]. *)
Fixpoint find_transfer (net : list process) (rest : list process) (rank : Z)
  : option (Z * Z) :=
  match rest with
  | [] => None
  | p :: rest' =>
      match snd p with
      | Send dst :: _ =>
          match py_get net dst with
          | Ok q =>
              if (0 <=? dst) && waits_recv_from q rank then Some (rank, dst)
              else find_transfer net rest' (rank + 1)
          | Raise _ => find_transfer net rest' (rank + 1)
          end
      | _ => find_transfer net rest' (rank + 1)
      end
  end.

Definition update {A} (l : list A) (i : Z) (a : A) : list A :=
  firstn (Z.to_nat i) l ++ a :: skipn (S (Z.to_nat i)) l.

(** A rendezvous: the sender's [inputs] is copied into the receiver's
    buffer, and both processes run on to their next communication call. *)
Definition transfer (net : list process) (src dst : Z) : result (list process) :=
  sender <- py_get net src ;;
  receiver <- py_get net dst ;;
  r_store <- deliver (fst receiver) (inputs (fst sender)) ;;
  sender' <- advance (tl (snd sender)) (fst sender) ;;
  receiver' <- advance (tl (snd receiver)) r_store ;;
  Ok (update (update net src sender') dst receiver').

Inductive outcome : Type :=
| Finished (returned : list tensor)  (* every rank returned its [z_loc] *)
| Crashed (e : exn)
| Deadlocked
| OutOfFuel.

Definition all_done (net : list process) : bool :=
  forallb (fun p => match snd p with [] => true | _ => false end) net.

Fixpoint run (fuel : nat) (net : list process) : outcome :=
  if all_done net then Finished (map (fun p => z_loc (fst p)) net)
  else
    match fuel with
    | O => OutOfFuel
    | S fuel' =>
        match find_transfer net net 0 with
        | None => Deadlocked
        | Some (src, dst) =>
            match transfer net src dst with
            | Ok net' => run fuel' net'
            | Raise e => Crashed e
            end
        end
    end.

(** Rank [rank] calls [blockRow(adj_matrix, inputs, weight, rank, size)]
    and runs up to its first communication call. *)
Definition blockRow_start (size : Z) (weight0 : tensor)
    (rank : Z) (args : tensor * tensor) : result process :=
  s <- blockRow_enter (fst args) (snd args) weight0 size ;;
  advance (blockRow_code rank size) s.

(** All [size] ranks run [blockRow]; [locals] lists, by rank, the adjacency
    row-block and the feature block the rank holds, and the result lists, by
    rank, the value each call returns.  Each non-final iteration performs
    [size] transfers, so [size * size] steps are enough. *)
Definition blockRow (locals : list (tensor * tensor)) (weight0 : tensor)
  : outcome :=
  let size := Z.of_nat (length locals) in
  match mapM (fun '(rank, args) => blockRow_start size weight0 rank args)
             (combine (py_range size) locals) with
  | Raise e => Crashed e
  | Ok net => run (length locals * length locals) net
  end.

(** What the specification asks of rank [rank]: its row-block times the
    whole feature matrix (the blocks stacked in rank order), times [W]. *)
Definition blockRow_spec (locals : list (tensor * tensor)) (weight0 : tensor)
    (rank : nat) : result tensor :=
  let adj := fst (nth rank locals (zeros 0 0, zeros 0 0)) in
  let H := vstack (ncols (snd (nth rank locals (zeros 0 0, zeros 0 0))))
                  (map snd locals) in
  z <- mm adj H ;;
  mm z weight0.

(** Tensor literal from its rows. *)
Definition of_rows (l : list (list Z)) : tensor :=
  mkTensor (length l) (length (hd [] l)) l.

(* ================================================================== *)
(** * gcn_distr.py: [GCNFunc.backward] *)

(** [ctx.save_for_backward(inputs, weight, adj_matrix)] in [forward]. *)
Record ctx : Type := mkCtx {
  saved_tensors : tensor * tensor * tensor
}.

Definition save_for_backward (inputs0 weight0 adj_matrix : tensor) : ctx :=
  mkCtx (inputs0, weight0, adj_matrix).

(** The four values [backward] returns. *)
Definition grads : Type :=
  (option tensor * option tensor * option tensor * option tensor)%type.

Definition GCNFunc_backward (c : ctx) (grad_output : tensor) : result grads :=
  let '(inputs0, weight0, adj_matrix) := saved_tensors c in
  ag <- mm adj_matrix grad_output ;;
  grad_input <- mm ag (transpose weight0) ;;
  ha <- mm (transpose inputs0) adj_matrix ;;
  grad_weight <- mm ha grad_output ;;
  Ok (Some grad_input, Some grad_weight, None, None).

(* ================================================================== *)
(** * Floating-point values and sparse tensors *)

Definition fmul (x y : float) : float := PrimFloat.mul x y.
Definition fadd (x y : float) : float := PrimFloat.add x y.

(** Integer to float (counts and unit weights are small and exact). *)
Definition float_of_Z (z : Z) : float :=
  if z <? 0 then PrimFloat.opp (PrimFloat.of_uint63 (Uint63.of_Z (- z)))
  else PrimFloat.of_uint63 (Uint63.of_Z z).

(** [x.pow(-0.5)].  IEEE [pow] sends both zeros to [+inf]; on the other
    arguments it is the reciprocal square root (negative gives NaN,
    [+inf] gives [0]), here up to the rounding of [sqrt] and [/]. *)
Definition pow_neg_half (x : float) : float :=
  if PrimFloat.eqb x PrimFloat.zero then PrimFloat.infinity
  else PrimFloat.div PrimFloat.one (PrimFloat.sqrt x).

(** [l[a:b]] *)
Definition py_slice {A} (l : list A) (a b : Z) : list A :=
  let n := Z.of_nat (length l) in
  let clamp := fun i => Z.min n (if i <? 0 then Z.max 0 (i + n) else i) in
  let a' := clamp a in
  let b' := clamp b in
  firstn (Z.to_nat (b' - a')) (skipn (Z.to_nat a') l).

(** An edge list: the columns of a [2 x E] integer tensor, row 0 holding
    the sources and row 1 the destinations. *)
Definition edge : Type := (Z * Z)%type.

(** A COO sparse matrix: its size and its (row, column, value) entries,
    as [_indices()] and [_values()] list them. *)
Definition entry : Type := (Z * Z * float)%type.

Record sparse : Type := mkSparse {
  sp_nrows : Z;                (* size(0) *)
  sp_ncols : Z;                (* size(1) *)
  sp_entries : list entry
}.

Definition in_bounds (r c : Z) (e : entry) : bool :=
  let '(i, j, _) := e in
  (0 <=? i) && (i <? r) && (0 <=? j) && (j <? c).

(** [torch.sparse_coo_tensor(indices, values, size=(r, c))]: as many
    values as index columns, every index inside the size. *)
Definition sparse_coo_tensor (indices : list edge) (values : list float)
    (r c : Z) : result sparse :=
  if (r <? 0) || (c <? 0) then Raise RuntimeError
  else if negb (Nat.eqb (length indices) (length values)) then Raise RuntimeError
  else
    let es := combine indices values in
    if forallb (in_bounds r c) es then Ok (mkSparse r c es)
    else Raise RuntimeError.

Definition key_eqb (i j i' j' : Z) : bool := (i =? i') && (j =? j').
Definition key_ltb (i j i' j' : Z) : bool :=
  (i <? i') || ((i =? i') && (j <? j')).

(** Inserts an entry into a list sorted by (row, column), adding the value
    to an entry already there. *)
Fixpoint insert_entry (e : entry) (l : list entry) : list entry :=
  match l with
  | [] => [e]
  | e' :: l' =>
      let '(i, j, v) := e in
      let '(i', j', v') := e' in
      if key_eqb i j i' j' then (i', j', fadd v' v) :: l'
      else if key_ltb i j i' j' then e :: l
      else e' :: insert_entry e l'
  end.

Definition coalesce_entries (l : list entry) : list entry :=
  fold_left (fun acc e => insert_entry e acc) l [].

(** [t.coalesce()]: entries sorted, duplicates summed. *)
Definition coalesce (t : sparse) : sparse :=
  mkSparse (sp_nrows t) (sp_ncols t) (coalesce_entries (sp_entries t)).

(** [torch_sparse.spspmm(indexA, valueA, indexB, valueB, m, k, n)]: the
    product of two sparse matrices, returned coalesced. *)
Definition spspmm (A B : list entry) : list entry :=
  coalesce_entries
    (flat_map (fun '(i, k, a) =>
       flat_map (fun '(k', j, b) =>
         if k =? k' then [(i, j, fmul a b)] else []) B) A).

(** [torch.histc(x, bins)] with the default range: the bins divide
    [[min x, max x]] evenly (widened by one on each side when the two
    coincide, or when [x] is empty); the maximum falls in the last bin.
    The library computes the position [(x - lo) * bins / (hi - lo)] in
    binary64 and truncates it; [histc_bin] takes the exact quotient, which
    is the same bin as long as the rounding error stays below the distance
    of the quotient to the next integer.  For vertex numbers in [[0, N)]
    with the range [[0, N - 1]] that distance is at least [1 / (N - 1)],
    and the quotient is below [N], so they agree for [N <= 2 ^ 26]. *)
Definition histc_bin (lo hi bins x : Z) : Z :=
  let pos := (x - lo) * bins / (hi - lo) in
  if pos =? bins then bins - 1 else pos.

Definition histc (x : list Z) (bins : Z) : result (list float) :=
  if bins <=? 0 then Raise RuntimeError
  else
    let lo := fold_right Z.min (hd 0 x) x in
    let hi := fold_right Z.max (hd 0 x) x in
    let '(lo, hi) := if lo =? hi then (lo - 1, hi + 1) else (lo, hi) in
    Ok (map (fun b =>
               float_of_Z (Z.of_nat
                 (length (filter (fun v => histc_bin lo hi bins v =? b) x))))
            (py_range bins)).

(** The indices [[arange(0, n), arange(0, n)]] of a diagonal matrix. *)
Definition diag_indices (n : Z) : list edge :=
  map (fun k => (k, k)) (py_range n).

(* ================================================================== *)
(** * gcn_distr.py: [norm] *)

(** [torch_geometric.utils.add_remaining_self_loops]: the edges that are
    not self loops, followed by one self loop per node, weighted by the
    node's last own self loop if it had one and by [fill_value] if not. *)
Definition add_remaining_self_loops (edge_index : list edge)
    (edge_weight : list float) (fill_value : float) (num_nodes : Z)
  : list edge * list float :=
  let ew := combine edge_index edge_weight in
  let kept := filter (fun '((r, c), _) => negb (r =? c)) ew in
  let loop_weight := fun v =>
    fold_left (fun acc '((r, c), w) => if (r =? c) && (r =? v) then w else acc)
              ew fill_value in
  (map fst kept ++ diag_indices num_nodes,
   map snd kept ++ map loop_weight (py_range num_nodes)).

(** [scatter_add(src, index, dim=0, dim_size=n)] *)
Definition scatter_add (src : list float) (index : list Z) (dim_size : Z)
  : result (list float) :=
  if forallb (fun i => (0 <=? i) && (i <? dim_size)) index then
    Ok (map (fun v =>
               fold_left (fun acc '(i, w) => if i =? v then fadd acc w else acc)
                         (combine index src) PrimFloat.zero)
            (py_range dim_size))
  else Raise RuntimeError.

(** [t[t == float('inf')] = 0] *)
Definition clamp_inf (t : list float) : list float :=
  map (fun x => if PrimFloat.eqb x PrimFloat.infinity then PrimFloat.zero else x) t.

(** Lines 32-34: the degrees and their clamped inverse square roots. *)
Definition norm_deg_inv_sqrt (edge_weight : list float) (row : list Z)
    (num_nodes : Z) : result (list float) :=
  deg <- scatter_add edge_weight row num_nodes ;;
  let deg_inv_sqrt := map pow_neg_half deg in
  Ok (clamp_inf deg_inv_sqrt).

Definition norm (edge_index : list edge) (num_nodes : Z)
    (edge_weight : option (list float)) (improved : bool)
  : result (list edge * list float) :=
  let edge_weight :=
    match edge_weight with
    | None => map (fun _ => PrimFloat.one) edge_index
    | Some w => w
    end in
  let fill_value := if negb improved then PrimFloat.one else PrimFloat.two in
  let '(edge_index, edge_weight) :=
    add_remaining_self_loops edge_index edge_weight fill_value num_nodes in
  let row := map fst edge_index in
  let col := map snd edge_index in
  deg_inv_sqrt <- norm_deg_inv_sqrt edge_weight row num_nodes ;;
  values <- mapM (fun '((r, c), w) =>
                    dr <- py_get deg_inv_sqrt r ;;
                    dc <- py_get deg_inv_sqrt c ;;
                    Ok (fmul (fmul dr w) dc))
                 (combine edge_index edge_weight) ;;
  Ok (edge_index, values).

(* ================================================================== *)
(** * examples/gcn_2d.py: [scale_elements] *)

(** Lines 118-119: the histogram of the sources and its power [-0.5]. *)
Definition degree_scale (adj_matrix : list edge) (node_count : Z)
  : result (list float) :=
  deg <- histc (map fst adj_matrix) node_count ;;
  Ok (map pow_neg_half deg).

Definition scale_elements (adj_matrix : list edge) (adj_part : sparse)
    (node_count row_vtx col_vtx : Z) (normalization : bool) : result sparse :=
  if negb normalization then Ok adj_part
  else
    let adj_part := coalesce adj_part in
    deg <- degree_scale adj_matrix node_count ;;
    let row_len := sp_nrows adj_part in
    let col_len := sp_ncols adj_part in
    dleft <- sparse_coo_tensor (diag_indices row_len)
               (py_slice deg row_vtx (row_vtx + row_len)) row_len row_len ;;
    dright <- sparse_coo_tensor (diag_indices col_len)
                (py_slice deg col_vtx (col_vtx + col_len)) col_len col_len ;;
    let ad := spspmm (sp_entries adj_part) (sp_entries dright) in
    let scaled := spspmm (sp_entries dleft) ad in
    sparse_coo_tensor (map fst scaled) (map snd scaled)
                      (sp_nrows adj_part) (sp_ncols adj_part).

(* ================================================================== *)
(** * Process groups: [dist.new_group] *)

(** A process group, identified by the ranks it was created with. *)
Definition group : Type := list Z.

(** Code that creates groups: it threads the list of the groups created so
    far, oldest first, and may raise. *)
Definition comm (A : Type) : Type := list group -> result (A * list group).

Definition retC {A} (a : A) : comm A := fun log => Ok (a, log).

Definition bindC {A B} (m : comm A) (k : A -> comm B) : comm B :=
  fun log =>
    match m log with
    | Ok (a, log') => k a log'
    | Raise e => Raise e
    end.

Definition lift {A} (r : result A) : comm A :=
  fun log =>
    match r with
    | Ok a => Ok (a, log)
    | Raise e => Raise e
    end.

Notation "x <~ m ;; k" := (bindC m (fun x => k))
  (at level 61, m at next level, right associativity).

(** [dist.new_group(ranks)] *)
Definition new_group (ranks : list Z) : comm group :=
  fun log => Ok (ranks, log ++ [ranks]).

(** [for x in l: out.append(body(x))] *)
Fixpoint forC {A B} (l : list A) (body : A -> comm B) : comm (list B) :=
  match l with
  | [] => retC []
  | a :: l' => b <~ body a ;; bs <~ forC l' body ;; retC (b :: bs)
  end.

(** [range(start, stop)] *)
Definition py_range2 (start stop : Z) : list Z :=
  map (fun k => start + Z.of_nat k) (seq 0 (Z.to_nat (stop - start))).

(** 64-bit two's complement wrap-around of integer tensor arithmetic. *)
Definition wrap64 (z : Z) : Z := (z + 2 ^ 63) mod 2 ^ 64 - 2 ^ 63.

(** [t[dim]] on a tensor with two rows: [true] for row 0. *)
Definition axis (dim : Z) : result bool :=
  if (dim =? 0) || (dim =? -2) then Ok true
  else if (dim =? 1) || (dim =? -1) then Ok false
  else Raise IndexError.

Definition coord (d : bool) (e : edge) : Z := if d then fst e else snd e.

(** [am_part[dim] -= lo] on one column. *)
Definition rebase (d : bool) (lo : Z) (e : edge) : edge :=
  if d then (wrap64 (fst e - lo), snd e) else (fst e, wrap64 (snd e - lo)).

(** [torch.split(A, sizes, dim=0)] with a list of sizes. *)
Fixpoint blocks_of_sizes (offset : nat) (sizes : list Z) : list (nat * nat) :=
  match sizes with
  | [] => []
  | s :: sizes' =>
      (offset, Z.to_nat s) :: blocks_of_sizes (offset + Z.to_nat s) sizes'
  end.

Definition row_block (A : tensor) (r0 h : nat) : tensor :=
  tabulate h (ncols A) (fun i j => get A (r0 + i) j).

Definition split_rows_sizes (A : tensor) (sizes : list Z) : result (list tensor) :=
  if forallb (fun s => 0 <=? s) sizes
     && (fold_right Z.add 0 sizes =? Z.of_nat (nrows A)) then
    Ok (map (fun '(r0, h) => row_block A r0 h) (blocks_of_sizes 0 sizes))
  else Raise RuntimeError.

Definition split_cols_sizes (A : tensor) (sizes : list Z) : result (list tensor) :=
  if forallb (fun s => 0 <=? s) sizes
     && (fold_right Z.add 0 sizes =? Z.of_nat (ncols A)) then
    Ok (map (fun '(c0, w) => col_block A c0 w) (blocks_of_sizes 0 sizes))
  else Raise RuntimeError.

(* ================================================================== *)
(** * examples/gcn_2d.py: the 2D process grid *)

Section Grid.

(** [CAGF.proc_row_size] and [CAGF.proc_col_size]. *)
Variables proc_row_size proc_col_size : Z -> Z.

(** Lines 94-103: the table of transpose groups. *)
Definition transpose_groups_table (proc_row proc_col : Z)
  : comm (list (list (option group))) :=
  forC (py_range proc_row) (fun i =>
    forC (py_range proc_col) (fun j =>
      let local_rank := i * proc_col + j in
      let local_rank_t := j * proc_row + i in
      if local_rank <? local_rank_t then
        g <~ new_group [local_rank; local_rank_t] ;; retC (Some g)
      else retC None)).

(** [get_proc_groups(rank, size)]; a bare [return] yields [None].  Lines
    83-86 recompute [proc_row], [proc_col], [rank_row] and [rank_col]. *)
Definition get_proc_groups (rank size : Z)
  : comm (option (list group * list group * option group)) :=
  let proc_row := proc_row_size size in
  let proc_col := proc_col_size size in
  rank_row <~ lift (int_truediv rank proc_col) ;;
  rank_col <~ lift (py_mod rank proc_col) ;;
  row_groups <~ forC (py_range proc_row) (fun i =>
      new_group (py_range2 (i * proc_col) (i * proc_col + proc_col))) ;;
  col_groups <~ forC (py_range proc_col) (fun i =>
      ranks <~ lift (py_range3 i size proc_row) ;; new_group ranks) ;;
  let rank_t := rank_col * proc_row + rank_row in
  if (rank_row >=? proc_row) || (rank_col >=? proc_col) then retC None
  else
    transpose_groups <~ transpose_groups_table proc_row proc_col ;;
    transpose_group <~ lift
      (if rank <? rank_t then
         r <- py_get transpose_groups rank_row ;; py_get r rank_col
       else
         r <- py_get transpose_groups rank_col ;; py_get r rank_row) ;;
    retC (Some (row_groups, col_groups, transpose_group)).

(** Lines 156-158: the vertex partition boundaries. *)
Definition vtx_boundaries (node_count n_per_proc proc_row : Z) : result (list Z) :=
  r <- py_range3 0 node_count n_per_proc ;;
  Ok (py_take r proc_row ++ [node_count]).

(** Lines 162-164: partition [i] of the edge list.  The code compares an
    int64 tensor with the two boundaries, so they have to fit int64: the
    comparisons below are those of the code for [node_count < 2 ^ 63]. *)
Definition split_part (adj_matrix : list edge) (dim : Z) (vtx_indices : list Z)
    (i : Z) : result (list edge) :=
  d <- axis dim ;;
  lo <- py_get vtx_indices i ;;
  hi <- py_get vtx_indices (i + 1) ;;
  let am_part := filter (fun e => lo <=? coord d e) adj_matrix in
  let am_part := filter (fun e => coord d e <? hi) am_part in
  Ok (map (rebase d lo) am_part).

Definition split_coo (adj_matrix : list edge) (node_count n_per_proc dim size : Z)
  : result (list (list edge) * list Z) :=
  let proc_row := proc_row_size size in
  vtx_indices <- vtx_boundaries node_count n_per_proc proc_row ;;
  am_partitions <- mapM (split_part adj_matrix dim vtx_indices)
                        (py_range (Z.of_nat (length vtx_indices) - 1)) ;;
  Ok (am_partitions, vtx_indices).

(** Lines 193-208: one row piece made sparse, with unit values, and scaled. *)
Definition assemble_piece (adj_matrix : list edge) (node_count n_per_proc : Z)
    (proc_row rank_col proc_node_count : Z) (vtx_indices : list Z)
    (normalize : bool) (ip : Z * list edge) : result sparse :=
  let '(i, piece) := ip in
  let ones := map (fun _ => PrimFloat.one) piece in
  if i =? proc_row - 1 then
    hi <- py_get vtx_indices (i + 1) ;;
    lo <- py_get vtx_indices i ;;
    let last_node_count := hi - lo in
    t <- sparse_coo_tensor piece ones last_node_count proc_node_count ;;
    row_vtx <- py_get vtx_indices i ;;
    col_vtx <- py_get vtx_indices rank_col ;;
    scale_elements adj_matrix t node_count row_vtx col_vtx normalize
  else
    t <- sparse_coo_tensor piece ones n_per_proc proc_node_count ;;
    row_vtx <- py_get vtx_indices i ;;
    col_vtx <- py_get vtx_indices rank_col ;;
    scale_elements adj_matrix t node_count row_vtx col_vtx normalize.

(** Lines 210-223: the chunk sizes along one dimension. *)
Definition chunk_sizes (total parts : Z) : list Z :=
  let per := total / parts in
  map (fun i => if i =? parts - 1 then total - per * (parts - 1) else per)
      (py_range parts).

(** [twod_partition(rank, size, inputs, adj_matrix, ..., normalize, ...)]:
    the local feature tile and the local adjacency block. *)
Definition twod_partition (rank size : Z) (inputs0 : tensor)
    (adj_matrix : list edge) (normalize : bool) : result (tensor * sparse) :=
  let node_count := Z.of_nat (nrows inputs0) in
  let proc_row := proc_row_size size in
  let proc_col := proc_col_size size in
  n_per_proc <- py_floordiv node_count proc_row ;;
  rank_row <- int_truediv rank proc_col ;;
  rank_col <- py_mod rank proc_col ;;
  '(am_partitions, vtx_indices) <-
     split_coo adj_matrix node_count n_per_proc 1 size ;;
  hi <- py_get vtx_indices (rank_col + 1) ;;
  lo <- py_get vtx_indices rank_col ;;
  let proc_node_count := hi - lo in
  col_part <- py_get am_partitions rank_col ;;
  '(am_pbyp, _) <- split_coo col_part node_count n_per_proc 0 size ;;
  am_pbyp <- mapM (assemble_piece adj_matrix node_count n_per_proc proc_row
                                  rank_col proc_node_count vtx_indices normalize)
                  (combine (py_range (Z.of_nat (length am_pbyp))) am_pbyp) ;;
  let chunks_per_row := chunk_sizes (Z.of_nat (nrows inputs0)) proc_row in
  let chunks_per_col := chunk_sizes (Z.of_nat (ncols inputs0)) proc_col in
  input_rowparts <- split_rows_sizes inputs0 chunks_per_row ;;
  input_partitions <- mapM (fun p => split_cols_sizes p chunks_per_col)
                           input_rowparts ;;
  adj_matrix_loc <- py_get am_pbyp rank_row ;;
  tiles <- py_get input_partitions rank_row ;;
  inputs_loc <- py_get tiles rank_col ;;
  Ok (inputs_loc, adj_matrix_loc).

End Grid.

(* ================================================================== *)
(** * Auxiliary definitions used by the statements *)

(** The communication calls of a statement list, in program order. *)
Definition is_comm_call (c : instr) : bool :=
  match c with
  | Send _ | Recv _ => true
  | _ => false
  end.

Definition comm_calls (code : list instr) : list instr :=
  filter is_comm_call code.

(** The exchange the specification describes for one rank: rank 0 sends
    and then receives, the other ranks receive and then send. *)
Definition ring_exchange (rank size : Z) : list instr :=
  if rank =? 0 then [Send ((rank + 1) mod size); Recv ((rank - 1) mod size)]
  else [Recv ((rank - 1) mod size); Send ((rank + 1) mod size)].

(** Undoes [rebase]: adds the boundary back to the split coordinate. *)
Definition unrebase (d : bool) (lo : Z) (e : edge) : edge :=
  if d then (fst e + lo, snd e) else (fst e, snd e + lo).

(** The partitions put back together, partition [i] shifted by
    [vtx_indices[i]]. *)
Definition reconstitute (d : bool) (vtx_indices : list Z)
    (parts : list (list edge)) : list edge :=
  concat (map (fun '(i, p) => map (unrebase d (nth i vtx_indices 0)) p)
              (combine (seq 0 (length parts)) parts)).

(** The edges of [adj_matrix] whose [d]-coordinate lies in [[lo, hi)]. *)
Definition in_interval (d : bool) (lo hi : Z) (e : edge) : bool :=
  (lo <=? coord d e) && (coord d e <? hi).

(** The ranks [range(start, size, step)] lists when [step] is not zero. *)
Definition strided (start size step : Z) : list Z :=
  match py_range3 start size step with
  | Ok l => l
  | Raise _ => []
  end.

(** A directed two-node graph with the single edge 0 -> 1, with features,
    a weight and an output gradient of compatible shapes. *)
Definition ex_A : tensor := of_rows [[0; 1]; [0; 0]].
Definition ex_H : tensor := of_rows [[1]; [1]].
Definition ex_W : tensor := of_rows [[1]].
Definition ex_G : tensor := of_rows [[1]; [2]].

(** The transpose group cell of grid position [(i, j)] in a square grid. *)
Definition transpose_cell (P i j : Z) : option group :=
  if i <? j then Some [i * P + j; j * P + i] else None.

(** The transpose groups a [P x P] grid creates, in creation order. *)
Definition transpose_pairs (P : Z) : list group :=
  concat (map (fun i =>
            concat (map (fun j => if i <? j then [[i * P + j; j * P + i]] else [])
                        (py_range P)))
              (py_range P)).

(** Three ranks of a ring: rank [r] holds the adjacency row-block
    [ring3_locals[r].1] (one row, three column partitions) and the feature
    block [ring3_locals[r].2]; the weight is the 1 x 1 identity. *)
Definition ring3_locals : list (tensor * tensor) :=
  [ (of_rows [[1; 2; 3]], of_rows [[1]]);
    (of_rows [[4; 5; 6]], of_rows [[10]]);
    (of_rows [[7; 8; 9]], of_rows [[100]]) ].

Definition ring_weight : tensor := of_rows [[1]].

(** The four-process example of the specification: the 4 x 4 identity
    adjacency, one row per rank, and feature rows 1, 10, 100, 1000. *)
Definition ring4_identity : list (tensor * tensor) :=
  [ (of_rows [[1; 0; 0; 0]], of_rows [[1]]);
    (of_rows [[0; 1; 0; 0]], of_rows [[10]]);
    (of_rows [[0; 0; 1; 0]], of_rows [[100]]);
    (of_rows [[0; 0; 0; 1]], of_rows [[1000]]) ].

(** A three-node graph in which node 1 has no outgoing edge. *)
Definition sink_graph : list edge := [(0, 1); (2, 1)].

Definition sink_block : sparse :=
  mkSparse 3 3 [(0, 1, PrimFloat.one); (2, 1, PrimFloat.one)].

(** A graph of five nodes with two features each. *)
Definition grid_features : tensor :=
  of_rows [[1; 2]; [3; 4]; [5; 6]; [7; 8]; [9; 10]].

Definition grid_edges : list edge :=
  [(0, 0); (3, 1); (1, 2); (2, 2); (4, 4); (0, 4)].

(** A grid shape for the examples: the integer square root both ways. *)
Definition isqrt_grid (size : Z) : Z := Z.sqrt size.

(** A 3 x 5 grid for 15 processes. *)
Definition three_rows (size : Z) : Z := 3.
Definition five_cols (size : Z) : Z := 5.

(** A 1 x 2 grid for 2 processes. *)
Definition one_row (size : Z) : Z := 1.
Definition two_cols (size : Z) : Z := 2.

(* ------------------------------------------------------------------ *)
(** ** Edge lists and [norm] *)

(** A self loop. *)
Definition is_self_loop (e : edge) : bool := fst e =? snd e.

(** Three nodes, with a self loop on node 1. *)
Definition looped_graph : list edge := [(0, 1); (1, 1); (2, 1)].

(** The scale factor [norm] keeps for a vertex of degree [x]: lines 33-34
    on one value. *)
Definition clamped_scale (x : float) : float :=
  if PrimFloat.eqb (pow_neg_half x) PrimFloat.infinity then PrimFloat.zero
  else pow_neg_half x.

(** The number of edges leaving vertex [v]. *)
Definition out_degree (adj_matrix : list edge) (v : Z) : Z :=
  Z.of_nat (length (filter (fun e => fst e =? v) adj_matrix)).

(** A single node with two features. *)
Definition one_node : tensor := of_rows [[1; 2]].

(* ------------------------------------------------------------------ *)
(** ** The process grid *)

(** The transpose group cell of grid position [(i, j)] in a
    [proc_row x proc_col] grid. *)
Definition grid_cell (proc_row proc_col i j : Z) : option group :=
  if i * proc_col + j <? j * proc_row + i
  then Some [i * proc_col + j; j * proc_row + i] else None.

(** The transpose groups the table creates, in creation order. *)
Definition grid_pairs (proc_row proc_col : Z) : list group :=
  concat (map (fun i =>
            concat (map (fun j =>
                      if i * proc_col + j <? j * proc_row + i
                      then [[i * proc_col + j; j * proc_row + i]] else [])
                        (py_range proc_col)))
              (py_range proc_row)).

(** The row groups and the column groups [get_proc_groups] creates. *)
Definition row_groups_of (proc_row proc_col : Z) : list group :=
  map (fun i => py_range2 (i * proc_col) (i * proc_col + proc_col))
      (py_range proc_row).

Definition col_groups_of (proc_row proc_col size : Z) : list group :=
  map (fun i => strided i size proc_row) (py_range proc_col).

(* ------------------------------------------------------------------ *)
(** ** Feature tiles *)

(** Rows [[r0, r0 + h)] and columns [[c0, c0 + w)] of [A]. *)
Definition tile (A : tensor) (r0 h c0 w : nat) : tensor :=
  col_block (row_block A r0 h) c0 w.

(** Start and length of chunk [k] when [total] is cut into [parts]. *)
Definition chunk_start (total parts k : Z) : nat := Z.to_nat (k * (total / parts)).

Definition chunk_len (total parts k : Z) : nat :=
  Z.to_nat (if k =? parts - 1 then total - total / parts * (parts - 1)
            else total / parts).

(* ------------------------------------------------------------------ *)
(** ** Sparse blocks *)

(** The order [coalesce] sorts by: row first, then column. *)
Definition entry_lt (e1 e2 : entry) : Prop :=
  key_ltb (fst (fst e1)) (snd (fst e1)) (fst (fst e2)) (snd (fst e2)) = true.

(** Entry [(i, j, a)] of a block whose first row is vertex [row_vtx] and
    whose first column is vertex [col_vtx], scaled by the factors of its
    two vertices. *)
Definition scale_entry (deg : list float) (row_vtx col_vtx : Z) (e : entry)
  : entry :=
  let '(i, j, a) := e in
  (i, j, fmul (nth (Z.to_nat (row_vtx + i)) deg PrimFloat.zero)
              (fmul a (nth (Z.to_nat (col_vtx + j)) deg PrimFloat.zero))).

(** A block of two rows and three columns, with the entry (1, 0) twice. *)
Definition dup_block : sparse :=
  mkSparse 2 3 [(1, 0, PrimFloat.one); (0, 2, PrimFloat.one); (1, 0, PrimFloat.one)].

(* ------------------------------------------------------------------ *)
(** ** The ring of [blockRow] *)

(** The statements of [blockRow] from iteration [i] on. *)
Definition code_from (rank size : Z) (i : nat) : list instr :=
  flat_map (blockRow_iter rank size) (map Z.of_nat (seq i (Z.to_nat size - i)))
  ++ [MulWeight].

(** The statements left when a rank has accumulated in iteration [i] and
    stands in front of the exchange of that iteration; nothing is left
    after the last iteration. *)
Definition at_round (rank size : Z) (i : nat) : list instr :=
  if (S i <? Z.to_nat size)%nat
  then ring_exchange rank size ++ Rebind :: code_from rank size (S i)
  else [].

(** The neighbour a rank sends to. *)
Definition ring_next (sz r : nat) : nat := if (S r <? sz)%nat then S r else O.

(** The statements left on rank [r] when [k] transfers of the exchange of
    iteration [i] have taken place: the transfers go round the ring from
    rank 0, the [k]-th one from rank [k - 1] to rank [k]. *)
Definition ring_code (size : Z) (i k r : nat) : list instr :=
  let rank := Z.of_nat r in
  if (r =? 0)%nat then
    if (k =? 0)%nat then at_round rank size i
    else if (k <? Z.to_nat size)%nat then tl (at_round rank size i)
    else at_round rank size (S i)
  else
    if (k <? r)%nat then at_round rank size i
    else if (k =? r)%nat then tl (at_round rank size i)
    else at_round rank size (S i).

(** A process with nothing left to run. *)
Definition idle : process :=
  (mkStore [] (zeros 0 0) (zeros 0 0) (zeros 0 0) false (zeros 0 0), []).

(** The process is blocked in a send. *)
Definition head_is_send (p : process) : bool :=
  match snd p with
  | Send _ :: _ => true
  | _ => false
  end.

(** The adjacency row-block and the feature block of rank [r]. *)
Definition ring_adj (locals : list (tensor * tensor)) (r : nat) : tensor :=
  fst (nth r locals (zeros 0 0, zeros 0 0)).

Definition ring_feat (locals : list (tensor * tensor)) (r : nat) : tensor :=
  snd (nth r locals (zeros 0 0, zeros 0 0)).

(** The column partitions of rank [r], and the one used in iteration [j]. *)
Definition ring_parts (locals : list (tensor * tensor)) (n r : nat) : list tensor :=
  map (fun k => col_block (ring_adj locals r) (k * n)
                  (Nat.min n (ncols (ring_adj locals r) - k * n)))
      (seq 0 (length locals)).

Definition ring_part (locals : list (tensor * tensor)) (n r j : nat) : tensor :=
  nth (Z.to_nat ((Z.of_nat r + Z.of_nat j) mod Z.of_nat (length locals)))
      (ring_parts locals n r) (zeros 0 0).

(** The feature block rank [r] multiplies with in iteration [j]: its own,
    then that of its left neighbour, then that of the last rank. *)
Definition held_rank (sz r j : nat) : nat :=
  match j with
  | O => r
  | S O => if (r =? 0)%nat then (sz - 1)%nat else (r - 1)%nat
  | _ => (sz - 1)%nat
  end.

Definition held_block (locals : list (tensor * tensor)) (r j : nat) : tensor :=
  ring_feat locals (held_rank (length locals) r j).

(** [z += torch.mm(part, x)] on tensors of matching shapes. *)
Definition accum (z part x : tensor) : tensor :=
  tabulate (nrows z) (ncols z)
    (fun i j => get z i j + sumZ (ncols part) (fun k => get part i k * get x k j)).

(** The accumulator of rank [r] after [c] iterations, and its result. *)
Fixpoint ring_acc (locals : list (tensor * tensor)) (n f r c : nat) : tensor :=
  match c with
  | O => zeros n f
  | S j => accum (ring_acc locals n f r j) (ring_part locals n r j)
                 (held_block locals r j)
  end.

Definition ring_final (locals : list (tensor * tensor)) (W : tensor)
    (n f r : nat) : tensor :=
  let z := ring_acc locals n f r (length locals) in
  tabulate (nrows z) (ncols W)
    (fun i j => sumZ (ncols z) (fun k => get z i k * get W k j)).

(** The variables of rank [r] when it has received [m] blocks, has or has
    not rebound [inputs], and has accumulated [c] times. *)
Definition store_of (locals : list (tensor * tensor)) (W : tensor)
    (n f r m : nat) (rebound : bool) (c : nat) : store :=
  mkStore (ring_parts locals n r) W (ring_feat locals r)
    (match m with
     | O => zeros (nrows (ring_feat locals r)) (ncols (ring_feat locals r))
     | _ => held_block locals r m
     end)
    rebound
    (if (length locals <=? c)%nat then ring_final locals W n f r
     else ring_acc locals n f r c).

(** Whether rank [r] has received, and whether it has finished, in the
    exchange of the current iteration after [k] transfers. *)
Definition round_got (sz k r : nat) : bool :=
  if (r =? 0)%nat then (sz <=? k)%nat else (r <=? k)%nat.

Definition round_done (sz k r : nat) : bool :=
  if (r =? 0)%nat then (sz <=? k)%nat else (r <? k)%nat.

Definition store_at (locals : list (tensor * tensor)) (W : tensor)
    (n f i k r : nat) : store :=
  let sz := length locals in
  store_of locals W n f r
    (i + Nat.b2n (round_got sz k r))
    (0 <? i + Nat.b2n (round_done sz k r))%nat
    (i + 1 + Nat.b2n (round_done sz k r)).

(** The job when [k] transfers of iteration [i] have taken place. *)
Definition net_at (locals : list (tensor * tensor)) (W : tensor)
    (n f i k : nat) : list process :=
  map (fun r => (store_at locals W n f i k r,
                 ring_code (Z.of_nat (length locals)) i k r))
      (seq 0 (length locals)).

(* ------------------------------------------------------------------ *)
(** ** The exchanges of a run *)

(** The statement is the accumulation of line 49. *)
Definition is_accumulate (c : instr) : bool :=
  match c with
  | Accumulate _ => true
  | _ => false
  end.

(** The loop iteration a process of a [size]-rank job is in, read off the
    statements it has left: every iteration of [blockRow] starts with its
    accumulation, so the iterations still to start are the [Accumulate]
    left. *)
Definition iteration_of (size : Z) (p : process) : Z :=
  size - 1 - Z.of_nat (length (filter is_accumulate (snd p))).

(** A completed transfer: the rank that sent and the iteration it was in,
    the rank that received and the iteration it was in. *)
Record exchange : Type := mkExchange {
  src_rank : Z;
  src_iter : Z;
  dst_rank : Z;
  dst_iter : Z
}.

(** [run], keeping the transfers it performs, in order. *)
Fixpoint run_log (fuel : nat) (net : list process) : list exchange * outcome :=
  if all_done net then ([], Finished (map (fun p => z_loc (fst p)) net))
  else
    match fuel with
    | O => ([], OutOfFuel)
    | S fuel' =>
        match find_transfer net net 0 with
        | None => ([], Deadlocked)
        | Some (src, dst) =>
            match transfer net src dst with
            | Ok net' =>
                let size := Z.of_nat (length net) in
                let x :=
                  mkExchange
                    src (iteration_of size (nth (Z.to_nat src) net idle))
                    dst (iteration_of size (nth (Z.to_nat dst) net idle)) in
                let '(log, out) := run_log fuel' net' in
                (x :: log, out)
            | Raise e => ([], Crashed e)
            end
        end
    end.

(** [blockRow], keeping the transfers of the job. *)
Definition blockRow_log (locals : list (tensor * tensor)) (weight0 : tensor)
  : list exchange * outcome :=
  let size := Z.of_nat (length locals) in
  match mapM (fun '(rank, args) => blockRow_start size weight0 rank args)
             (combine (py_range size) locals) with
  | Raise e => ([], Crashed e)
  | Ok net => run_log (length locals * length locals) net
  end.

(** The communication calls [rank] completes in a log, in order, each with
    the iteration it belongs to. *)
Definition calls_of (rank : Z) (log : list exchange) : list (Z * instr) :=
  flat_map (fun x =>
              (if src_rank x =? rank then [(src_iter x, Send (dst_rank x))]
               else [])
              ++ (if dst_rank x =? rank then [(dst_iter x, Recv (src_rank x))]
                  else []))
           log.

(** Once round the ring in iteration [i]: every rank sends to its right
    neighbour, rank 0 first. *)
Definition ring_round (size i : Z) : list exchange :=
  map (fun k => mkExchange k i ((k + 1) mod size) i) (py_range size).

(** The transfers left when [k] transfers of iteration [i] have taken
    place. *)
Definition ring_log_from (size : Z) (i k : nat) : list exchange :=
  if (S i <? Z.to_nat size)%nat then
    skipn k (ring_round size (Z.of_nat i))
    ++ flat_map (ring_round size)
         (map Z.of_nat (seq (S i) (Z.to_nat size - 1 - S i)))
  else [].

(* ================================================================== *)
(** * gcn_distr.py: [test] *)

(** [t[mask]] for a boolean mask over the first dimension, of size
    [size0]: the mask has to have that length. *)
Definition mask_select {A} (l : list A) (size0 : nat) (mask : list bool)
  : result (list A) :=
  if Nat.eqb (length mask) size0
  then Ok (map snd (filter fst (combine mask l)))
  else Raise IndexError.

(** [row.max(0)[1]]: the index of the first maximal entry. *)
Fixpoint argmax_from (best_i best i : Z) (row : list Z) : Z :=
  match row with
  | [] => best_i
  | x :: row' =>
      if best <? x then argmax_from i x (i + 1) row'
      else argmax_from best_i best (i + 1) row'
  end.

Definition argmax (row : list Z) : Z :=
  match row with
  | [] => 0
  | x :: row' => argmax_from 0 x 1 row'
  end.

(** [logits[mask].max(1)[1]]; a reduction over an empty dimension raises. *)
Definition max_indices (logits : tensor) (mask : list bool) : result (list Z) :=
  selected <- mask_select (rows logits) (nrows logits) mask ;;
  if Nat.eqb (ncols logits) 0 then Raise IndexError
  else Ok (map argmax selected).

(** [mask.sum().item()] *)
Definition count_true (mask : list bool) : Z :=
  Z.of_nat (length (filter (fun b : bool => b) mask)).

(** The body of the loop of [test] for one mask.  The quotient of the two
    counts is kept exact; Python rounds it to a float. *)
Definition accuracy (logits : tensor) (y : list Z) (mask : list bool) : result Q :=
  pred <- max_indices logits mask ;;
  labels <- mask_select y (length y) mask ;;
  let correct :=
    Z.of_nat (length (filter (fun '(p, l) => p =? l) (combine pred labels))) in
  let total := count_true mask in
  if total =? 0 then Raise ZeroDivisionError
  else Ok (Qmake correct (Z.to_pos total)).

(** [test(outputs, data)], with the labels [data.y] and the three masks
    [data] holds. *)
Definition test (outputs : tensor) (y : list Z)
    (train_mask val_mask test_mask : list bool) : result (list Q) :=
  mapM (accuracy outputs y) [train_mask; val_mask; test_mask].

(** Four nodes with two classes. *)
Definition four_logits : tensor := of_rows [[1; 2]; [5; 3]; [0; 0]; [2; 7]].

(** The labels of the four nodes, and three masks. *)
Definition four_labels : list Z := [1; 1; 0; 1].
Definition mask_train : list bool := [true; true; false; false].
Definition mask_val : list bool := [false; false; true; false].
Definition mask_test : list bool := [false; false; false; true].

(* ================================================================== *)
(** * Facts about the Python runtime model *)

Lemma py_range_length (n : Z) : length (py_range n) = Z.to_nat n.
Proof. unfold py_range. now rewrite length_map, length_seq. Qed.

Lemma py_range_succ (n : Z) :
  0 <= n -> py_range (n + 1) = py_range n ++ [n].
Proof.
  intros Hn. unfold py_range.
  replace (Z.to_nat (n + 1)) with (S (Z.to_nat n)) by lia.
  rewrite seq_S, map_app. cbn. now rewrite Z2Nat.id.
Qed.

Lemma in_py_range (n x : Z) : In x (py_range n) <-> 0 <= x < n.
Proof.
  unfold py_range. rewrite in_map_iff. split.
  - intros (k & <- & Hk). apply in_seq in Hk. lia.
  - intros H. exists (Z.to_nat x). split; [lia |]. apply in_seq. lia.
Qed.

Lemma py_get_nth {A} (l : list A) (i : nat) (a : A) :
  nth_error l i = Some a -> py_get l (Z.of_nat i) = Ok a.
Proof.
  intros H. unfold py_get.
  assert (Hlt : (i < length l)%nat) by (apply nth_error_Some; congruence).
  destruct (Z.of_nat i <? 0) eqn:E; [lia |].
  replace ((0 <=? Z.of_nat i) && (Z.of_nat i <? Z.of_nat (length l))) with true
    by (symmetry; apply andb_true_iff; split; lia).
  now rewrite Nat2Z.id, H.
Qed.

Lemma py_get_ok {A} (l : list A) (i : Z) (d : A) :
  0 <= i < Z.of_nat (length l) -> py_get l i = Ok (nth (Z.to_nat i) l d).
Proof.
  intros H. rewrite <- (Z2Nat.id i) at 1 by lia.
  apply py_get_nth. apply nth_error_nth'. lia.
Qed.

Lemma mapM_ok {A B} (f : A -> result B) (g : A -> B) (l : list A) :
  (forall a, In a l -> f a = Ok (g a)) -> mapM f l = Ok (map g l).
Proof.
  induction l as [| a l IH]; intros H; cbn; [reflexivity |].
  rewrite (H a) by now left. cbn.
  rewrite IH by (intros; apply H; now right). reflexivity.
Qed.

(* ================================================================== *)
(** * The ring multiplier: the communication calls in the code *)

Lemma comm_calls_app (c1 c2 : list instr) :
  comm_calls (c1 ++ c2) = comm_calls c1 ++ comm_calls c2.
Proof. apply filter_app. Qed.

Lemma ring_src (rank size : Z) :
  0 <= rank < size ->
  (if rank - 1 <? 0 then size - 1 else rank - 1) = (rank - 1) mod size.
Proof.
  intros H. destruct (rank - 1 <? 0) eqn:E.
  - assert (rank = 0) by lia. subst.
    replace (0 - 1) with (-1 + 1 * size - 1 * size + 0) by lia.
    replace (-1 + 1 * size - 1 * size + 0) with ((size - 1) + (-1) * size) by lia.
    rewrite Z.mod_add by lia. now rewrite Z.mod_small by lia.
  - now rewrite Z.mod_small by lia.
Qed.

Lemma iter_comm_calls (rank size i : Z) :
  0 <= rank < size ->
  comm_calls (blockRow_iter rank size i) =
    if i =? size - 1 then [] else ring_exchange rank size.
Proof.
  intros H. unfold blockRow_iter, ring_exchange.
  rewrite (ring_src rank size H).
  destruct (i =? size - 1); [reflexivity |].
  destruct (rank =? 0); reflexivity.
Qed.

Lemma code_comm_calls (rank : Z) (n : nat) (size : Z) :
  0 <= rank < size -> (Z.of_nat n <= size)%Z ->
  comm_calls (flat_map (blockRow_iter rank size) (py_range (Z.of_nat n))) =
    flat_map (fun _ => ring_exchange rank size)
             (py_range (Z.min (Z.of_nat n) (size - 1))).
Proof.
  intros Hr. induction n as [| n IH]; intros Hn.
  - replace (Z.min (Z.of_nat 0) (size - 1)) with 0 by lia. reflexivity.
  - replace (Z.of_nat (S n)) with (Z.of_nat n + 1) by lia.
    rewrite py_range_succ by lia.
    rewrite flat_map_app, comm_calls_app, IH by lia.
    cbn [flat_map]. rewrite app_nil_r, iter_comm_calls by assumption.
    destruct (Z.of_nat n =? size - 1) eqn:E.
    + rewrite app_nil_r. f_equal. f_equal. lia.
    + replace (Z.min (Z.of_nat n + 1) (size - 1)) with (Z.of_nat n + 1) by lia.
      replace (Z.min (Z.of_nat n) (size - 1)) with (Z.of_nat n) by lia.
      rewrite py_range_succ by lia.
      rewrite flat_map_app. cbn [flat_map]. now rewrite app_nil_r.
Qed.

(** The communication calls in the code of one rank: one send to
    [(rank + 1) mod size] and one receive from [(rank - 1) mod size] per
    iteration [i < size - 1], rank 0 sending first and every other rank
    receiving first; none in the last iteration; [size - 1] exchanges in
    the whole body. *)
Lemma blockRow_code_exchanges (rank size : Z) :
  0 <= rank < size ->
  (forall i, 0 <= i < size - 1 ->
     comm_calls (blockRow_iter rank size i) =
       if rank =? 0
       then [Send ((rank + 1) mod size); Recv ((rank - 1) mod size)]
       else [Recv ((rank - 1) mod size); Send ((rank + 1) mod size)])
  /\ comm_calls (blockRow_iter rank size (size - 1)) = []
  /\ comm_calls (blockRow_code rank size) =
       flat_map (fun _ => ring_exchange rank size) (py_range (size - 1)).
Proof.
  intros H. repeat split.
  - intros i Hi. rewrite iter_comm_calls by assumption.
    replace (i =? size - 1) with false by (symmetry; lia). reflexivity.
  - rewrite iter_comm_calls by assumption. now rewrite Z.eqb_refl.
  - unfold blockRow_code. rewrite comm_calls_app. cbn. rewrite app_nil_r.
    pose proof (code_comm_calls rank (Z.to_nat size) size H ltac:(lia)) as E.
    rewrite Z2Nat.id in E by lia. rewrite E.
    f_equal. f_equal. lia.
Qed.

(* ================================================================== *)
(** * The topology builder *)

Lemma forC_ext {A B} (l : list A) (f g : A -> comm B) (log : list group) :
  (forall a log', In a l -> f a log' = g a log') ->
  forC l f log = forC l g log.
Proof.
  revert log. induction l as [| a l IH]; intros log H; cbn; [reflexivity |].
  unfold bindC. rewrite (H a) by now left.
  destruct (g a log) as [[b log1] | e]; [| reflexivity].
  rewrite IH by (intros; apply H; now right). reflexivity.
Qed.

Lemma forC_new_group {A} (l : list A) (f : A -> list Z) (log : list group) :
  forC l (fun a => new_group (f a)) log = Ok (map f l, log ++ map f l).
Proof.
  revert log. induction l as [| a l IH]; intros log; cbn.
  - unfold retC. now rewrite app_nil_r.
  - unfold bindC, new_group at 1. rewrite IH. unfold retC.
    now rewrite <- app_assoc.
Qed.

Lemma py_range3_strided (start size step : Z) :
  step <> 0 -> py_range3 start size step = Ok (strided start size step).
Proof.
  intros H. unfold strided, py_range3.
  destruct (step =? 0) eqn:E; [lia | reflexivity].
Qed.

Lemma row_groups_created (proc_row proc_col : Z) (log : list group) :
  forC (py_range proc_row)
       (fun i => new_group (py_range2 (i * proc_col) (i * proc_col + proc_col)))
       log
  = Ok (map (fun i => py_range2 (i * proc_col) (i * proc_col + proc_col))
            (py_range proc_row),
        log ++ map (fun i => py_range2 (i * proc_col) (i * proc_col + proc_col))
                   (py_range proc_row)).
Proof. apply forC_new_group. Qed.

Lemma col_groups_created (proc_row proc_col size : Z) (log : list group) :
  proc_row <> 0 ->
  forC (py_range proc_col)
       (fun i => ranks <~ lift (py_range3 i size proc_row) ;; new_group ranks)
       log
  = Ok (map (fun i => strided i size proc_row) (py_range proc_col),
        log ++ map (fun i => strided i size proc_row) (py_range proc_col)).
Proof.
  intros H.
  rewrite (forC_ext _ _ (fun i => new_group (strided i size proc_row))).
  - apply forC_new_group.
  - intros i log' _. unfold bindC, lift.
    now rewrite py_range3_strided.
Qed.

Section GridFacts.

Variables proc_row_size proc_col_size : Z -> Z.

(** C9. When the calling rank's coordinates lie outside the declared grid
    ([rank_row >= P_row] or [rank_col >= P_col]), [get_proc_groups] returns
    early: the caller receives [None], that is no row groups, no column
    groups and no transpose group.  (The row and column groups were
    created before the test; no transpose group was.) *)
Theorem get_proc_groups_outside_grid (rank size rank_row rank_col : Z)
    (log : list group) :
  proc_row_size size <> 0 ->
  int_truediv rank (proc_col_size size) = Ok rank_row ->
  py_mod rank (proc_col_size size) = Ok rank_col ->
  rank_row >= proc_row_size size \/ rank_col >= proc_col_size size ->
  get_proc_groups proc_row_size proc_col_size rank size log =
    Ok (None,
        log
        ++ map (fun i => py_range2 (i * proc_col_size size)
                                   (i * proc_col_size size + proc_col_size size))
               (py_range (proc_row_size size))
        ++ map (fun i => strided i size (proc_row_size size))
               (py_range (proc_col_size size))).
Proof.
  intros Hrow Hdiv Hmod Hout. unfold get_proc_groups.
  rewrite Hdiv, Hmod. unfold bindC at 1. unfold lift at 1.
  unfold bindC at 1. unfold lift at 1.
  unfold bindC at 1. rewrite row_groups_created.
  unfold bindC at 1. rewrite col_groups_created by assumption.
  replace ((rank_row >=? proc_row_size size) || (rank_col >=? proc_col_size size))
    with true
    by (symmetry; rewrite !Z.geb_leb; apply orb_true_iff;
        destruct Hout; [left | right]; apply Z.leb_le; lia).
  unfold retC. now rewrite <- app_assoc.
Qed.

End GridFacts.

(** Rank 4 of 5 processes on a 2 x 2 grid has row coordinate 2. *)
Lemma get_proc_groups_outside_grid_witness :
  get_proc_groups isqrt_grid isqrt_grid 4 5 [] =
    Ok (None, [[0; 1]; [2; 3]; [0; 2; 4]; [1; 3]]).
Proof.
  apply (get_proc_groups_outside_grid isqrt_grid isqrt_grid 4 5 2 0 []).
  - vm_compute. discriminate.
  - reflexivity.
  - reflexivity.
  - left. vm_compute. discriminate.
Defined.

(* ================================================================== *)
(** * The degree normalizer without normalization *)

(** C10. With the normalization flag false, [scale_elements] returns the
    adjacency partition it was given, unchanged. *)
Theorem scale_elements_identity (adj_matrix : list edge) (adj_part : sparse)
    (node_count row_vtx col_vtx : Z) :
  scale_elements adj_matrix adj_part node_count row_vtx col_vtx false
  = Ok adj_part.
Proof. reflexivity. Qed.

(* ================================================================== *)
(** * Vertex partition boundaries *)

Lemma firstn_seq_min (k s c : nat) : firstn k (seq s c) = seq s (Nat.min k c).
Proof.
  revert s c. induction k as [| k IH]; intros s [| c]; cbn; try reflexivity.
  now rewrite IH.
Qed.

(** The number of multiples of [n] below [N]. *)
Lemma range_count_bounds (N n : Z) :
  0 < n ->
  let count := (N - 0 + n - 1) / n in
  (0 < N -> 0 < count /\ (count - 1) * n < N <= count * n)
  /\ (N <= 0 -> count <= 0).
Proof.
  intros Hn count. subst count.
  replace (N - 0 + n - 1) with (N + n - 1) by lia.
  pose proof (Z.div_mod (N + n - 1) n ltac:(lia)) as E.
  pose proof (Z.mod_pos_bound (N + n - 1) n Hn) as B.
  split; intros H; nia.
Qed.

(** With a positive step the boundaries are the first
    [min (ceil (N / n)) P] multiples of [n], followed by [N]. *)
Lemma vtx_boundaries_eq (N n P : Z) :
  0 < n -> 0 <= P ->
  vtx_boundaries N n P =
    Ok (map (fun k => Z.of_nat k * n)
            (seq 0 (Nat.min (Z.to_nat P) (Z.to_nat ((N - 0 + n - 1) / n))))
        ++ [N]).
Proof.
  intros Hn HP. unfold vtx_boundaries, py_range3.
  replace (n =? 0) with false by (symmetry; lia).
  replace (0 <? n) with true by (symmetry; lia).
  cbn [bind]. unfold py_take.
  replace (P <? 0) with false by (symmetry; lia).
  rewrite firstn_map, firstn_seq_min. reflexivity.
Qed.

Lemma nth_map_seq {A} (f : nat -> A) (m i : nat) (d : A) :
  (i < m)%nat -> nth i (map f (seq 0 m)) d = f i.
Proof.
  intros H.
  rewrite (nth_indep _ d (f O)) by now rewrite length_map, length_seq.
  rewrite (map_nth f (seq 0 m) O i). now rewrite seq_nth.
Qed.

Lemma nth_boundaries (m : nat) (n N : Z) (i : nat) :
  nth i (map (fun k => Z.of_nat k * n) (seq 0 m) ++ [N]) 0 =
    if (i <? m)%nat then Z.of_nat i * n
    else if (i =? m)%nat then N else 0.
Proof.
  destruct (i <? m)%nat eqn:E.
  - apply Nat.ltb_lt in E.
    rewrite app_nth1 by now rewrite length_map, length_seq.
    now rewrite nth_map_seq.
  - apply Nat.ltb_ge in E.
    rewrite app_nth2 by now rewrite length_map, length_seq.
    rewrite length_map, length_seq.
    destruct (i =? m)%nat eqn:E'.
    + apply Nat.eqb_eq in E'. subst. now rewrite Nat.sub_diag.
    + apply Nat.eqb_neq in E'.
      destruct (i - m)%nat as [| [| k]] eqn:D; [lia | reflexivity | reflexivity].
Qed.

(** C6 (amended). For [1 <= P_row <= N] and [n_per_proc = N // P_row] the
    boundary list of [split_coo] is computed, has exactly [P_row + 1]
    entries, starts at 0, ends at [N] and is strictly increasing. *)
Theorem vtx_boundaries_invariant (N P : Z) :
  1 <= P <= N ->
  exists n l,
    py_floordiv N P = Ok n
    /\ vtx_boundaries N n P = Ok l
    /\ Z.of_nat (length l) = P + 1
    /\ nth 0 l 0 = 0
    /\ last l 0 = N
    /\ (forall i j, (i < j < length l)%nat -> nth i l 0 < nth j l 0).
Proof.
  intros H. exists (N / P).
  assert (Hn : 0 < N / P) by (apply Z.div_str_pos; lia).
  pose proof (range_count_bounds N (N / P) Hn) as [Hc _].
  specialize (Hc ltac:(lia)). cbv zeta in Hc.
  assert (Hle : N / P * P <= N)
    by (rewrite Z.mul_comm; apply Z.mul_div_le; lia).
  assert (Hm : Nat.min (Z.to_nat P)
                 (Z.to_nat ((N - 0 + N / P - 1) / (N / P))) = Z.to_nat P) by nia.
  eexists. split; [| split; [apply vtx_boundaries_eq; lia |]].
  - unfold py_floordiv. now replace (P =? 0) with false by (symmetry; lia).
  - rewrite Hm. repeat split.
    + rewrite length_app, length_map, length_seq. cbn. lia.
    + rewrite nth_boundaries.
      replace (0 <? Z.to_nat P)%nat with true
        by (symmetry; apply Nat.ltb_lt; lia). reflexivity.
    + apply last_last.
    + intros i j Hij.
      rewrite length_app, length_map, length_seq in Hij. cbn in Hij.
      rewrite !nth_boundaries.
      replace (i <? Z.to_nat P)%nat with true
        by (symmetry; apply Nat.ltb_lt; lia).
      destruct (j <? Z.to_nat P)%nat eqn:Ej.
      * apply Nat.ltb_lt in Ej. nia.
      * apply Nat.ltb_ge in Ej.
        replace (j =? Z.to_nat P)%nat with true
          by (symmetry; apply Nat.eqb_eq; lia).
        nia.
Qed.

Lemma vtx_boundaries_invariant_witness :
  exists n l,
    py_floordiv 10 3 = Ok n
    /\ vtx_boundaries 10 n 3 = Ok l
    /\ Z.of_nat (length l) = 3 + 1
    /\ nth 0 l 0 = 0
    /\ last l 0 = 10
    /\ (forall i j, (i < j < length l)%nat -> nth i l 0 < nth j l 0).
Proof.
  apply (vtx_boundaries_invariant 10 3). lia.
Defined.

(** C6, as stated, fails when there are fewer nodes than partitions: the
    step [N // P_row] is zero and [range] raises. *)
Lemma vtx_boundaries_few_nodes :
  py_floordiv 3 5 = Ok 0
  /\ vtx_boundaries 3 0 5 = Raise ValueError
  /\ ~ (exists n l, py_floordiv 3 5 = Ok n /\ vtx_boundaries 3 n 5 = Ok l).
Proof.
  repeat split.
  intros (n & l & Hn & Hl). vm_compute in Hn. injection Hn as <-.
  vm_compute in Hl. discriminate.
Qed.

(* ================================================================== *)
(** * The sparse partition splitter *)

Lemma filter_filter_and {A} (p q : A -> bool) (l : list A) :
  filter q (filter p l) = filter (fun a => p a && q a) l.
Proof.
  induction l as [| a l IH]; cbn; [reflexivity |].
  destruct (p a); cbn; [destruct (q a) |]; now rewrite IH.
Qed.

Lemma filter_all {A} (p : A -> bool) (l : list A) :
  (forall a, In a l -> p a = true) -> filter p l = l.
Proof.
  induction l as [| a l IH]; intros H; cbn; [reflexivity |].
  rewrite (H a) by now left. f_equal. apply IH. intros; apply H; now right.
Qed.

Lemma combine_map_self {A B} (g : A -> B) (l : list A) :
  combine l (map g l) = map (fun a => (a, g a)) l.
Proof. induction l as [| a l IH]; cbn; [reflexivity | now rewrite IH]. Qed.

Lemma wrap64_small (z : Z) : 0 <= z < 2 ^ 63 -> wrap64 z = z.
Proof.
  intros H. unfold wrap64.
  rewrite Z.mod_small by lia. lia.
Qed.

Lemma unrebase_rebase (d : bool) (lo : Z) (e : edge) :
  0 <= coord d e - lo < 2 ^ 63 -> unrebase d lo (rebase d lo e) = e.
Proof.
  destruct e as [r c], d; cbn; intros H;
    rewrite wrap64_small by assumption; f_equal; lia.
Qed.

(** Two adjacent intervals hold, between them, the edges of their union. *)
Lemma interval_split (d : bool) (a b c : Z) (adj : list edge) :
  a <= b <= c ->
  Permutation (filter (in_interval d a b) adj ++ filter (in_interval d b c) adj)
              (filter (in_interval d a c) adj).
Proof.
  intros H. induction adj as [| e adj IH]; cbn [filter app]; [constructor |].
  destruct (in_interval d a b e) eqn:E1, (in_interval d b c e) eqn:E2,
           (in_interval d a c e) eqn:E3;
    unfold in_interval in E1, E2, E3; try lia; cbn [app].
  - now constructor.
  - apply Permutation_sym, Permutation_cons_app. now symmetry.
  - assumption.
Qed.

(** The intervals cut by nondecreasing boundaries [b 0 .. b k] hold the
    edges of [[b 0, b k)], each once. *)
Lemma intervals_cover (d : bool) (b : nat -> Z) (adj : list edge) (k : nat) :
  (forall i, (i < k)%nat -> b i <= b (S i)) ->
  Permutation
    (concat (map (fun i => filter (in_interval d (b i) (b (S i))) adj) (seq 0 k)))
    (filter (in_interval d (b O) (b k)) adj).
Proof.
  induction k as [| k IH]; intros Hmono.
  - cbn. clear Hmono. induction adj as [| e adj IHa]; cbn; [constructor |].
    replace (in_interval d (b O) (b O) e) with false
      by (unfold in_interval; lia).
    exact IHa.
  - rewrite seq_S, map_app, concat_app. cbn [map concat Nat.add].
    rewrite app_nil_r.
    etransitivity.
    + apply Permutation_app_tail. apply IH. intros; apply Hmono; lia.
    + apply interval_split. split; [| apply Hmono; lia].
      clear IH. induction k as [| k IHk]; [lia |].
      etransitivity; [apply IHk; intros; apply Hmono; lia | apply Hmono; lia].
Qed.

Lemma split_part_ok (adj : list edge) (dim : Z) (d : bool) (vtx : list Z) (i : Z) :
  axis dim = Ok d ->
  0 <= i -> i + 1 < Z.of_nat (length vtx) ->
  split_part adj dim vtx i =
    Ok (map (rebase d (nth (Z.to_nat i) vtx 0))
            (filter (in_interval d (nth (Z.to_nat i) vtx 0)
                                   (nth (S (Z.to_nat i)) vtx 0)) adj)).
Proof.
  intros Hd H0 H1. unfold split_part. rewrite Hd. cbn [bind].
  rewrite (py_get_ok vtx i 0) by lia. cbn [bind].
  rewrite (py_get_ok vtx (i + 1) 0) by lia. cbn [bind].
  rewrite filter_filter_and.
  replace (Z.to_nat (i + 1)) with (S (Z.to_nat i)) by lia.
  reflexivity.
Qed.

(** [split_coo] over given boundaries: partition [i] holds the edges of
    the [i]-th interval, rebased. *)
Lemma split_coo_parts (proc_row_size : Z -> Z) (adj : list edge)
    (N n dim size : Z) (d : bool) (vtx : list Z) :
  axis dim = Ok d ->
  vtx_boundaries N n (proc_row_size size) = Ok vtx ->
  split_coo proc_row_size adj N n dim size =
    Ok (map (fun i => map (rebase d (nth i vtx 0))
                          (filter (in_interval d (nth i vtx 0) (nth (S i) vtx 0)) adj))
            (seq 0 (length vtx - 1)),
        vtx).
Proof.
  intros Hd Hv. unfold split_coo. rewrite Hv. cbn [bind].
  rewrite (mapM_ok _ (fun i => map (rebase d (nth (Z.to_nat i) vtx 0))
              (filter (in_interval d (nth (Z.to_nat i) vtx 0)
                                     (nth (S (Z.to_nat i)) vtx 0)) adj))).
  - cbn [bind]. unfold py_range. rewrite map_map.
    replace (Z.to_nat (Z.of_nat (length vtx) - 1)) with (length vtx - 1)%nat by lia.
    do 2 f_equal. apply map_ext. intros i. now rewrite Nat2Z.id.
  - intros i Hi. apply in_py_range in Hi. apply split_part_ok; [assumption | lia | lia].
Qed.

Ltac case_bounds :=
  rewrite ?nth_boundaries in *;
  repeat match goal with
         | |- context [(?a <? ?b)%nat] => destruct (Nat.ltb_spec a b)
         | |- context [(?a =? ?b)%nat] => destruct (Nat.eqb_spec a b)
         | H : context [(?a <? ?b)%nat] |- _ => destruct (Nat.ltb_spec a b)
         | H : context [(?a =? ?b)%nat] |- _ => destruct (Nat.eqb_spec a b)
         end.

(** Reconstituting the partitions cut at boundaries [vtx] gives back the
    edges of every interval, provided the rebased coordinates fit. *)
Lemma reconstitute_intervals (d : bool) (vtx : list Z) (adj : list edge) (m : nat) :
  (forall i e, (i < m)%nat ->
     in_interval d (nth i vtx 0) (nth (S i) vtx 0) e = true ->
     0 <= coord d e - nth i vtx 0 < 2 ^ 63) ->
  reconstitute d vtx
    (map (fun i => map (rebase d (nth i vtx 0))
                       (filter (in_interval d (nth i vtx 0) (nth (S i) vtx 0)) adj))
         (seq 0 m))
  = concat (map (fun i => filter (in_interval d (nth i vtx 0) (nth (S i) vtx 0)) adj)
                (seq 0 m)).
Proof.
  intros Hfit. unfold reconstitute.
  rewrite length_map, length_seq, combine_map_self, map_map.
  f_equal. apply map_ext_in. intros i Hi. apply in_seq in Hi.
  rewrite map_map. rewrite <- (map_id (filter _ adj)) at 2.
  apply map_ext_in. intros e He. apply filter_In in He as [_ He].
  apply unrebase_rebase. apply (Hfit i e); [lia | assumption].
Qed.

(** C4 (amended). For a positive partition size, a positive [P_row] and
    an edge list whose split coordinates lie in [[0, N)] (with [N] an int64
    size, [N < 2 ^ 63]), [split_coo] returns one partition per boundary interval, the last
    interval ending at [N]; partition [i] is the rebased sub-list of the
    edges whose coordinate lies in interval [i], the other coordinate
    untouched; every edge lies in some interval, no coordinate lies in two,
    and the partitions, with the boundaries added back, are a permutation
    of the input edge list. *)
Theorem split_coo_partitions (proc_row_size : Z -> Z) (adj : list edge)
    (N n dim size : Z) (d : bool) :
  axis dim = Ok d ->
  0 < n ->
  0 < proc_row_size size ->
  N < 2 ^ 63 ->
  (forall e, In e adj -> 0 <= coord d e < N) ->
  exists parts vtx,
    split_coo proc_row_size adj N n dim size = Ok (parts, vtx)
    /\ length vtx = S (length parts)
    /\ last vtx 0 = N
    /\ (forall i, (i < length parts)%nat ->
          nth i parts [] =
            map (rebase d (nth i vtx 0))
                (filter (in_interval d (nth i vtx 0) (nth (S i) vtx 0)) adj))
    /\ (forall e, In e adj ->
          exists i, (i < length parts)%nat
                    /\ nth i vtx 0 <= coord d e < nth (S i) vtx 0)
    /\ (forall c i j, (i < length parts)%nat -> (j < length parts)%nat ->
          nth i vtx 0 <= c < nth (S i) vtx 0 ->
          nth j vtx 0 <= c < nth (S j) vtx 0 -> i = j)
    /\ Permutation (reconstitute d vtx parts) adj.
Proof.
  intros Hd Hn HP HN Hadj.
  pose proof (vtx_boundaries_eq N n (proc_row_size size) Hn ltac:(lia)) as Hv.
  pose proof (range_count_bounds N n Hn) as [Hpos Hneg]. cbv zeta in Hpos, Hneg.
  set (count := (N - 0 + n - 1) / n) in *.
  set (m := Nat.min (Z.to_nat (proc_row_size size)) (Z.to_nat count)) in *.
  assert (Hm1 : 0 < N -> (1 <= m)%nat /\ (Z.of_nat m - 1) * n < N).
  { intros H. specialize (Hpos H). subst m. split; [lia | nia]. }
  assert (Hm0 : N <= 0 -> m = O).
  { intros H. specialize (Hneg H). subst m. lia. }
  set (vtx := map (fun k => Z.of_nat k * n) (seq 0 m) ++ [N]) in *.
  assert (Hlen : length vtx = S m).
  { subst vtx. rewrite length_app, length_map, length_seq. cbn. lia. }
  rewrite (split_coo_parts proc_row_size adj N n dim size d vtx Hd Hv).
  rewrite Hlen. replace (S m - 1)%nat with m by lia.
  eexists. exists vtx. split; [reflexivity |].
  rewrite length_map, length_seq.
  assert (Hmono : forall i, (i < m)%nat -> nth i vtx 0 < nth (S i) vtx 0).
  { intros i Hi. subst vtx. destruct (Z_lt_le_dec 0 N) as [HN0 | HN0].
    - destruct (Hm1 HN0). case_bounds; try lia; nia.
    - specialize (Hm0 HN0). lia. }
  split; [assumption |]. split; [apply last_last |].
  split; [| split; [| split]].
  - intros i Hi. now rewrite nth_map_seq.
  - intros e He. specialize (Hadj e He).
    destruct (Hm1 ltac:(lia)) as [Hm Hlast].
    pose proof (Z.div_mod (coord d e) n ltac:(lia)) as Ediv.
    pose proof (Z.mod_pos_bound (coord d e) n Hn) as Bmod.
    exists (Nat.min (Z.to_nat (coord d e / n)) (m - 1)).
    assert (0 <= coord d e / n) by (apply Z.div_pos; lia).
    split; [lia |]. subst vtx. case_bounds; try lia; nia.
  - intros c i j Hi Hj Hci Hcj. subst vtx.
    destruct (Nat.lt_trichotomy i j) as [L | [E | L]]; [exfalso | assumption | exfalso];
      case_bounds; try lia; nia.
  - rewrite reconstitute_intervals.
    + etransitivity; [apply intervals_cover; intros; apply Z.lt_le_incl, Hmono; assumption |].
      rewrite filter_all; [reflexivity |].
      intros e He. specialize (Hadj e He).
      destruct (Hm1 ltac:(lia)) as [Hm Hlast].
      unfold in_interval. subst vtx.
      case_bounds; try lia; rewrite andb_true_iff, Z.leb_le, Z.ltb_lt; lia.
    + intros i e Hi He. unfold in_interval in He.
      assert (In e adj -> 0 <= coord d e < N) by apply Hadj.
      assert (Hb : 0 <= nth i vtx 0) by (subst vtx; case_bounds; try lia; nia).
      assert (Hu : nth (S i) vtx 0 <= N).
      { destruct (Z_lt_le_dec 0 N) as [HN0 | HN0].
        - destruct (Hm1 HN0). subst vtx. case_bounds; try lia; nia.
        - specialize (Hm0 HN0). lia. }
      lia.
Qed.

Lemma split_coo_partitions_witness :
  exists parts vtx,
    split_coo isqrt_grid [(0, 0); (3, 1); (1, 2); (2, 2); (4, 4)] 5 2 0 4
      = Ok (parts, vtx)
    /\ length vtx = S (length parts)
    /\ last vtx 0 = 5
    /\ (forall i, (i < length parts)%nat ->
          nth i parts [] =
            map (rebase true (nth i vtx 0))
                (filter (in_interval true (nth i vtx 0) (nth (S i) vtx 0))
                        [(0, 0); (3, 1); (1, 2); (2, 2); (4, 4)]))
    /\ (forall e, In e [(0, 0); (3, 1); (1, 2); (2, 2); (4, 4)] ->
          exists i, (i < length parts)%nat
                    /\ nth i vtx 0 <= coord true e < nth (S i) vtx 0)
    /\ (forall c i j, (i < length parts)%nat -> (j < length parts)%nat ->
          nth i vtx 0 <= c < nth (S i) vtx 0 ->
          nth j vtx 0 <= c < nth (S j) vtx 0 -> i = j)
    /\ Permutation (reconstitute true vtx parts)
                   [(0, 0); (3, 1); (1, 2); (2, 2); (4, 4)].
Proof.
  apply (split_coo_partitions isqrt_grid
           [(0, 0); (3, 1); (1, 2); (2, 2); (4, 4)] 5 2 0 4 true).
  - reflexivity.
  - lia.
  - vm_compute. reflexivity.
  - lia.
  - intros e He. cbn in He.
    repeat (destruct He as [<- | He]; [cbn; lia |]). contradiction.
Defined.

(** C4, as stated for every split parameter, fails for a partition size of
    zero, which [twod_partition] passes on when there are fewer nodes than
    grid rows ([1 // 2 = 0]): [range] raises and no partition is produced,
    so the edge [(0, 0)] appears in none.  And where the split succeeds the
    partitions put back together list the edges partition by partition: the
    edges (3, 0), (0, 0) come back as (0, 0), (3, 0). *)
Lemma split_coo_zero_partition_size :
  py_floordiv 1 (isqrt_grid 4) = Ok 0
  /\ split_coo isqrt_grid [(0, 0)] 1 0 0 4 = Raise ValueError
  /\ split_coo isqrt_grid [(3, 0); (0, 0)] 4 2 0 4
     = Ok ([[(0, 0)]; [(1, 0)]], [0; 2; 4])
  /\ reconstitute true [0; 2; 4] [[(0, 0)]; [(1, 0)]] = [(0, 0); (3, 0)].
Proof. repeat split. Qed.

(* ================================================================== *)
(** * The backward pass *)

Lemma get_tabulate (r c : nat) (f : nat -> nat -> Z) (i j : nat) :
  (i < r)%nat -> (j < c)%nat -> get (tabulate r c f) i j = f i j.
Proof.
  intros Hi Hj. unfold get, tabulate. cbn [rows].
  rewrite (nth_map_seq (fun i => map (fun j => f i j) (seq 0 c))) by assumption.
  now rewrite (nth_map_seq (fun j => f i j)).
Qed.

Lemma sumZ_ext (n : nat) (f g : nat -> Z) :
  (forall k, (k < n)%nat -> f k = g k) -> sumZ n f = sumZ n g.
Proof.
  induction n as [| n IH]; intros H; cbn; [reflexivity |].
  rewrite IH by (intros; apply H; lia). now rewrite H by lia.
Qed.

Lemma mm_get (A B : tensor) :
  ncols A = nrows B ->
  exists C, mm A B = Ok C
            /\ nrows C = nrows A /\ ncols C = ncols B
            /\ forall i j, (i < nrows A)%nat -> (j < ncols B)%nat ->
                 get C i j = sumZ (ncols A) (fun k => get A i k * get B k j).
Proof.
  intros H. unfold mm. rewrite H, Nat.eqb_refl.
  eexists. split; [reflexivity |]. repeat split.
  intros i j Hi Hj. now rewrite get_tabulate.
Qed.

(** C2 (amended). With the saved tensors [H], [W], [A] of compatible shapes
    and an output gradient [G], [backward] returns
    [(A * G * W^T, H^T * A * G, None, None)]: the input gradient uses the
    saved adjacency itself, not its transpose.  Entry by entry,
    [grad_input[i][j] = sum_l (sum_k A[i][k] G[k][l]) W[j][l]] and
    [grad_weight[i][j] = sum_l (sum_k H[k][i] A[k][l]) G[l][j]]. *)
Theorem GCNFunc_backward_gradients (H W A G : tensor) :
  nrows G = ncols A ->
  ncols G = ncols W ->
  nrows H = nrows A ->
  exists grad_input grad_weight,
    GCNFunc_backward (save_for_backward H W A) G
      = Ok (Some grad_input, Some grad_weight, None, None)
    /\ nrows grad_input = nrows A /\ ncols grad_input = nrows W
    /\ nrows grad_weight = ncols H /\ ncols grad_weight = ncols G
    /\ (forall i j, (i < nrows A)%nat -> (j < nrows W)%nat ->
          get grad_input i j =
            sumZ (ncols G) (fun l =>
              sumZ (ncols A) (fun k => get A i k * get G k l) * get W j l))
    /\ (forall i j, (i < ncols H)%nat -> (j < ncols G)%nat ->
          get grad_weight i j =
            sumZ (ncols A) (fun l =>
              sumZ (nrows H) (fun k => get H k i * get A k l) * get G l j)).
Proof.
  intros HG HW HH. unfold GCNFunc_backward, save_for_backward. cbn [saved_tensors].
  destruct (mm_get A G (eq_sym HG)) as (ag & Eag & Rag & Cag & Gag).
  rewrite Eag. cbn [bind].
  destruct (mm_get ag (transpose W)) as (gi & Egi & Rgi & Cgi & Ggi).
  { rewrite Cag. cbn. exact HW. }
  rewrite Egi. cbn [bind].
  destruct (mm_get (transpose H) A) as (ha & Eha & Rha & Cha & Gha).
  { cbn. exact HH. }
  rewrite Eha. cbn [bind].
  destruct (mm_get ha G) as (gw & Egw & Rgw & Cgw & Ggw).
  { rewrite Cha. now symmetry. }
  rewrite Egw. cbn [bind].
  exists gi, gw. split; [reflexivity |].
  cbn [transpose tabulate nrows ncols] in *.
  repeat split; try congruence.
  - intros i j Hi Hj. rewrite Ggi by (cbn; lia).
    rewrite Cag. apply sumZ_ext. intros l Hl.
    rewrite Gag by lia. f_equal.
    change (get (tabulate (ncols W) (nrows W) (fun i0 j0 => get W j0 i0)) l j
            = get W j l).
    rewrite get_tabulate by lia. reflexivity.
  - intros i j Hi Hj. rewrite Ggw by (cbn; lia).
    rewrite Cha. apply sumZ_ext. intros l Hl.
    rewrite Gha by (cbn; lia). cbn [ncols]. f_equal.
    apply sumZ_ext. intros k Hk. f_equal.
    change (get (tabulate (ncols H) (nrows H) (fun i0 j0 => get H j0 i0)) i k
            = get H k i).
    rewrite get_tabulate by lia. reflexivity.
Qed.

Lemma GCNFunc_backward_gradients_witness :
  exists grad_input grad_weight,
    GCNFunc_backward (save_for_backward ex_H ex_W ex_A) ex_G
      = Ok (Some grad_input, Some grad_weight, None, None)
    /\ nrows grad_input = nrows ex_A /\ ncols grad_input = nrows ex_W
    /\ nrows grad_weight = ncols ex_H /\ ncols grad_weight = ncols ex_G
    /\ (forall i j, (i < nrows ex_A)%nat -> (j < nrows ex_W)%nat ->
          get grad_input i j =
            sumZ (ncols ex_G) (fun l =>
              sumZ (ncols ex_A) (fun k => get ex_A i k * get ex_G k l)
              * get ex_W j l))
    /\ (forall i j, (i < ncols ex_H)%nat -> (j < ncols ex_G)%nat ->
          get grad_weight i j =
            sumZ (ncols ex_A) (fun l =>
              sumZ (nrows ex_H) (fun k => get ex_H k i * get ex_A k l)
              * get ex_G l j)).
Proof.
  apply (GCNFunc_backward_gradients ex_H ex_W ex_A ex_G); reflexivity.
Defined.

(** C2, as stated, fails on a directed graph: for the edge 0 -> 1 the input
    gradient returned is [A * G * W^T = [[2]; [0]]], while the claimed
    [A^T * G * W^T] is [[0]; [1]]]. *)
Lemma backward_input_gradient_not_transposed :
  GCNFunc_backward (save_for_backward ex_H ex_W ex_A) ex_G
    = Ok (Some (of_rows [[2]; [0]]), Some (of_rows [[2]]), None, None)
  /\ (ag <- mm (transpose ex_A) ex_G ;; mm ag (transpose ex_W))
     = Ok (of_rows [[0]; [1]])
  /\ of_rows [[2]; [0]] <> of_rows [[0]; [1]].
Proof. repeat split. discriminate. Qed.

(* ================================================================== *)
(** * Transpose groups *)

(** A loop whose body returns [f a] and creates the groups [g a]. *)
Lemma forC_pure {A B} (l : list A) (body : A -> comm B)
    (f : A -> B) (g : A -> list group) :
  (forall a log, In a l -> body a log = Ok (f a, log ++ g a)) ->
  forall log, forC l body log = Ok (map f l, log ++ concat (map g l)).
Proof.
  induction l as [| a l IH]; intros Hb log; cbn.
  - unfold retC. now rewrite app_nil_r.
  - unfold bindC. rewrite Hb by now left.
    rewrite IH by (intros; apply Hb; now right).
    unfold retC. now rewrite <- app_assoc.
Qed.

(** In a square grid the test [local_rank < local_rank_t] is [i < j]. *)
Lemma square_rank_order (P i j : Z) :
  0 <= i < P -> 0 <= j < P ->
  (i * P + j <? j * P + i) = (i <? j).
Proof.
  intros Hi Hj. destruct (i <? j) eqn:E.
  - apply Z.ltb_lt. apply Z.ltb_lt in E. nia.
  - apply Z.ltb_ge. apply Z.ltb_ge in E. nia.
Qed.

Lemma transpose_groups_square (P : Z) (log : list group) :
  transpose_groups_table P P log =
    Ok (map (fun i => map (fun j => transpose_cell P i j) (py_range P))
            (py_range P),
        log ++ transpose_pairs P).
Proof.
  unfold transpose_groups_table, transpose_pairs.
  apply forC_pure. intros i log1 Hi. apply in_py_range in Hi.
  apply forC_pure. intros j log2 Hj. apply in_py_range in Hj.
  rewrite square_rank_order by assumption. unfold transpose_cell.
  destruct (i <? j); cbn.
  - reflexivity.
  - unfold retC. now rewrite app_nil_r.
Qed.

Lemma py_get_map_range {A} (F : Z -> A) (n i : Z) :
  0 <= i < n -> py_get (map F (py_range n)) i = Ok (F i).
Proof.
  intros H. rewrite (py_get_ok _ i (F 0)).
  - unfold py_range. rewrite map_map.
    rewrite (nth_map_seq (fun k => F (Z.of_nat k))) by lia.
    now rewrite Z2Nat.id by lia.
  - rewrite length_map, py_range_length. lia.
Qed.

(** C7 (amended). In a square grid [P x P] (ranks row-major) the table of
    transpose groups holds, at [(i, j)], the pair
    [[i * P + j; j * P + i]] when [i < j] and nothing otherwise, so one
    group per off-diagonal pair and none on the diagonal; a rank of the
    grid receives the [P] row groups, the [P] column groups and the
    transpose group of its pair.  For [size = 4] on the 2 x 2 grid these are
    the row groups [{0,1}], [{2,3}], the column groups [{0,2}], [{1,3}] and
    the single transpose group [{1,2}]. *)
Theorem get_proc_groups_square_grid (proc_row_size proc_col_size : Z -> Z)
    (size P rank : Z) (log : list group) :
  proc_row_size size = P ->
  proc_col_size size = P ->
  0 < P ->
  0 <= rank < P * P ->
  let rank_t := (rank mod P) * P + rank / P in
  let row_groups := map (fun i => py_range2 (i * P) (i * P + P)) (py_range P) in
  let col_groups := map (fun i => strided i size P) (py_range P) in
  let table := map (fun i => map (fun j => transpose_cell P i j) (py_range P))
                   (py_range P) in
  (forall log0,
     transpose_groups_table (proc_row_size size) (proc_col_size size) log0
       = Ok (table, log0 ++ transpose_pairs P))
  /\ (forall i j, 0 <= i < P -> 0 <= j < P ->
        (r <- py_get table i ;; py_get r j)
          = Ok (if i <? j then Some [i * P + j; j * P + i] else None))
  /\ get_proc_groups proc_row_size proc_col_size rank size log
       = Ok (Some (row_groups, col_groups,
                   if rank / P =? rank mod P then None
                   else Some [Z.min rank rank_t; Z.max rank rank_t]),
             log ++ row_groups ++ col_groups ++ transpose_pairs P)
  /\ (size = 4 -> P = 2 ->
        row_groups = [[0; 1]; [2; 3]]
        /\ col_groups = [[0; 2]; [1; 3]]
        /\ transpose_pairs P = [[1; 2]]).
Proof.
  intros Hrow Hcol HP Hrank rank_t row_groups col_groups table.
  assert (Hlook : forall i j, 0 <= i < P -> 0 <= j < P ->
            (r <- py_get table i ;; py_get r j) = Ok (transpose_cell P i j)).
  { intros i j Hi Hj. subst table.
    rewrite (py_get_map_range
               (fun i => map (fun j => transpose_cell P i j) (py_range P)))
      by assumption.
    cbn [bind]. now rewrite (py_get_map_range (fun j => transpose_cell P i j)). }
  pose proof (Z.div_mod rank P ltac:(lia)) as Edm.
  pose proof (Z.mod_pos_bound rank P HP) as Bm.
  assert (Bd : 0 <= rank / P < P).
  { split; [apply Z.div_pos; lia | apply Z.div_lt_upper_bound; lia]. }
  split; [| split; [| split]].
  - intros log0. rewrite Hrow, Hcol. apply transpose_groups_square.
  - intros i j Hi Hj. now rewrite Hlook.
  - unfold get_proc_groups. rewrite Hrow, Hcol.
    unfold int_truediv, py_mod.
    replace (P =? 0) with false by (symmetry; lia).
    rewrite Z.quot_div_nonneg by lia.
    unfold bindC at 1. unfold lift at 1.
    unfold bindC at 1. unfold lift at 1.
    unfold bindC at 1. rewrite row_groups_created.
    unfold bindC at 1. rewrite col_groups_created by lia.
    replace ((rank / P >=? P) || (rank mod P >=? P)) with false
      by (symmetry; rewrite !Z.geb_leb; apply orb_false_iff;
          split; apply Z.leb_gt; lia).
    unfold bindC at 1. rewrite transpose_groups_square.
    fold table. unfold bindC, lift, retC.
    assert (Eord : (rank <? rank mod P * P + rank / P) = (rank / P <? rank mod P)).
    { rewrite <- (square_rank_order P (rank / P) (rank mod P)) by lia.
      f_equal. lia. }
    assert (Eord' : (rank mod P * P + rank / P <? rank) = (rank mod P <? rank / P)).
    { rewrite <- (square_rank_order P (rank mod P) (rank / P)) by lia.
      f_equal. lia. }
    rewrite Eord. fold row_groups col_groups. subst rank_t.
    rewrite <- !app_assoc.
    destruct (rank / P <? rank mod P) eqn:E.
    + rewrite Hlook by lia. unfold transpose_cell. rewrite E.
      replace (rank / P =? rank mod P) with false by (symmetry; lia).
      apply Z.ltb_lt in Eord.
      rewrite Z.min_l, Z.max_r by lia.
      replace (rank / P * P + rank mod P) with rank by lia. reflexivity.
    + rewrite Hlook by lia. unfold transpose_cell.
      destruct (rank / P =? rank mod P) eqn:E'.
      * replace (rank mod P <? rank / P) with false by (symmetry; lia).
        reflexivity.
      * replace (rank mod P <? rank / P) with true in * by (symmetry; lia).
        apply Z.ltb_lt in Eord'.
        rewrite Z.min_r, Z.max_l by lia.
        replace (rank / P * P + rank mod P) with rank by lia. reflexivity.
  - intros -> ->. repeat split.
Qed.

(** Rank 1 of 4: grid position (0, 1), paired with rank 2. *)
Lemma get_proc_groups_square_grid_witness :
  get_proc_groups isqrt_grid isqrt_grid 1 4 []
    = Ok (Some ([[0; 1]; [2; 3]], [[0; 2]; [1; 3]], Some [1; 2]),
          [[0; 1]; [2; 3]; [0; 2]; [1; 3]; [1; 2]]).
Proof.
  destruct (get_proc_groups_square_grid isqrt_grid isqrt_grid 4 2 1 [])
    as (_ & _ & Hg & _).
  - reflexivity.
  - reflexivity.
  - lia.
  - lia.
  - exact Hg.
Defined.

(** C7, as stated for every grid, fails on a 3 x 5 grid: positions (1, 2)
    and (2, 1) are both valid and 1 < 2, yet [local_rank] and
    [local_rank_t] are both 7, no group is created for the pair, and rank 7
    (position (1, 2)) is handed no transpose group. *)
Lemma transpose_group_missing_3x5 :
  (exists table log,
     transpose_groups_table 3 5 [] = Ok (table, log)
     /\ (r <- py_get table 1 ;; py_get r 2) = Ok None
     /\ ~ In [1 * 5 + 2; 2 * 3 + 1] log)
  /\ exists rows cols log,
       get_proc_groups three_rows five_cols 7 15 []
         = Ok (Some (rows, cols, None), log).
Proof.
  split.
  - eexists. eexists. split; [vm_compute; reflexivity |].
    split; [reflexivity |].
    cbn. intros H. repeat (destruct H as [H | H]; [discriminate H |]).
    contradiction.
  - eexists. eexists. eexists. vm_compute. reflexivity.
Qed.

(* ================================================================== *)
(** * The ring multiplier on three ranks *)

(** C1 (divergence). On three ranks the ring does not compute the
    row-block product.  With adjacency rows [1 2 3], [4 5 6], [7 8 9] and
    feature blocks 1, 10, 100 the specification asks for 321, 654 and 987;
    [blockRow] returns 501, 456 and 1770: in iteration [i] a rank multiplies
    partition [(rank + i) mod 3] with the block that came from rank
    [rank - i], and from the second exchange on every rank other than 0
    forwards the block it has just received, since [inputs] and
    [inputs_recv] then name one tensor. *)
Theorem blockRow_three_ranks_diverge :
  blockRow ring3_locals ring_weight
    = Finished [of_rows [[501]]; of_rows [[456]]; of_rows [[1770]]]
  /\ map (blockRow_spec ring3_locals ring_weight) [0; 1; 2]%nat
     = [Ok (of_rows [[321]]); Ok (of_rows [[654]]); Ok (of_rows [[987]])].
Proof. split; vm_compute; reflexivity. Qed.

(* ================================================================== *)
(** * Degree-zero vertices *)

Lemma nth_error_map_some {A B} (f : A -> B) (l : list A) (i : nat) (a : A) :
  nth_error l i = Some a -> nth_error (map f l) i = Some (f a).
Proof. intros H. now rewrite nth_error_map, H. Qed.

Lemma pow_neg_half_zero (x : float) :
  PrimFloat.eqb x PrimFloat.zero = true -> pow_neg_half x = PrimFloat.infinity.
Proof. intros H. unfold pow_neg_half. now rewrite H. Qed.

(** X3. In [norm] a vertex of degree zero gets the scale factor 0. *)
Lemma norm_zero_degree_clamped (edge_weight : list float) (row : list Z)
    (num_nodes : Z) (deg : list float) (v : nat) (x : float) :
  scatter_add edge_weight row num_nodes = Ok deg ->
  nth_error deg v = Some x ->
  PrimFloat.eqb x PrimFloat.zero = true ->
  exists s, norm_deg_inv_sqrt edge_weight row num_nodes = Ok s
            /\ nth_error s v = Some PrimFloat.zero.
Proof.
  intros Hdeg Hv Hx. unfold norm_deg_inv_sqrt. rewrite Hdeg. cbn [bind].
  eexists. split; [reflexivity |].
  unfold clamp_inf. rewrite map_map.
  rewrite (nth_error_map_some _ _ _ _ Hv).
  now rewrite (pow_neg_half_zero x Hx).
Qed.

(** X4. In [scale_elements] a vertex of degree zero gets the scale factor
    [+inf]: the histogram is raised to [-0.5] and used as it is. *)
Lemma degree_scale_zero_degree_infinite (adj_matrix : list edge)
    (node_count : Z) (deg : list float) (v : nat) (x : float) :
  histc (map fst adj_matrix) node_count = Ok deg ->
  nth_error deg v = Some x ->
  PrimFloat.eqb x PrimFloat.zero = true ->
  exists s, degree_scale adj_matrix node_count = Ok s
            /\ nth_error s v = Some PrimFloat.infinity.
Proof.
  intros Hdeg Hv Hx. unfold degree_scale. rewrite Hdeg. cbn [bind].
  eexists. split; [reflexivity |].
  rewrite (nth_error_map_some _ _ _ _ Hv).
  now rewrite (pow_neg_half_zero x Hx).
Qed.

(** C3, as stated for both normalizers, fails for [scale_elements]: for
    the graph 0 -> 1 <- 2, in which node 1 has degree 0, it computes the
    scale factors [1, +inf, 1] and scales both edges into node 1 to
    [+inf]; the clamp of [norm], applied to the same degrees [1, 0, 1],
    gives [1, 0, 1]. *)
Theorem scale_elements_zero_degree_diverges :
  degree_scale sink_graph 3
    = Ok [PrimFloat.one; PrimFloat.infinity; PrimFloat.one]
  /\ scale_elements sink_graph sink_block 3 0 0 true
     = Ok (mkSparse 3 3 [(0, 1, PrimFloat.infinity); (2, 1, PrimFloat.infinity)])
  /\ norm_deg_inv_sqrt [PrimFloat.one; PrimFloat.one] (map fst sink_graph) 3
     = Ok [PrimFloat.one; PrimFloat.zero; PrimFloat.one].
Proof. repeat split; vm_compute; reflexivity. Qed.

(* ================================================================== *)
(** * Totality of the normalizer on a block inside the graph *)

Lemma mapM_total {A B} (f : A -> result B) (l : list A) :
  (forall a, In a l -> exists b, f a = Ok b) ->
  exists l', mapM f l = Ok l'.
Proof.
  induction l as [| a l IH]; intros H; cbn.
  - now eexists.
  - destruct (H a ltac:(now left)) as [b ->]. cbn.
    destruct IH as [l' ->]; [intros; apply H; now right |].
    cbn. now eexists.
Qed.

Lemma mapM_nth_error {A B} (f : A -> result B) (l : list A) (l' : list B)
    (i : nat) (a : A) :
  mapM f l = Ok l' -> nth_error l i = Some a ->
  exists b, f a = Ok b /\ nth_error l' i = Some b.
Proof.
  revert l' i. induction l as [| x l IH]; intros l' i Hm Hn.
  - destruct i; discriminate.
  - cbn in Hm. destruct (f x) as [b |] eqn:Ex; [| discriminate]. cbn in Hm.
    destruct (mapM f l) as [bs |] eqn:Em; [| discriminate]. cbn in Hm.
    injection Hm as <-. destruct i as [| i]; cbn in *.
    + injection Hn as <-. now exists b.
    + now apply IH.
Qed.

Lemma insert_entry_bounds (r c : Z) (e : entry) (l : list entry) :
  in_bounds r c e = true -> forallb (in_bounds r c) l = true ->
  forallb (in_bounds r c) (insert_entry e l) = true.
Proof.
  intros He. induction l as [| e' l IH]; intros Hl; cbn.
  - now rewrite He.
  - destruct e as [[i j] v], e' as [[i' j'] v'].
    cbn in Hl. apply andb_true_iff in Hl as [H1 H2].
    destruct (key_eqb i j i' j'); [| destruct (key_ltb i j i' j')]; cbn.
    + cbn in H1. now rewrite H1, H2.
    + cbn in He, H1. now rewrite He, H1, H2.
    + cbn in H1. rewrite H1. now apply IH.
Qed.

Lemma coalesce_entries_bounds (r c : Z) (l : list entry) :
  forallb (in_bounds r c) l = true ->
  forallb (in_bounds r c) (coalesce_entries l) = true.
Proof.
  unfold coalesce_entries.
  assert (G : forall acc, forallb (in_bounds r c) acc = true ->
              forallb (in_bounds r c) l = true ->
              forallb (in_bounds r c)
                (fold_left (fun acc e => insert_entry e acc) l acc) = true).
  { induction l as [| e l IH]; intros acc Ha Hl; cbn; [assumption |].
    cbn in Hl. apply andb_true_iff in Hl as [H1 H2].
    apply IH; [now apply insert_entry_bounds | assumption]. }
  intros H. now apply G.
Qed.

(** The product takes its rows from the left factor and its columns from
    the right one. *)
Lemma spspmm_bounds (r k k' c : Z) (A B : list entry) :
  forallb (in_bounds r k) A = true ->
  forallb (in_bounds k' c) B = true ->
  forallb (in_bounds r c) (spspmm A B) = true.
Proof.
  intros HA HB. unfold spspmm. apply coalesce_entries_bounds.
  apply forallb_forall. intros [[i j] v] Hin.
  apply in_flat_map in Hin as ([[i1 k1] a] & HinA & Hin).
  apply in_flat_map in Hin as ([[k2 j2] b] & HinB & Hin).
  destruct (k1 =? k2); [| contradiction].
  destruct Hin as [[= <- <- <-] | []].
  rewrite forallb_forall in HA, HB.
  specialize (HA _ HinA). specialize (HB _ HinB).
  unfold in_bounds in *. lia.
Qed.

Lemma diag_indices_length (n : Z) : length (diag_indices n) = Z.to_nat n.
Proof. unfold diag_indices. now rewrite length_map, py_range_length. Qed.

Lemma py_slice_length {A} (l : list A) (a h : Z) :
  0 <= a -> 0 <= h -> a + h <= Z.of_nat (length l) ->
  length (py_slice l a (a + h)) = Z.to_nat h.
Proof.
  intros Ha Hh Hl. unfold py_slice.
  replace (a <? 0) with false by (symmetry; lia).
  replace (a + h <? 0) with false by (symmetry; lia).
  rewrite length_firstn, length_skipn. lia.
Qed.

Lemma diag_entries_bounds (n : Z) (values : list float) :
  forallb (in_bounds n n) (combine (diag_indices n) values) = true.
Proof.
  apply forallb_forall. intros [[i j] v] Hin.
  apply in_combine_l in Hin. unfold diag_indices in Hin.
  apply in_map_iff in Hin as (k & [= <- <-] & Hk). apply in_py_range in Hk.
  unfold in_bounds. lia.
Qed.

Lemma diag_tensor_ok (n : Z) (values : list float) :
  0 <= n -> length values = Z.to_nat n ->
  sparse_coo_tensor (diag_indices n) values n n
    = Ok (mkSparse n n (combine (diag_indices n) values)).
Proof.
  intros Hn Hl. unfold sparse_coo_tensor.
  replace ((n <? 0) || (n <? 0)) with false by (symmetry; lia).
  rewrite diag_indices_length, Hl, Nat.eqb_refl. cbn [negb].
  now rewrite diag_entries_bounds.
Qed.

Lemma histc_length (x : list Z) (bins : Z) :
  0 < bins -> exists deg, histc x bins = Ok deg /\ length deg = Z.to_nat bins.
Proof.
  intros H. unfold histc. replace (bins <=? 0) with false by (symmetry; lia).
  destruct (if _ =? _ then _ else _) as [lo hi].
  eexists. split; [reflexivity |].
  now rewrite length_map, py_range_length.
Qed.

Lemma combine_fst_snd {A B} (l : list (A * B)) :
  combine (map fst l) (map snd l) = l.
Proof. induction l as [| [a b] l IH]; cbn; [reflexivity | now rewrite IH]. Qed.

(** [scale_elements] succeeds on a block whose entries lie inside its size
    and whose row and column ranges lie inside the graph. *)
Lemma scale_elements_total (adj_matrix : list edge) (block : sparse)
    (node_count row_vtx col_vtx : Z) (normalization : bool) :
  0 < node_count ->
  forallb (in_bounds (sp_nrows block) (sp_ncols block)) (sp_entries block) = true ->
  0 <= sp_nrows block -> 0 <= sp_ncols block ->
  0 <= row_vtx -> row_vtx + sp_nrows block <= node_count ->
  0 <= col_vtx -> col_vtx + sp_ncols block <= node_count ->
  exists scaled,
    scale_elements adj_matrix block node_count row_vtx col_vtx normalization
      = Ok scaled.
Proof.
  intros HN Hb Hr Hc Hrv Hrv' Hcv Hcv'. unfold scale_elements.
  destruct normalization; cbn [negb]; [| now eexists].
  unfold degree_scale.
  destruct (histc_length (map fst adj_matrix) node_count HN) as (deg & -> & Hdeg).
  cbn [bind coalesce sp_nrows sp_ncols sp_entries].
  rewrite diag_tensor_ok
    by (try apply py_slice_length; rewrite ?length_map; lia).
  cbn [bind].
  rewrite diag_tensor_ok
    by (try apply py_slice_length; rewrite ?length_map; lia).
  cbn [bind sp_entries].
  unfold sparse_coo_tensor.
  replace ((sp_nrows block <? 0) || (sp_ncols block <? 0)) with false
    by (symmetry; lia).
  rewrite !length_map, Nat.eqb_refl. cbn [negb].
  rewrite combine_fst_snd.
  rewrite (spspmm_bounds (sp_nrows block) (sp_nrows block)
             (sp_nrows block) (sp_ncols block)); [now eexists | |].
  - apply diag_entries_bounds.
  - apply (spspmm_bounds _ (sp_ncols block) (sp_ncols block)).
    + now apply coalesce_entries_bounds.
    + apply diag_entries_bounds.
Qed.

(* ================================================================== *)
(** * The feature tiles *)

Lemma sum_app (l1 l2 : list Z) :
  fold_right Z.add 0 (l1 ++ l2) = fold_right Z.add 0 l1 + fold_right Z.add 0 l2.
Proof. induction l1 as [| a l1 IH]; cbn; [reflexivity | rewrite IH; lia]. Qed.

Lemma sum_const (c : Z) (l : list Z) :
  fold_right Z.add 0 (map (fun _ => c) l) = c * Z.of_nat (length l).
Proof. induction l as [| a l IH]; cbn [map fold_right length]; [lia | rewrite IH; lia]. Qed.

(** The chunk sizes are non-negative, one per part, and add up. *)
Lemma chunk_sizes_ok (total parts : Z) :
  0 <= total -> 1 <= parts ->
  forallb (fun s => 0 <=? s) (chunk_sizes total parts) = true
  /\ fold_right Z.add 0 (chunk_sizes total parts) = total
  /\ length (chunk_sizes total parts) = Z.to_nat parts.
Proof.
  intros Ht Hp. unfold chunk_sizes.
  assert (Hper : 0 <= total / parts) by (apply Z.div_pos; lia).
  assert (Hle : parts * (total / parts) <= total) by (apply Z.mul_div_le; lia).
  repeat split.
  - apply forallb_forall. intros s Hs. apply in_map_iff in Hs as (i & <- & Hi).
    destruct (i =? parts - 1); apply Z.leb_le; nia.
  - assert (E : py_range parts = py_range (parts - 1) ++ [parts - 1])
      by (rewrite <- py_range_succ by lia; f_equal; lia).
    rewrite E, map_app, sum_app. cbn [map fold_right].
    rewrite Z.eqb_refl.
    rewrite (map_ext_in _ (fun _ => total / parts)).
    + rewrite sum_const, py_range_length. nia.
    + intros i Hi. apply in_py_range in Hi.
      now replace (i =? parts - 1) with false by (symmetry; lia).
  - now rewrite length_map, py_range_length.
Qed.

Lemma blocks_of_sizes_length (offset : nat) (sizes : list Z) :
  length (blocks_of_sizes offset sizes) = length sizes.
Proof.
  revert offset. induction sizes as [| s sizes IH]; intros offset; cbn;
    [reflexivity | now rewrite IH].
Qed.

(** The feature matrix splits into [parts_r] row blocks of [parts_c] tiles. *)
Lemma feature_tiles_ok (inputs0 : tensor) (parts_r parts_c rr rc : Z) :
  1 <= parts_r -> 1 <= parts_c ->
  0 <= rr < parts_r -> 0 <= rc < parts_c ->
  exists rowparts tiles_of tiles tile,
    split_rows_sizes inputs0 (chunk_sizes (Z.of_nat (nrows inputs0)) parts_r)
      = Ok rowparts
    /\ mapM (fun p => split_cols_sizes p
                        (chunk_sizes (Z.of_nat (ncols inputs0)) parts_c))
            rowparts = Ok tiles_of
    /\ py_get tiles_of rr = Ok tiles
    /\ py_get tiles rc = Ok tile.
Proof.
  intros Hpr Hpc Hrr Hrc.
  destruct (chunk_sizes_ok (Z.of_nat (nrows inputs0)) parts_r) as (Hr1 & Hr2 & Hr3);
    [lia | lia |].
  destruct (chunk_sizes_ok (Z.of_nat (ncols inputs0)) parts_c) as (Hc1 & Hc2 & Hc3);
    [lia | lia |].
  unfold split_rows_sizes. rewrite Hr1, Hr2, Z.eqb_refl. cbn [andb].
  set (rowparts := map _ (blocks_of_sizes 0 _)).
  assert (Hlen : length rowparts = Z.to_nat parts_r).
  { subst rowparts. now rewrite length_map, blocks_of_sizes_length. }
  assert (Hcols : forall p, In p rowparts ->
            split_cols_sizes p (chunk_sizes (Z.of_nat (ncols inputs0)) parts_c)
            = Ok (map (fun '(c0, w) => col_block p c0 w)
                      (blocks_of_sizes 0
                         (chunk_sizes (Z.of_nat (ncols inputs0)) parts_c)))).
  { intros p Hp. subst rowparts. apply in_map_iff in Hp as ([r0 h] & <- & _).
    unfold split_cols_sizes, row_block. cbn [tabulate ncols].
    now rewrite Hc1, Hc2, Z.eqb_refl. }
  destruct (mapM_total
              (fun p => split_cols_sizes p
                          (chunk_sizes (Z.of_nat (ncols inputs0)) parts_c))
              rowparts) as [tiles_of Htiles].
  { intros p Hp. rewrite (Hcols p Hp). now eexists. }
  destruct (nth_error rowparts (Z.to_nat rr)) as [p |] eqn:Ep.
  2:{ apply nth_error_None in Ep. lia. }
  destruct (mapM_nth_error _ _ _ _ _ Htiles Ep) as (tiles & Htl & Hnth).
  rewrite (Hcols p (nth_error_In _ _ Ep)) in Htl. injection Htl as <-.
  exists rowparts, tiles_of. eexists. eexists.
  split; [reflexivity |]. split; [exact Htiles |]. split.
  - rewrite <- (Z2Nat.id rr) by lia. apply py_get_nth. exact Hnth.
  - apply (py_get_ok _ rc (zeros 0 0)).
    rewrite length_map, blocks_of_sizes_length, Hc3. lia.
Qed.

(* ================================================================== *)
(** * The 2D partition assembler *)

Lemma vtx_boundaries_exact (N P : Z) :
  1 <= P <= N ->
  vtx_boundaries N (N / P) P =
    Ok (map (fun k => Z.of_nat k * (N / P)) (seq 0 (Z.to_nat P)) ++ [N]).
Proof.
  intros H.
  assert (Hn : 0 < N / P) by (apply Z.div_str_pos; lia).
  pose proof (range_count_bounds N (N / P) Hn) as [Hc _].
  specialize (Hc ltac:(lia)). cbv zeta in Hc.
  assert (Hle : N / P * P <= N)
    by (rewrite Z.mul_comm; apply Z.mul_div_le; lia).
  assert (Hm : Nat.min (Z.to_nat P)
                 (Z.to_nat ((N - 0 + N / P - 1) / (N / P))) = Z.to_nat P) by nia.
  rewrite vtx_boundaries_eq by lia. now rewrite Hm.
Qed.

(** The boundaries of [P] blocks of [N / P] vertices, the last one longer. *)
Lemma boundaries_facts (N P : Z) (i : nat) :
  1 <= P <= N ->
  (i < Z.to_nat P)%nat ->
  let v := fun k => nth k (map (fun k => Z.of_nat k * (N / P))
                               (seq 0 (Z.to_nat P)) ++ [N]) 0 in
  0 <= v i /\ v i < v (S i) /\ v (S i) <= N
  /\ (Z.of_nat i <> P - 1 -> v (S i) - v i = N / P).
Proof.
  intros H Hi v. subst v. cbv beta.
  assert (Hn : 0 < N / P) by (apply Z.div_str_pos; lia).
  assert (Hle : N / P * P <= N)
    by (rewrite Z.mul_comm; apply Z.mul_div_le; lia).
  rewrite !nth_boundaries.
  replace (i <? Z.to_nat P)%nat with true by (symmetry; apply Nat.ltb_lt; lia).
  destruct (Nat.ltb_spec (S i) (Z.to_nat P)).
  - repeat split; nia.
  - replace (S i =? Z.to_nat P)%nat with true by (symmetry; apply Nat.eqb_eq; lia).
    repeat split; nia.
Qed.

Lemma combine_map_map {A B C} (f : A -> B) (g : A -> C) (l : list A) :
  combine (map f l) (map g l) = map (fun a => (f a, g a)) l.
Proof. induction l as [| a l IH]; cbn; [reflexivity | now rewrite IH]. Qed.

Lemma rebased_in_bounds (lo hi N c : Z) :
  0 <= lo -> hi <= N -> N <= 2 ^ 63 -> lo <= c < hi ->
  0 <= wrap64 (c - lo) < hi - lo.
Proof. intros. rewrite wrap64_small by lia. lia. Qed.

(** An edge of the row piece [k] of the column block [rc] lies inside the
    size the assembler gives to the sparse block. *)
Lemma piece_in_bounds (adj : list edge) (N : Z) (v : nat -> Z) (k rc : nat)
    (e : edge) :
  N <= 2 ^ 63 ->
  0 <= v k -> v (S k) <= N -> 0 <= v rc -> v (S rc) <= N ->
  In e (map (rebase true (v k))
         (filter (in_interval true (v k) (v (S k)))
            (map (rebase false (v rc))
               (filter (in_interval false (v rc) (v (S rc))) adj)))) ->
  0 <= fst e < v (S k) - v k /\ 0 <= snd e < v (S rc) - v rc.
Proof.
  intros HN Hk Hk' Hrc Hrc' Hin.
  apply in_map_iff in Hin as (e1 & <- & Hin).
  apply filter_In in Hin as (Hin & Hrow).
  apply in_map_iff in Hin as (e0 & <- & Hin).
  apply filter_In in Hin as (_ & Hcol).
  destruct e0 as [r c]. unfold in_interval in *. cbn in *.
  split; apply (rebased_in_bounds _ _ N); lia.
Qed.

Lemma unit_block_ok (piece : list edge) (h w : Z) :
  0 <= h -> 0 <= w ->
  (forall e, In e piece -> 0 <= fst e < h /\ 0 <= snd e < w) ->
  sparse_coo_tensor piece (map (fun _ => PrimFloat.one) piece) h w
    = Ok (mkSparse h w (combine piece (map (fun _ => PrimFloat.one) piece))).
Proof.
  intros Hh Hw Hin. unfold sparse_coo_tensor.
  replace ((h <? 0) || (w <? 0)) with false by (symmetry; lia).
  rewrite length_map, Nat.eqb_refl. cbn [negb].
  replace (forallb _ _) with true; [reflexivity |].
  symmetry. apply forallb_forall. intros [[i j] x] He.
  apply in_combine_l in He. specialize (Hin _ He). cbn in Hin.
  unfold in_bounds. lia.
Qed.

Lemma nth_error_map_seq {A} (f : nat -> A) (m i : nat) :
  (i < m)%nat -> nth_error (map f (seq 0 m)) i = Some (f i).
Proof.
  intros H. rewrite nth_error_map, nth_error_seq.
  replace (i <? m)%nat with true by (symmetry; apply Nat.ltb_lt; lia).
  reflexivity.
Qed.

Lemma py_get_boundary (vtx : list Z) (i : nat) (off : Z) :
  (off = 0 \/ off = 1) -> (i + Z.to_nat off < length vtx)%nat ->
  py_get vtx (Z.of_nat i + off) = Ok (nth (i + Z.to_nat off) vtx 0).
Proof.
  intros Hoff Hlt. rewrite (py_get_ok vtx _ 0) by lia.
  f_equal. f_equal. lia.
Qed.

(** Lines 193-208 on row piece [k] of column block [rc]: the piece becomes
    a sparse block of the size of its two vertex ranges and is scaled. *)
Lemma assemble_piece_ok (adj : list edge) (N P : Z) (rc k : nat)
    (normalize : bool) :
  1 <= P <= N -> N <= 2 ^ 63 ->
  (k < Z.to_nat P)%nat -> (rc < Z.to_nat P)%nat ->
  let vtx := map (fun k => Z.of_nat k * (N / P)) (seq 0 (Z.to_nat P)) ++ [N] in
  let v := fun k => nth k vtx 0 in
  let piece :=
    map (rebase true (v k))
      (filter (in_interval true (v k) (v (S k)))
         (map (rebase false (v rc))
            (filter (in_interval false (v rc) (v (S rc))) adj))) in
  let block := mkSparse (v (S k) - v k) (v (S rc) - v rc)
                 (combine piece (map (fun _ => PrimFloat.one) piece)) in
  exists scaled,
    sparse_coo_tensor piece (map (fun _ => PrimFloat.one) piece)
      (v (S k) - v k) (v (S rc) - v rc) = Ok block
    /\ scale_elements adj block N (v k) (v rc) normalize = Ok scaled
    /\ assemble_piece adj N (N / P) P (Z.of_nat rc) (v (S rc) - v rc) vtx
         normalize (Z.of_nat k, piece) = Ok scaled.
Proof.
  intros HP HN Hk Hrc vtx v piece block.
  destruct (boundaries_facts N P k HP Hk) as (Hk0 & Hk1 & Hk2 & Hk3).
  destruct (boundaries_facts N P rc HP Hrc) as (Hc0 & Hc1 & Hc2 & _).
  fold vtx in Hk0, Hk1, Hk2, Hk3, Hc0, Hc1, Hc2.
  change (0 <= v k) in Hk0. change (v k < v (S k)) in Hk1.
  change (v (S k) <= N) in Hk2.
  change (Z.of_nat k <> P - 1 -> v (S k) - v k = N / P) in Hk3.
  change (0 <= v rc) in Hc0. change (v rc < v (S rc)) in Hc1.
  change (v (S rc) <= N) in Hc2.
  assert (Hblock : sparse_coo_tensor piece (map (fun _ => PrimFloat.one) piece)
                     (v (S k) - v k) (v (S rc) - v rc) = Ok block).
  { apply unit_block_ok; [lia | lia |].
    intros e He. apply (piece_in_bounds adj N v k rc e); assumption. }
  destruct (scale_elements_total adj block N (v k) (v rc) normalize)
    as [scaled Hscaled]; cbn [block sp_nrows sp_ncols sp_entries]; try lia.
  { unfold sparse_coo_tensor in Hblock.
    destruct ((v (S k) - v k <? 0) || (v (S rc) - v rc <? 0)); [discriminate |].
    destruct (negb _); [discriminate |].
    destruct (forallb _ _) eqn:E; [reflexivity | discriminate]. }
  exists scaled. split; [exact Hblock |]. split; [exact Hscaled |].
  assert (Hlen : length vtx = S (Z.to_nat P)).
  { subst vtx. rewrite length_app, length_map, length_seq. cbn. lia. }
  assert (G0 : py_get vtx (Z.of_nat k) = Ok (v k)).
  { rewrite <- (Z.add_0_r (Z.of_nat k)). rewrite py_get_boundary by (cbn; lia).
    subst v. cbn. now rewrite Nat.add_0_r. }
  assert (G1 : py_get vtx (Z.of_nat k + 1) = Ok (v (S k))).
  { rewrite py_get_boundary by (cbn; lia). subst v. cbn.
    now replace (k + Pos.to_nat 1)%nat with (S k) by lia. }
  assert (G2 : py_get vtx (Z.of_nat rc) = Ok (v rc)).
  { rewrite <- (Z.add_0_r (Z.of_nat rc)). rewrite py_get_boundary by (cbn; lia).
    subst v. cbn. now rewrite Nat.add_0_r. }
  unfold assemble_piece.
  destruct (Z.of_nat k =? P - 1) eqn:E.
  - rewrite G1. cbn [bind]. rewrite G0. cbn [bind]. rewrite Hblock. cbn [bind].
    rewrite G2. cbn [bind]. exact Hscaled.
  - rewrite <- Hk3 by lia. rewrite Hblock. cbn [bind].
    rewrite G0. cbn [bind]. rewrite G2. cbn [bind]. exact Hscaled.
Qed.

(** C5 (amended). Let [P_row <= N] and let the rank's coordinates satisfy
    [rank_row < P_row] and [rank_col < P_row] (every rank of a square grid).
    [twod_partition] column-splits the global adjacency into [P_row] blocks
    (the splitter cuts both dimensions by [P_row]), takes block [rank_col],
    row-splits it into [P_row] pieces, turns each piece into a sparse block
    with unit values sized by its two vertex ranges and normalizes it with
    [scale_elements]; the local adjacency block it returns is the normalized
    piece [rank_row]. *)
Theorem twod_partition_adjacency_block (proc_row_size proc_col_size : Z -> Z)
    (rank size : Z) (inputs0 : tensor) (adj : list edge) (normalize : bool) :
  let N := Z.of_nat (nrows inputs0) in
  let P := proc_row_size size in
  let Pc := proc_col_size size in
  let rr := Z.to_nat (rank / Pc) in
  let rc := Z.to_nat (rank mod Pc) in
  1 <= P <= N -> 1 <= Pc -> N <= 2 ^ 63 ->
  0 <= rank -> rank / Pc < P -> rank mod Pc < P ->
  (forall e, In e adj -> 0 <= fst e < N /\ 0 <= snd e < N) ->
  exists col_parts vtx col_part row_parts vtx' piece block inputs_loc adj_loc,
    split_coo proc_row_size adj N (N / P) 1 size = Ok (col_parts, vtx)
    /\ length col_parts = Z.to_nat P
    /\ nth_error col_parts rc = Some col_part
    /\ split_coo proc_row_size col_part N (N / P) 0 size = Ok (row_parts, vtx')
    /\ length row_parts = Z.to_nat P
    /\ nth_error row_parts rr = Some piece
    /\ sparse_coo_tensor piece (map (fun _ => PrimFloat.one) piece)
         (nth (S rr) vtx 0 - nth rr vtx 0) (nth (S rc) vtx 0 - nth rc vtx 0)
       = Ok block
    /\ scale_elements adj block N (nth rr vtx 0) (nth rc vtx 0) normalize
       = Ok adj_loc
    /\ twod_partition proc_row_size proc_col_size rank size inputs0 adj normalize
       = Ok (inputs_loc, adj_loc).
Proof.
  intros N P Pc rr rc HP HPc HN Hrank Hrr Hrc Hadj.
  set (vtx := map (fun k => Z.of_nat k * (N / P)) (seq 0 (Z.to_nat P)) ++ [N]).
  set (v := fun k => nth k vtx 0).
  assert (Hv : vtx_boundaries N (N / P) (proc_row_size size) = Ok vtx)
    by (apply vtx_boundaries_exact; exact HP).
  assert (Hlen : (length vtx - 1)%nat = Z.to_nat P).
  { subst vtx. rewrite length_app, length_map, length_seq. cbn. lia. }
  set (G1 := fun i => map (rebase false (v i))
                          (filter (in_interval false (v i) (v (S i))) adj)).
  set (G2 := fun i => map (rebase true (v i))
                          (filter (in_interval true (v i) (v (S i))) (G1 rc))).
  assert (Hs1 : split_coo proc_row_size adj N (N / P) 1 size
                = Ok (map G1 (seq 0 (Z.to_nat P)), vtx)).
  { rewrite (split_coo_parts proc_row_size adj N (N / P) 1 size false vtx
               eq_refl Hv).
    now rewrite Hlen. }
  assert (Hs2 : split_coo proc_row_size (G1 rc) N (N / P) 0 size
                = Ok (map G2 (seq 0 (Z.to_nat P)), vtx)).
  { rewrite (split_coo_parts proc_row_size (G1 rc) N (N / P) 0 size true vtx
               eq_refl Hv).
    now rewrite Hlen. }
  assert (Bd : 0 <= rank / Pc) by (apply Z.div_pos; lia).
  pose proof (Z.mod_pos_bound rank Pc ltac:(lia)) as Bm.
  assert (Hrrn : (rr < Z.to_nat P)%nat) by (subst rr; lia).
  assert (Hrcn : (rc < Z.to_nat P)%nat) by (subst rc; lia).
  (* every row piece is assembled *)
  assert (Hpieces : forall k, (k < Z.to_nat P)%nat ->
            exists scaled,
              sparse_coo_tensor (G2 k) (map (fun _ => PrimFloat.one) (G2 k))
                (v (S k) - v k) (v (S rc) - v rc)
              = Ok (mkSparse (v (S k) - v k) (v (S rc) - v rc)
                      (combine (G2 k) (map (fun _ => PrimFloat.one) (G2 k))))
              /\ scale_elements adj
                   (mkSparse (v (S k) - v k) (v (S rc) - v rc)
                      (combine (G2 k) (map (fun _ => PrimFloat.one) (G2 k))))
                   N (v k) (v rc) normalize = Ok scaled
              /\ assemble_piece adj N (N / P) P (Z.of_nat rc)
                   (v (S rc) - v rc) vtx normalize (Z.of_nat k, G2 k)
                 = Ok scaled).
  { intros k Hk. exact (assemble_piece_ok adj N P rc k normalize HP HN Hk Hrcn). }
  set (work := map (fun k => (Z.of_nat k, G2 k)) (seq 0 (Z.to_nat P))).
  destruct (mapM_total
              (assemble_piece adj N (N / P) P (Z.of_nat rc) (v (S rc) - v rc)
                              vtx normalize) work) as [am_pbyp Ham].
  { intros [i p] Hin. subst work. apply in_map_iff in Hin as (k & [= <- <-] & Hk).
    apply in_seq in Hk. destruct (Hpieces k ltac:(lia)) as (s & _ & _ & Hs).
    now exists s. }
  destruct (Hpieces rr Hrrn) as (adj_loc & Hblock & Hscale & Hasm).
  assert (Hnth : nth_error work rr = Some (Z.of_nat rr, G2 rr)).
  { subst work. now rewrite (nth_error_map_seq (fun k => (Z.of_nat k, G2 k))). }
  destruct (mapM_nth_error _ _ _ _ _ Ham Hnth) as (b & Hb & Hloc).
  rewrite Hasm in Hb. injection Hb as <-.
  destruct (feature_tiles_ok inputs0 P Pc (rank / Pc) (rank mod Pc))
    as (rowparts & tiles_of & tiles & tile & Hf1 & Hf2 & Hf3 & Hf4); try lia.
  exists (map G1 (seq 0 (Z.to_nat P))), vtx, (G1 rc),
         (map G2 (seq 0 (Z.to_nat P))), vtx, (G2 rr).
  eexists. exists tile, adj_loc.
  split; [exact Hs1 |]. split; [now rewrite length_map, length_seq |].
  split; [now apply nth_error_map_seq |].
  split; [exact Hs2 |]. split; [now rewrite length_map, length_seq |].
  split; [now apply nth_error_map_seq |].
  split; [exact Hblock |]. split; [exact Hscale |].
  (* the run of [twod_partition] *)
  assert (Hlenv : length vtx = S (Z.to_nat P)).
  { subst vtx. rewrite length_app, length_map, length_seq. cbn. lia. }
  unfold twod_partition. fold N P Pc.
  unfold py_floordiv, int_truediv, py_mod.
  replace (P =? 0) with false by (symmetry; lia).
  replace (Pc =? 0) with false by (symmetry; lia).
  rewrite Z.quot_div_nonneg by lia.
  cbn [bind]. rewrite Hs1. cbn [bind].
  replace (rank mod Pc) with (Z.of_nat rc) by (subst rc; lia).
  rewrite (py_get_boundary vtx rc 1) by (cbn; lia). cbn [bind].
  rewrite <- (Z.add_0_r (Z.of_nat rc)).
  rewrite (py_get_boundary vtx rc 0) by (cbn; lia). cbn [bind].
  rewrite Z.add_0_r.
  rewrite (py_get_nth _ rc (G1 rc)) by now apply nth_error_map_seq.
  cbn [bind]. rewrite Hs2. cbn [bind].
  rewrite length_map, length_seq. unfold py_range at 1.
  rewrite Nat2Z.id, combine_map_map. fold work.
  replace (rc + Z.to_nat 1)%nat with (S rc) by lia.
  replace (rc + Z.to_nat 0)%nat with rc by lia.
  fold (v (S rc)) (v rc). rewrite Ham. cbn [bind].
  fold N in Hf1. rewrite Hf1. cbn [bind]. rewrite Hf2. cbn [bind].
  replace (rank / Pc) with (Z.of_nat rr) in * by (subst rr; lia).
  rewrite (py_get_nth _ rr adj_loc Hloc). cbn [bind].
  rewrite Hf3. cbn [bind].
  replace (Z.of_nat rc) with (rank mod Pc) by (subst rc; lia).
  rewrite Hf4. reflexivity.
Qed.

(** Rank 3 of the 2 x 2 grid, position (1, 1), on five nodes. *)
Lemma twod_partition_adjacency_block_witness :
  exists col_parts vtx col_part row_parts vtx' piece block inputs_loc adj_loc,
    split_coo isqrt_grid grid_edges 5 (5 / 2) 1 4 = Ok (col_parts, vtx)
    /\ length col_parts = 2%nat
    /\ nth_error col_parts 1 = Some col_part
    /\ split_coo isqrt_grid col_part 5 (5 / 2) 0 4 = Ok (row_parts, vtx')
    /\ length row_parts = 2%nat
    /\ nth_error row_parts 1 = Some piece
    /\ sparse_coo_tensor piece (map (fun _ => PrimFloat.one) piece)
         (nth 2 vtx 0 - nth 1 vtx 0) (nth 2 vtx 0 - nth 1 vtx 0)
       = Ok block
    /\ scale_elements grid_edges block 5 (nth 1 vtx 0) (nth 1 vtx 0) true
       = Ok adj_loc
    /\ twod_partition isqrt_grid isqrt_grid 3 4 grid_features grid_edges true
       = Ok (inputs_loc, adj_loc).
Proof.
  apply (twod_partition_adjacency_block isqrt_grid isqrt_grid 3 4
           grid_features grid_edges true).
  - vm_compute. split; discriminate.
  - vm_compute. discriminate.
  - vm_compute. discriminate.
  - lia.
  - vm_compute. reflexivity.
  - vm_compute. reflexivity.
  - intros e He. cbn in He.
    repeat (destruct He as [<- | He]; [cbn; lia |]). contradiction.
Defined.

(** C5, as stated for every [P_row x P_col] grid, fails on a 1 x 2 grid:
    the column split cuts by [P_row] and yields one block, not [P_col = 2],
    and rank 1 (position (0, 1)) finds no block [rank_col = 1]. *)
Lemma twod_partition_wide_grid :
  split_coo one_row [(0, 0)] 2 (2 / 1) 1 2 = Ok ([[(0, 0)]], [0; 2])
  /\ twod_partition one_row two_cols 1 2 (of_rows [[1; 2]; [3; 4]]) [(0, 0)] false
     = Raise IndexError.
Proof. split; reflexivity. Qed.

(* ================================================================== *)
(** * The ring multiplier on one and two ranks *)

Lemma tabulate_ext (r c : nat) (f g : nat -> nat -> Z) :
  (forall i j, (i < r)%nat -> (j < c)%nat -> f i j = g i j) ->
  tabulate r c f = tabulate r c g.
Proof.
  intros H. unfold tabulate. f_equal.
  apply map_ext_in. intros i Hi. apply in_seq in Hi.
  apply map_ext_in. intros j Hj. apply in_seq in Hj.
  apply H; lia.
Qed.

Lemma sumZ_split (n m : nat) (f : nat -> Z) :
  sumZ (n + m) f = sumZ n f + sumZ m (fun k => f (n + k)%nat).
Proof.
  induction m as [| m IH].
  - rewrite Nat.add_0_r. cbn. lia.
  - rewrite Nat.add_succ_r. cbn. rewrite IH. lia.
Qed.

Lemma mm_ok (A B : tensor) :
  ncols A = nrows B ->
  mm A B = Ok (tabulate (nrows A) (ncols B)
                 (fun i j => sumZ (ncols A) (fun k => get A i k * get B k j))).
Proof. intros H. unfold mm. now rewrite H, Nat.eqb_refl. Qed.

Lemma iadd_ok (z x : tensor) :
  nrows x = nrows z -> ncols x = ncols z ->
  iadd z x = Ok (tabulate (nrows z) (ncols z)
                   (fun i j => get z i j + get x i j)).
Proof. intros Hr Hc. unfold iadd. now rewrite Hr, Hc, !Nat.eqb_refl. Qed.

(** One accumulation step on tensors of matching shapes. *)
Lemma advance_accumulate (s : store) (part_id : Z) (part : tensor)
    (rest : list instr) :
  py_get (am_partitions s) part_id = Ok part ->
  ncols part = nrows (inputs s) ->
  nrows part = nrows (z_loc s) ->
  ncols (inputs s) = ncols (z_loc s) ->
  advance (Accumulate part_id :: rest) s =
    advance rest
      (set_z_loc s
         (tabulate (nrows (z_loc s)) (ncols (z_loc s))
            (fun i j => get (z_loc s) i j
                        + sumZ (ncols part)
                            (fun k => get part i k * get (inputs s) k j)))).
Proof.
  intros Hg H1 H2 H3. cbn [advance]. rewrite Hg. cbn [bind].
  rewrite (mm_ok _ _ H1). cbn [bind].
  rewrite iadd_ok by (cbn; assumption). cbn [bind].
  f_equal. f_equal. apply tabulate_ext. intros i j Hi Hj.
  rewrite get_tabulate by lia. reflexivity.
Qed.

Lemma split_cols_two (A : tensor) (n : nat) :
  (0 < n)%nat -> ncols A = (n + n)%nat ->
  split_cols A (Z.of_nat n) = Ok [col_block A 0 n; col_block A n n].
Proof.
  intros Hn Hc. unfold split_cols.
  replace (Z.of_nat n <? 0) with false by (symmetry; lia).
  replace (Z.of_nat n =? 0) with false by (symmetry; lia).
  rewrite Nat2Z.id, Hc.
  replace ((n + n + n - 1) / n)%nat with 2%nat.
  2:{ apply (Nat.div_unique _ _ _ (n - 1)); lia. }
  cbn [Nat.max seq map]. rewrite Nat.mul_0_l, Nat.mul_1_l.
  now rewrite Nat.sub_0_r, Nat.min_l, Nat.add_sub, Nat.min_id by lia.
Qed.

Lemma split_cols_one (A : tensor) (n : nat) :
  (0 < n)%nat -> ncols A = n ->
  split_cols A (Z.of_nat n) = Ok [col_block A 0 n].
Proof.
  intros Hn Hc. unfold split_cols.
  replace (Z.of_nat n <? 0) with false by (symmetry; lia).
  replace (Z.of_nat n =? 0) with false by (symmetry; lia).
  rewrite Nat2Z.id, Hc.
  replace ((n + n - 1) / n)%nat with 1%nat.
  2:{ apply (Nat.div_unique _ _ _ (n - 1)); lia. }
  cbn [Nat.max seq map]. rewrite Nat.mul_0_l.
  now rewrite Nat.sub_0_r, Nat.min_id.
Qed.

(** The rows of the stacked feature blocks. *)
Lemma get_vstack_two (f : nat) (H0 H1 : tensor) (k j : nat) :
  length (rows H0) = nrows H0 ->
  get (vstack f [H0; H1]) k j =
    if (k <? nrows H0)%nat then get H0 k j else get H1 (k - nrows H0) j.
Proof.
  intros Hl. unfold get, vstack. cbn [rows map concat]. rewrite app_nil_r.
  destruct (Nat.ltb_spec k (nrows H0)).
  - now rewrite app_nth1 by lia.
  - rewrite app_nth2 by lia. now rewrite Hl.
Qed.

Lemma get_vstack_one (f : nat) (H0 : tensor) (k j : nat) :
  get (vstack f [H0]) k j = get H0 k j.
Proof. unfold get, vstack. cbn [rows map concat]. now rewrite app_nil_r. Qed.

Lemma quot_double (n : nat) : Z.quot (Z.of_nat (n + n)) 2 = Z.of_nat n.
Proof.
  rewrite Z.quot_div_nonneg by lia. symmetry.
  apply (Z.div_unique _ _ _ 0); lia.
Qed.

Lemma blockRow_enter_two (A H W : tensor) (n : nat) :
  (0 < n)%nat -> ncols A = (n + n)%nat ->
  blockRow_enter A H W 2 =
    Ok (mkStore [col_block A 0 n; col_block A n n] W H
          (zeros (nrows H) (ncols H)) false (zeros n (ncols H))).
Proof.
  intros Hn Hc. unfold blockRow_enter, int_truediv. cbn [Z.eqb bind].
  rewrite Hc, quot_double. cbn [bind].
  rewrite (split_cols_two A n Hn Hc). cbn [bind].
  replace (Z.of_nat n <? 0) with false by (symmetry; lia).
  now rewrite Nat2Z.id.
Qed.

Lemma run_step (fuel : nat) (net net' : list process) (src dst : Z) :
  all_done net = false ->
  find_transfer net net 0 = Some (src, dst) ->
  transfer net src dst = Ok net' ->
  run (S fuel) net = run fuel net'.
Proof.
  intros H1 H2 H3. cbn [run]. rewrite H1, H2, H3.
  destruct fuel; reflexivity.
Qed.


Lemma transfer_0_1 (p0 p1 : process) :
  transfer [p0; p1] 0 1 =
    (r <- deliver (fst p1) (inputs (fst p0)) ;;
     s' <- advance (tl (snd p0)) (fst p0) ;;
     r' <- advance (tl (snd p1)) r ;;
     Ok [s'; r']).
Proof. reflexivity. Qed.

Lemma transfer_1_0 (p0 p1 : process) :
  transfer [p0; p1] 1 0 =
    (r <- deliver (fst p0) (inputs (fst p1)) ;;
     s' <- advance (tl (snd p1)) (fst p1) ;;
     r' <- advance (tl (snd p0)) r ;;
     Ok [r'; s']).
Proof. reflexivity. Qed.

Lemma deliver_ok (s : store) (msg : tensor) :
  nrows msg = nrows (inputs_recv s) -> ncols msg = ncols (inputs_recv s) ->
  deliver s msg =
    Ok (mkStore (am_partitions s) (weight s) (inputs_arg s) msg
                (inputs_is_recv s) (z_loc s)).
Proof. intros Hr Hc. unfold deliver. now rewrite Hr, Hc, !Nat.eqb_refl. Qed.

Lemma advance_mulweight (s : store) :
  ncols (z_loc s) = nrows (weight s) ->
  advance [MulWeight] s =
    Ok (set_z_loc s
          (tabulate (nrows (z_loc s)) (ncols (weight s))
             (fun i j => sumZ (ncols (z_loc s))
                           (fun k => get (z_loc s) i k * get (weight s) k j))),
        []).
Proof. intros H. cbn [advance]. now rewrite (mm_ok _ _ H). Qed.

Lemma ring_sum_two (A H0 H1 : tensor) (n f i j : nat) :
  nrows A = n -> nrows H0 = n -> length (rows H0) = n -> (i < n)%nat ->
  sumZ (n + n) (fun k => get A i k * get (vstack f [H0; H1]) k j) =
    sumZ n (fun k => get (col_block A 0 n) i k * get H0 k j)
    + sumZ n (fun k => get (col_block A n n) i k * get H1 k j).
Proof.
  intros HA HH Hl Hi. rewrite sumZ_split. f_equal.
  - apply sumZ_ext. intros k Hk. unfold col_block.
    rewrite get_tabulate by lia. rewrite get_vstack_two by lia.
    rewrite HH. now replace (k <? n)%nat with true
      by (symmetry; apply Nat.ltb_lt; lia).
  - apply sumZ_ext. intros k Hk. unfold col_block.
    rewrite get_tabulate by lia. rewrite get_vstack_two by lia.
    rewrite HH. replace (n + k <? n)%nat with false
      by (symmetry; apply Nat.ltb_ge; lia).
    now replace (n + k - n)%nat with k by lia.
Qed.

(** X1. On two ranks the ring computes the row-block product: each rank
    returns its adjacency row-block times the stacked feature blocks, times
    [W], and the exchange does not deadlock. *)
Theorem blockRow_two_ranks_correct (A0 A1 H0 H1 W : tensor) (n f : nat) :
  (0 < n)%nat ->
  nrows A0 = n -> ncols A0 = (n + n)%nat ->
  nrows A1 = n -> ncols A1 = (n + n)%nat ->
  nrows H0 = n -> ncols H0 = f -> length (rows H0) = n ->
  nrows H1 = n -> ncols H1 = f ->
  nrows W = f ->
  exists z0 z1,
    blockRow [(A0, H0); (A1, H1)] W = Finished [z0; z1]
    /\ blockRow_spec [(A0, H0); (A1, H1)] W 0 = Ok z0
    /\ blockRow_spec [(A0, H0); (A1, H1)] W 1 = Ok z1.
Proof.
  intros Hn HA0r HA0c HA1r HA1c HH0r HH0c HH0l HH1r HH1c HW.
  unfold blockRow. cbn [length combine Z.of_nat Pos.of_succ_nat Pos.succ].
  change (py_range 2) with [0; 1]. cbn [combine mapM].
  unfold blockRow_start. cbn [fst snd].
  rewrite (blockRow_enter_two A0 H0 W n Hn HA0c).
  rewrite (blockRow_enter_two A1 H1 W n Hn HA1c).
  cbn [bind].
  change (blockRow_code 0 2)
    with [Accumulate 0; Send 1; Recv 1; Rebind; Accumulate 1; MulWeight].
  change (blockRow_code 1 2)
    with [Accumulate 1; Recv 0; Send 0; Rebind; Accumulate 0; MulWeight].
  rewrite advance_accumulate with (part := col_block A0 0 n);
    [| reflexivity | cbn; lia | cbn; lia | cbn; lia].
  rewrite advance_accumulate with (part := col_block A1 n n);
    [| reflexivity | cbn; lia | cbn; lia | cbn; lia].
  cbn [advance bind].
  unfold set_z_loc.
  cbn [z_loc inputs inputs_is_recv inputs_arg inputs_recv am_partitions weight
       nrows ncols zeros tabulate col_block].
  rewrite ?HH0r, ?HH0c, ?HH1r, ?HH1c.
  set (z00 := tabulate n f _). set (z11 := tabulate n f _).
  cbn [Nat.mul Nat.add].
  erewrite run_step; [| reflexivity | reflexivity |].
  2:{ rewrite transfer_0_1. cbn [fst snd tl].
      rewrite deliver_ok by (cbn; lia). cbn [bind advance].
      cbn [z_loc inputs inputs_is_recv inputs_arg inputs_recv am_partitions weight].
      reflexivity. }
  erewrite run_step; [| reflexivity | reflexivity |].
  2:{ rewrite transfer_1_0. cbn [fst snd tl].
      rewrite deliver_ok by (cbn; lia). cbn [bind].
      cbn [z_loc inputs inputs_is_recv inputs_arg inputs_recv am_partitions weight].
      change (advance [Rebind; Accumulate 0; MulWeight] ?s)
        with (advance [Accumulate 0; MulWeight] (set_rebound s)).
      change (advance [Rebind; Accumulate 1; MulWeight] ?s)
        with (advance [Accumulate 1; MulWeight] (set_rebound s)).
      unfold set_rebound.
      cbn [z_loc inputs inputs_is_recv inputs_arg inputs_recv am_partitions weight].
      rewrite advance_accumulate with (part := col_block A1 0 n);
        [| reflexivity | cbn; lia | cbn; lia | cbn; lia].
      rewrite advance_accumulate with (part := col_block A0 n n);
        [| reflexivity | cbn; lia | cbn; lia | cbn; lia].
      unfold set_z_loc.
      cbn [z_loc inputs inputs_is_recv inputs_arg inputs_recv am_partitions weight].
      rewrite !advance_mulweight by (cbn; lia).
      cbn [bind]. unfold set_z_loc.
      cbn [z_loc inputs inputs_is_recv inputs_arg inputs_recv am_partitions weight].
      reflexivity. }
  cbn [run all_done forallb snd fst andb map z_loc].
  eexists. eexists. split; [reflexivity |].
  unfold blockRow_spec. cbn [nth fst snd map].
  rewrite !mm_ok by (cbn; lia). cbn [bind].
  rewrite !mm_ok by (cbn; lia).
  cbn [nrows ncols tabulate vstack].
  subst z00 z11. cbn [nrows ncols tabulate].
  rewrite HA0r, HA1r, HA0c, HA1c, HH0c, HH1c.
  change (ncols (col_block A0 n n)) with n.
  change (ncols (col_block A1 0 n)) with n.
  split; f_equal; apply tabulate_ext; intros i j Hi Hj;
    apply sumZ_ext; intros k Hk; f_equal;
    rewrite !get_tabulate by lia; unfold zeros; rewrite get_tabulate by lia;
    rewrite (ring_sum_two _ H0 H1 n f i k) by assumption; lia.
Qed.

Lemma blockRow_two_ranks_correct_witness :
  exists z0 z1,
    blockRow [(of_rows [[1; 2]], of_rows [[1]]); (of_rows [[4; 5]], of_rows [[10]])]
             ring_weight = Finished [z0; z1]
    /\ blockRow_spec
         [(of_rows [[1; 2]], of_rows [[1]]); (of_rows [[4; 5]], of_rows [[10]])]
         ring_weight 0 = Ok z0
    /\ blockRow_spec
         [(of_rows [[1; 2]], of_rows [[1]]); (of_rows [[4; 5]], of_rows [[10]])]
         ring_weight 1 = Ok z1.
Proof.
  apply (blockRow_two_ranks_correct
           (of_rows [[1; 2]]) (of_rows [[4; 5]]) (of_rows [[1]]) (of_rows [[10]])
           ring_weight 1 1); try reflexivity.
  lia.
Defined.

Lemma blockRow_enter_one (A H W : tensor) (n : nat) :
  (0 < n)%nat -> ncols A = n ->
  blockRow_enter A H W 1 =
    Ok (mkStore [col_block A 0 n] W H
          (zeros (nrows H) (ncols H)) false (zeros n (ncols H))).
Proof.
  intros Hn Hc. unfold blockRow_enter, int_truediv. cbn [Z.eqb bind].
  rewrite Hc, Z.quot_1_r. cbn [bind].
  rewrite (split_cols_one A n Hn Hc). cbn [bind].
  replace (Z.of_nat n <? 0) with false by (symmetry; lia).
  now rewrite Nat2Z.id.
Qed.

(** X2. On a single rank [blockRow] returns [A * H * W]. *)
Theorem blockRow_single_rank_correct (A H W : tensor) (n f : nat) :
  (0 < n)%nat ->
  nrows A = n -> ncols A = n ->
  nrows H = n -> ncols H = f ->
  nrows W = f ->
  exists z,
    blockRow [(A, H)] W = Finished [z]
    /\ blockRow_spec [(A, H)] W 0 = Ok z.
Proof.
  intros Hn HAr HAc HHr HHc HW.
  unfold blockRow. cbn [length combine Z.of_nat Pos.of_succ_nat].
  change (py_range 1) with [0]. cbn [combine mapM].
  unfold blockRow_start. cbn [fst snd].
  rewrite (blockRow_enter_one A H W n Hn HAc). cbn [bind].
  change (blockRow_code 0 1) with [Accumulate 0; MulWeight].
  rewrite advance_accumulate with (part := col_block A 0 n);
    [| reflexivity | cbn; lia | cbn; lia | cbn; lia].
  unfold set_z_loc.
  cbn [z_loc inputs inputs_is_recv inputs_arg inputs_recv am_partitions weight].
  rewrite advance_mulweight by (cbn; lia).
  cbn [bind Nat.mul Nat.add run all_done forallb snd fst andb map z_loc set_z_loc].
  eexists. split; [reflexivity |].
  unfold blockRow_spec. cbn [nth fst snd map].
  rewrite !mm_ok by (cbn; lia). cbn [bind].
  rewrite !mm_ok by (cbn; lia).
  cbn [nrows ncols tabulate vstack zeros].
  change (ncols (col_block A 0 n)) with n.
  rewrite HAr, HAc, HHc.
  f_equal. apply tabulate_ext. intros i j Hi Hj.
  apply sumZ_ext. intros k Hk. f_equal.
  rewrite !get_tabulate by lia. unfold zeros. rewrite get_tabulate by lia.
  cbn [Z.add]. apply sumZ_ext. intros k0 Hk0.
  unfold col_block. rewrite get_tabulate by lia.
  now rewrite get_vstack_one.
Qed.

Lemma blockRow_single_rank_correct_witness :
  exists z,
    blockRow [(of_rows [[2]], of_rows [[3]])] ring_weight = Finished [z]
    /\ blockRow_spec [(of_rows [[2]], of_rows [[3]])] ring_weight 0 = Ok z.
Proof.
  apply (blockRow_single_rank_correct (of_rows [[2]]) (of_rows [[3]])
           ring_weight 1 1); try reflexivity.
  lia.
Defined.

(** X5. The four-process example of the specification (identity adjacency,
    distinguishable feature rows) does not tell the rings apart: every
    partition off the diagonal is zero, so a mismatched block adds nothing. *)
Lemma blockRow_identity_four_ranks :
  blockRow ring4_identity ring_weight
    = Finished [of_rows [[1]]; of_rows [[10]]; of_rows [[100]]; of_rows [[1000]]]
  /\ map (blockRow_spec ring4_identity ring_weight) [0; 1; 2; 3]%nat
     = [Ok (of_rows [[1]]); Ok (of_rows [[10]]); Ok (of_rows [[100]]);
        Ok (of_rows [[1000]])].
Proof. split; vm_compute; reflexivity. Qed.

Lemma norm_zero_degree_clamped_witness :
  exists s,
    norm_deg_inv_sqrt [PrimFloat.one; PrimFloat.one] [0; 2] 3 = Ok s
    /\ nth_error s 1 = Some PrimFloat.zero.
Proof.
  apply (norm_zero_degree_clamped [PrimFloat.one; PrimFloat.one] [0; 2] 3
           [PrimFloat.one; PrimFloat.zero; PrimFloat.one] 1 PrimFloat.zero);
    reflexivity.
Defined.

Lemma degree_scale_zero_degree_infinite_witness :
  exists s,
    degree_scale sink_graph 3 = Ok s
    /\ nth_error s 1 = Some PrimFloat.infinity.
Proof.
  apply (degree_scale_zero_degree_infinite sink_graph 3
           [PrimFloat.one; PrimFloat.zero; PrimFloat.one] 1 PrimFloat.zero);
    reflexivity.
Defined.

(* ================================================================== *)
(** * The backward pass: shapes *)

(** X6. [backward] returns its two gradients exactly when the shapes agree
    ([A] has as many columns as [G] has rows, [G] as many columns as [W],
    [H] as many rows as [A]); with any other shapes a product raises
    [RuntimeError]. *)
Theorem GCNFunc_backward_shape_check (H W A G : tensor) :
  ((exists grad_input grad_weight,
      GCNFunc_backward (save_for_backward H W A) G
        = Ok (Some grad_input, Some grad_weight, None, None))
   <-> (ncols A = nrows G /\ ncols G = ncols W /\ nrows H = nrows A))
  /\ (GCNFunc_backward (save_for_backward H W A) G = Raise RuntimeError
      <-> ~ (ncols A = nrows G /\ ncols G = ncols W /\ nrows H = nrows A)).
Proof.
  unfold GCNFunc_backward, save_for_backward, mm. cbn [saved_tensors].
  cbn [transpose tabulate nrows ncols].
  destruct (Nat.eqb_spec (ncols A) (nrows G)) as [E1 | E1];
    cbn [bind nrows ncols tabulate];
    [| split; split; intros X; try tauto; try discriminate;
       destruct X as (gi & gw & Hc); discriminate].
  destruct (Nat.eqb_spec (ncols G) (ncols W)) as [E2 | E2];
    cbn [bind nrows ncols tabulate];
    [| split; split; intros X; try tauto; try discriminate;
       destruct X as (gi & gw & Hc); discriminate].
  destruct (Nat.eqb_spec (nrows H) (nrows A)) as [E3 | E3];
    cbn [bind nrows ncols tabulate];
    [| split; split; intros X; try tauto; try discriminate;
       destruct X as (gi & gw & Hc); discriminate].
  rewrite E1, Nat.eqb_refl. cbn [bind].
  split; split; intros X; try tauto; try discriminate.
  now eexists; eexists.
Qed.

(* ================================================================== *)
(** * The splitter on any edge list *)

Lemma filter_none {A} (p : A -> bool) (l : list A) :
  (forall a, In a l -> p a = false) -> filter p l = [].
Proof.
  induction l as [| a l IH]; intros H; cbn; [reflexivity |].
  rewrite (H a) by now left. apply IH. intros; apply H; now right.
Qed.

(** [split_coo] with a positive partition size and [N < 2 ^ 63] (every
    boundary fits int64): the partitions are the rebased interval filters,
    there are [min P_row (ceil (N / n))] of them, and put back together
    they are the edges with a coordinate in [[0, N)]. *)
Lemma split_coo_round_trip (proc_row_size : Z -> Z) (adj : list edge)
    (N n dim size : Z) (d : bool) :
  axis dim = Ok d ->
  0 < n ->
  0 < proc_row_size size ->
  N < 2 ^ 63 ->
  exists m vtx,
    let parts :=
      map (fun i => map (rebase d (nth i vtx 0))
                        (filter (in_interval d (nth i vtx 0) (nth (S i) vtx 0)) adj))
          (seq 0 m) in
    split_coo proc_row_size adj N n dim size = Ok (parts, vtx)
    /\ Z.of_nat m = Z.min (proc_row_size size) (Z.max 0 ((N + n - 1) / n))
    /\ Permutation (reconstitute d vtx parts) (filter (in_interval d 0 N) adj).
Proof.
  intros Hd Hn HP HN.
  pose proof (vtx_boundaries_eq N n (proc_row_size size) Hn ltac:(lia)) as Hv.
  pose proof (range_count_bounds N n Hn) as [Hpos Hneg]. cbv zeta in Hpos, Hneg.
  replace (N - 0 + n - 1) with (N + n - 1) in * by lia.
  set (count := (N + n - 1) / n) in *.
  set (m := Nat.min (Z.to_nat (proc_row_size size)) (Z.to_nat count)) in *.
  assert (Hm1 : 0 < N -> (1 <= m)%nat /\ (Z.of_nat m - 1) * n < N).
  { intros H. specialize (Hpos H). subst m. split; [lia | nia]. }
  assert (Hm0 : N <= 0 -> m = O).
  { intros H. specialize (Hneg H). subst m. lia. }
  set (vtx := map (fun k => Z.of_nat k * n) (seq 0 m) ++ [N]) in *.
  assert (Hlen : length vtx = S m).
  { subst vtx. rewrite length_app, length_map, length_seq. cbn. lia. }
  exists m, vtx. cbv zeta.
  rewrite (split_coo_parts proc_row_size adj N n dim size d vtx Hd Hv).
  rewrite Hlen. replace (S m - 1)%nat with m by lia.
  split; [reflexivity |]. split; [subst m; lia |].
  destruct (Z_lt_le_dec 0 N) as [HN0 | HN0].
  - destruct (Hm1 HN0) as [Hm Hlast].
    assert (Hmono : forall i, (i < m)%nat -> nth i vtx 0 <= nth (S i) vtx 0).
    { intros i Hi. subst vtx. case_bounds; try lia; nia. }
    rewrite reconstitute_intervals.
    + etransitivity; [apply intervals_cover; exact Hmono |].
      cbv beta.
      assert (E0 : nth 0 vtx 0 = 0) by (subst vtx; case_bounds; lia).
      assert (Em : nth m vtx 0 = N) by (subst vtx; case_bounds; lia).
      rewrite E0, Em. reflexivity.
    + intros i e Hi He. unfold in_interval in He.
      assert (Hb : 0 <= nth i vtx 0) by (subst vtx; case_bounds; try lia; nia).
      assert (Hu : nth (S i) vtx 0 <= N) by (subst vtx; case_bounds; try lia; nia).
      lia.
  - rewrite (Hm0 HN0). cbn.
    rewrite filter_none; [constructor |].
    intros e _. unfold in_interval. lia.
Qed.

(** X7. For a positive partition size, a positive [P_row] and a node
    count [N < 2 ^ 63] (an int64 size), and any edge list, [split_coo]
    returns [min P_row (ceil (N / n_per_proc))] partitions; put back
    together they are a permutation of the edges whose split coordinate
    lies in [[0, N)]: those are kept once each, and an edge with a
    coordinate outside [[0, N)] is dropped without an error. *)
Theorem split_coo_keeps_in_range (proc_row_size : Z -> Z) (adj : list edge)
    (N n dim size : Z) (d : bool) :
  axis dim = Ok d ->
  0 < n ->
  0 < proc_row_size size ->
  N < 2 ^ 63 ->
  exists parts vtx,
    split_coo proc_row_size adj N n dim size = Ok (parts, vtx)
    /\ Z.of_nat (length parts)
       = Z.min (proc_row_size size) (Z.max 0 ((N + n - 1) / n))
    /\ Permutation (reconstitute d vtx parts) (filter (in_interval d 0 N) adj)
    /\ (forall e, In e adj -> ~ 0 <= coord d e < N ->
          ~ In e (reconstitute d vtx parts)).
Proof.
  intros Hd Hn HP HN.
  destruct (split_coo_round_trip proc_row_size adj N n dim size d Hd Hn HP HN)
    as (m & vtx & Hs & Hm & Hperm).
  cbv zeta in Hs, Hperm.
  eexists. exists vtx. split; [exact Hs |].
  split; [now rewrite length_map, length_seq |].
  split; [exact Hperm |].
  intros e _ Hout Hin.
  apply (Permutation_in _ Hperm) in Hin. apply filter_In in Hin as [_ Hin].
  unfold in_interval in Hin. lia.
Qed.

Lemma split_coo_keeps_in_range_witness :
  exists parts vtx,
    split_coo isqrt_grid [(0, 0); (7, 1); (1, 2); (-1, 3); (4, 4)] 5 2 0 4
      = Ok (parts, vtx)
    /\ Z.of_nat (length parts) = Z.min (isqrt_grid 4) (Z.max 0 ((5 + 2 - 1) / 2))
    /\ Permutation (reconstitute true vtx parts)
         (filter (in_interval true 0 5) [(0, 0); (7, 1); (1, 2); (-1, 3); (4, 4)])
    /\ (forall e, In e [(0, 0); (7, 1); (1, 2); (-1, 3); (4, 4)] ->
          ~ 0 <= coord true e < 5 ->
          ~ In e (reconstitute true vtx parts)).
Proof.
  apply (split_coo_keeps_in_range isqrt_grid
           [(0, 0); (7, 1); (1, 2); (-1, 3); (4, 4)] 5 2 0 4 true).
  - reflexivity.
  - lia.
  - vm_compute. reflexivity.
  - lia.
Defined.

Lemma mapM_Forall2 {A B} (f : A -> result B) (P : A -> B -> Prop) (l : list A) :
  (forall a, In a l -> exists b, f a = Ok b /\ P a b) ->
  exists l', mapM f l = Ok l' /\ Forall2 P l l'.
Proof.
  induction l as [| a l IH]; intros H; cbn.
  - exists []. split; [reflexivity | constructor].
  - destruct (H a ltac:(now left)) as (b & -> & Hb). cbn.
    destruct IH as (l' & -> & Hl'); [intros; apply H; now right |].
    cbn. exists (b :: l'). split; [reflexivity | now constructor].
Qed.

(** Putting partitions back together respects permutations of the
    partitions. *)
Lemma reconstitute_Permutation (d : bool) (vtx : list Z)
    (parts parts' : list (list edge)) :
  Forall2 (@Permutation edge) parts parts' ->
  Permutation (reconstitute d vtx parts) (reconstitute d vtx parts').
Proof.
  intros H. unfold reconstitute.
  rewrite <- (Forall2_length H).
  assert (G : forall s,
            Permutation
              (concat (map (fun '(i, p) => map (unrebase d (nth i vtx 0)) p)
                           (combine (seq s (length parts)) parts)))
              (concat (map (fun '(i, p) => map (unrebase d (nth i vtx 0)) p)
                           (combine (seq s (length parts)) parts')))).
  { induction H as [| p p' l l' Hp Hl IH]; intros s; cbn; [constructor |].
    apply Permutation_app; [now apply Permutation_map | apply IH]. }
  apply G.
Qed.

(** X8. The two splits of [twod_partition] lose and duplicate no edge:
    when every edge has both coordinates in [[0, N)] and [N < 2 ^ 63] (an
    int64 size), splitting by columns
    and then every column part by rows succeeds, and the blocks, with both
    boundaries added back, are a permutation of the edge list. *)
Theorem split_coo_twice_covers (proc_row_size : Z -> Z) (adj : list edge)
    (N n size : Z) :
  0 < n ->
  0 < proc_row_size size ->
  N < 2 ^ 63 ->
  (forall e, In e adj -> 0 <= fst e < N /\ 0 <= snd e < N) ->
  exists col_parts vtx blocks,
    split_coo proc_row_size adj N n 1 size = Ok (col_parts, vtx)
    /\ mapM (fun col_part => split_coo proc_row_size col_part N n 0 size)
            col_parts = Ok blocks
    /\ length blocks = length col_parts
    /\ Permutation
         (reconstitute false vtx
            (map (fun b => reconstitute true (snd b) (fst b)) blocks))
         adj.
Proof.
  intros Hn HP HN Hadj.
  destruct (split_coo_round_trip proc_row_size adj N n 1 size false
              eq_refl Hn HP HN) as (m & vtx & Hs & _ & Hperm).
  cbv zeta in Hs, Hperm.
  set (col_parts := map _ (seq 0 m)) in *.
  rewrite (filter_all (in_interval false 0 N)) in Hperm.
  2:{ intros e He. destruct (Hadj e He) as [_ H]. unfold in_interval.
      cbn [coord]. rewrite andb_true_iff, Z.leb_le, Z.ltb_lt. lia. }
  destruct (mapM_Forall2
              (fun col_part => split_coo proc_row_size col_part N n 0 size)
              (fun col_part b =>
                 Permutation (reconstitute true (snd b) (fst b)) col_part)
              col_parts) as (blocks & Hblocks & Hall).
  { intros cp Hcp.
    destruct (split_coo_round_trip proc_row_size cp N n 0 size true
                eq_refl Hn HP HN) as (m' & vtx' & Hs' & _ & Hperm').
    cbv zeta in Hs', Hperm'. eexists. split; [exact Hs' |]. cbn [fst snd].
    rewrite (filter_all (in_interval true 0 N)) in Hperm'; [exact Hperm' |].
    intros e He. subst col_parts.
    apply in_map_iff in Hcp as (j & <- & _).
    apply in_map_iff in He as (e0 & <- & He0).
    apply filter_In in He0 as [He0 _]. destruct (Hadj e0 He0) as [H _].
    unfold in_interval, rebase. cbn [coord fst].
    rewrite andb_true_iff, Z.leb_le, Z.ltb_lt. lia. }
  exists col_parts, vtx, blocks.
  split; [exact Hs |]. split; [exact Hblocks |].
  split; [symmetry; exact (Forall2_length Hall) |].
  etransitivity; [| exact Hperm].
  apply reconstitute_Permutation.
  clear -Hall. induction Hall; cbn; constructor; assumption.
Qed.

Lemma split_coo_twice_covers_witness :
  exists col_parts vtx blocks,
    split_coo isqrt_grid grid_edges 5 2 1 4 = Ok (col_parts, vtx)
    /\ mapM (fun col_part => split_coo isqrt_grid col_part 5 2 0 4)
            col_parts = Ok blocks
    /\ length blocks = length col_parts
    /\ Permutation
         (reconstitute false vtx
            (map (fun b => reconstitute true (snd b) (fst b)) blocks))
         grid_edges.
Proof.
  apply (split_coo_twice_covers isqrt_grid grid_edges 5 2 4).
  - lia.
  - vm_compute. reflexivity.
  - lia.
  - intros e He. cbn in He.
    repeat (destruct He as [<- | He]; [cbn; lia |]). contradiction.
Defined.

(* ================================================================== *)
(** * [norm]: self loops and scale factors *)

(** X9. No scale factor [norm] computes is [+inf], whatever the weights
    and the degrees: the clamp replaces every infinite value. *)
Theorem norm_scale_never_infinite (edge_weight : list float) (row : list Z)
    (num_nodes : Z) (s : list float) :
  norm_deg_inv_sqrt edge_weight row num_nodes = Ok s ->
  Forall (fun x => PrimFloat.eqb x PrimFloat.infinity = false) s.
Proof.
  unfold norm_deg_inv_sqrt. intros H.
  destruct (scatter_add edge_weight row num_nodes) as [deg |]; [| discriminate].
  cbn in H. injection H as <-.
  unfold clamp_inf. apply Forall_map. apply Forall_forall. intros y _.
  destruct (PrimFloat.eqb y PrimFloat.infinity) eqn:E; [reflexivity | exact E].
Qed.

Lemma norm_scale_never_infinite_witness :
  Forall (fun x => PrimFloat.eqb x PrimFloat.infinity = false)
         [PrimFloat.one; PrimFloat.zero; PrimFloat.one].
Proof.
  apply (norm_scale_never_infinite [PrimFloat.one; PrimFloat.one] [0; 2] 3).
  reflexivity.
Defined.

Lemma mapM_length {A B} (f : A -> result B) (l : list A) (l' : list B) :
  mapM f l = Ok l' -> length l' = length l.
Proof.
  revert l'. induction l as [| a l IH]; intros l' H; cbn in H.
  - now injection H as <-.
  - destruct (f a) as [b |]; [| discriminate]. cbn in H.
    destruct (mapM f l) as [bs |]; [| discriminate]. cbn in H.
    injection H as <-. cbn. f_equal. now apply IH.
Qed.

Lemma kept_edges (edge_index : list edge) (w : list float) :
  length w = length edge_index ->
  map fst (filter (fun '((r, c), _) => negb (r =? c)) (combine edge_index w))
  = filter (fun e => negb (is_self_loop e)) edge_index.
Proof.
  revert w. induction edge_index as [| [r c] l IH]; intros [| x w] H;
    cbn in *; try reflexivity; try discriminate.
  unfold is_self_loop at 1. cbn [fst snd].
  destruct (r =? c); cbn; rewrite IH by lia; reflexivity.
Qed.

(** X10. On edges inside [[0, num_nodes)] (with one weight per edge, or
    none) [norm] succeeds and returns the edges that are not self loops, in
    their order, followed by one self loop per node, with one value per
    returned edge. *)
Theorem norm_adds_self_loops (edge_index : list edge) (num_nodes : Z)
    (edge_weight : option (list float)) (improved : bool) :
  (forall e, In e edge_index -> 0 <= fst e < num_nodes /\ 0 <= snd e < num_nodes) ->
  (forall w, edge_weight = Some w -> length w = length edge_index) ->
  exists values,
    norm edge_index num_nodes edge_weight improved
      = Ok (filter (fun e => negb (is_self_loop e)) edge_index
              ++ diag_indices num_nodes, values)
    /\ length values
       = (length (filter (fun e => negb (is_self_loop e)) edge_index)
          + Z.to_nat num_nodes)%nat.
Proof.
  intros Hin Hw. unfold norm.
  set (w := match edge_weight with
            | Some w => w
            | None => map (fun _ => PrimFloat.one) edge_index
            end).
  assert (Hlen : length w = length edge_index).
  { subst w. destruct edge_weight as [w |]; [now apply Hw | apply length_map]. }
  unfold add_remaining_self_loops.
  rewrite (kept_edges edge_index w Hlen).
  set (kept := filter (fun e => negb (is_self_loop e)) edge_index).
  set (ws := map snd _ ++ map _ (py_range num_nodes)).
  assert (Hrange : forall e, In e (kept ++ diag_indices num_nodes) ->
            0 <= fst e < num_nodes /\ 0 <= snd e < num_nodes).
  { intros e He. apply in_app_or in He as [He | He].
    - apply filter_In in He as [He _]. now apply Hin.
    - unfold diag_indices in He. apply in_map_iff in He as (k & <- & Hk).
      apply in_py_range in Hk. cbn. lia. }
  assert (Hws : length ws = length (kept ++ diag_indices num_nodes)).
  { subst ws. rewrite !length_app, !length_map, diag_indices_length, py_range_length.
    f_equal. subst kept. rewrite <- (kept_edges edge_index w Hlen).
    now rewrite length_map. }
  unfold norm_deg_inv_sqrt, scatter_add.
  replace (forallb _ (map fst (kept ++ diag_indices num_nodes))) with true.
  2:{ symmetry. apply forallb_forall. intros i Hi.
      apply in_map_iff in Hi as (e & <- & He). specialize (Hrange e He). lia. }
  cbn [bind].
  set (dis := clamp_inf _).
  assert (Hdis : length dis = Z.to_nat num_nodes).
  { subst dis. unfold clamp_inf. now rewrite !length_map, py_range_length. }
  match goal with
  | |- context [mapM ?f ?l] => destruct (mapM_total f l) as [values Hv]
  end.
  { intros [[r c] x] He. apply in_combine_l in He.
    destruct (Hrange _ He) as [Hr Hc]. cbn in Hr, Hc.
    rewrite (py_get_ok dis r PrimFloat.zero) by lia. cbn [bind].
    rewrite (py_get_ok dis c PrimFloat.zero) by lia. cbn [bind].
    now eexists. }
  rewrite Hv. cbn [bind]. exists values. split; [reflexivity |].
  rewrite (mapM_length _ _ _ Hv), length_combine, Hws, Nat.min_id.
  now rewrite length_app, diag_indices_length.
Qed.

Lemma norm_adds_self_loops_witness :
  exists values,
    norm looped_graph 3 None false
      = Ok (filter (fun e => negb (is_self_loop e)) looped_graph
              ++ diag_indices 3, values)
    /\ length values
       = (length (filter (fun e => negb (is_self_loop e)) looped_graph)
          + Z.to_nat 3)%nat.
Proof.
  apply (norm_adds_self_loops looped_graph 3 None false).
  - intros e He. cbn in He.
    repeat (destruct He as [<- | He]; [cbn; lia |]). contradiction.
  - discriminate.
Defined.

(* ================================================================== *)
(** * The topology builder on any grid *)

Lemma transpose_groups_any (proc_row proc_col : Z) (log : list group) :
  transpose_groups_table proc_row proc_col log =
    Ok (map (fun i => map (fun j => grid_cell proc_row proc_col i j)
                          (py_range proc_col))
            (py_range proc_row),
        log ++ grid_pairs proc_row proc_col).
Proof.
  unfold transpose_groups_table, grid_pairs.
  apply forC_pure. intros i log1 Hi.
  apply forC_pure. intros j log2 Hj.
  unfold grid_cell.
  destruct (i * proc_col + j <? j * proc_row + i); cbn.
  - reflexivity.
  - unfold retC. now rewrite app_nil_r.
Qed.

(** X11. [get_proc_groups] on a [P_row x P_col] grid of any shape, for a
    rank of the grid.  The rank creates the row groups, the column groups
    and the transpose groups of the table, the same for every rank.  When
    [rank < rank_t] it is handed the group [[rank; rank_t]].  Otherwise it
    looks the table up at [(rank_col, rank_row)]: that raises [IndexError]
    when [rank_col >= P_row] or [rank_row >= P_col] (a grid that is not
    square), and else gives the cell of that position. *)
Theorem get_proc_groups_any_grid (proc_row_size proc_col_size : Z -> Z)
    (rank size : Z) (log : list group) :
  let Pr := proc_row_size size in
  let Pc := proc_col_size size in
  let rank_row := rank / Pc in
  let rank_col := rank mod Pc in
  let rank_t := rank_col * Pr + rank_row in
  let log' := log ++ row_groups_of Pr Pc ++ col_groups_of Pr Pc size
                  ++ grid_pairs Pr Pc in
  0 < Pr -> 0 < Pc -> 0 <= rank < Pr * Pc ->
  get_proc_groups proc_row_size proc_col_size rank size log =
    if rank <? rank_t then
      Ok (Some (row_groups_of Pr Pc, col_groups_of Pr Pc size,
                Some [rank; rank_t]), log')
    else if (rank_col <? Pr) && (rank_row <? Pc) then
      Ok (Some (row_groups_of Pr Pc, col_groups_of Pr Pc size,
                grid_cell Pr Pc rank_col rank_row), log')
    else Raise IndexError.
Proof.
  intros Pr Pc rank_row rank_col rank_t log' HPr HPc Hrank.
  pose proof (Z.div_mod rank Pc ltac:(lia)) as Edm.
  pose proof (Z.mod_pos_bound rank Pc HPc) as Bm.
  assert (Bd : 0 <= rank / Pc < Pr).
  { split; [apply Z.div_pos; lia | apply Z.div_lt_upper_bound; lia]. }
  fold rank_row in Edm, Bd. fold rank_col in Edm, Bm.
  unfold get_proc_groups. fold Pr Pc.
  unfold int_truediv, py_mod.
  replace (Pc =? 0) with false by (symmetry; lia).
  rewrite Z.quot_div_nonneg by lia. fold rank_row rank_col.
  unfold bindC at 1. unfold lift at 1.
  unfold bindC at 1. unfold lift at 1.
  unfold bindC at 1. rewrite row_groups_created.
  unfold bindC at 1. rewrite col_groups_created by lia.
  replace ((rank_row >=? Pr) || (rank_col >=? Pc)) with false
    by (symmetry; rewrite !Z.geb_leb; apply orb_false_iff;
        split; apply Z.leb_gt; lia).
  unfold bindC at 1. rewrite transpose_groups_any.
  fold rank_t. fold (row_groups_of Pr Pc) (col_groups_of Pr Pc size).
  unfold bindC, lift, retC. subst log'. rewrite <- !app_assoc.
  destruct (rank <? rank_t) eqn:E.
  - rewrite (py_get_map_range
               (fun i => map (fun j => grid_cell Pr Pc i j) (py_range Pc)))
      by lia.
    cbn [bind].
    rewrite (py_get_map_range (fun j => grid_cell Pr Pc rank_row j)) by lia.
    unfold grid_cell.
    replace (rank_row * Pc + rank_col) with rank by lia.
    fold rank_t. rewrite E. reflexivity.
  - destruct (Z.ltb_spec rank_col Pr) as [E1 | E1]; cbn [andb].
    + rewrite (py_get_map_range
                 (fun i => map (fun j => grid_cell Pr Pc i j) (py_range Pc)))
        by lia.
      cbn [bind].
      destruct (Z.ltb_spec rank_row Pc) as [E2 | E2].
      * rewrite (py_get_map_range (fun j => grid_cell Pr Pc rank_col j)) by lia.
        reflexivity.
      * unfold py_get. rewrite length_map, py_range_length.
        replace (rank_row <? 0) with false by (symmetry; lia).
        replace ((0 <=? rank_row) && (rank_row <? Z.of_nat (Z.to_nat Pc)))
          with false
          by (symmetry; apply andb_false_iff; right; apply Z.ltb_ge; lia).
        reflexivity.
    + unfold py_get at 1. rewrite length_map, py_range_length.
      replace (rank_col <? 0) with false by (symmetry; lia).
      replace ((0 <=? rank_col) && (rank_col <? Z.of_nat (Z.to_nat Pr)))
        with false
          by (symmetry; apply andb_false_iff; right; apply Z.ltb_ge; lia).
      reflexivity.
Qed.

(** Rank 14 of the 3 x 5 grid, position (2, 4): there is no table row 4. *)
Lemma get_proc_groups_any_grid_witness :
  get_proc_groups three_rows five_cols 14 15 [] = Raise IndexError.
Proof.
  exact (get_proc_groups_any_grid three_rows five_cols 14 15 []
           ltac:(reflexivity) ltac:(reflexivity)
           ltac:(split; [discriminate | reflexivity])).
Defined.

Lemma in_py_range2 (a b x : Z) : In x (py_range2 a b) <-> a <= x < b.
Proof.
  unfold py_range2. rewrite in_map_iff. split.
  - intros (k & <- & Hk). apply in_seq in Hk. lia.
  - intros H. exists (Z.to_nat (x - a)). split; [lia |]. apply in_seq. lia.
Qed.

Lemma in_strided (start size step x : Z) :
  0 < step ->
  In x (strided start size step)
  <-> start <= x < size /\ (x - start) mod step = 0.
Proof.
  intros Hs. unfold strided, py_range3.
  replace (step =? 0) with false by (symmetry; lia).
  replace (0 <? step) with true by (symmetry; lia).
  rewrite in_map_iff. split.
  - intros (k & <- & Hk). apply in_seq in Hk.
    replace (start + Z.of_nat k * step - start) with (Z.of_nat k * step) by lia.
    rewrite Z.mod_mul by lia.
    pose proof (Z.div_mod (size - start + step - 1) step ltac:(lia)) as E.
    pose proof (Z.mod_pos_bound (size - start + step - 1) step Hs) as B.
    split; [| reflexivity].
    assert (Z.of_nat k < (size - start + step - 1) / step) by lia.
    nia.
  - intros [Hx Hm].
    pose proof (Z.div_mod (x - start) step ltac:(lia)) as E.
    rewrite Hm in E.
    assert (0 <= (x - start) / step) by (apply Z.div_pos; lia).
    exists (Z.to_nat ((x - start) / step)). split; [nia |].
    apply in_seq.
    pose proof (Z.div_mod (size - start + step - 1) step ltac:(lia)) as E'.
    pose proof (Z.mod_pos_bound (size - start + step - 1) step Hs) as B.
    assert ((x - start) / step < (size - start + step - 1) / step) by nia.
    lia.
Qed.

(** X12. The groups [get_proc_groups] returns: one row group per grid
    row and one column group per grid column; row group [i] holds exactly
    the ranks [r] of the grid with [r // P_col = i]; column group [i] holds
    exactly the ranks [i, i + P_row, i + 2 P_row, ...] below [size]. *)
Theorem get_proc_groups_membership (proc_row_size proc_col_size : Z -> Z)
    (rank size : Z) (log log' : list group)
    (rows cols : list group) (tg : option group) :
  let Pr := proc_row_size size in
  let Pc := proc_col_size size in
  0 < Pr -> 0 < Pc ->
  get_proc_groups proc_row_size proc_col_size rank size log
    = Ok (Some (rows, cols, tg), log') ->
  length rows = Z.to_nat Pr
  /\ length cols = Z.to_nat Pc
  /\ (forall i r, 0 <= i < Pr ->
        (In r (nth (Z.to_nat i) rows []) <-> 0 <= r < Pr * Pc /\ r / Pc = i))
  /\ (forall i r, 0 <= i < Pc ->
        (In r (nth (Z.to_nat i) cols [])
         <-> i <= r < size /\ (r - i) mod Pr = 0)).
Proof.
  intros Pr Pc HPr HPc. unfold get_proc_groups. fold Pr Pc.
  unfold bindC at 1.
  destruct (lift (int_truediv rank Pc) log) as [[rank_row log1] |] eqn:E1;
    [| discriminate].
  unfold bindC at 1.
  destruct (lift (py_mod rank Pc) log1) as [[rank_col log2] |] eqn:E2;
    [| discriminate].
  unfold bindC at 1. rewrite row_groups_created.
  unfold bindC at 1. rewrite col_groups_created by lia.
  destruct ((rank_row >=? Pr) || (rank_col >=? Pc)); [discriminate |].
  unfold bindC at 1. rewrite transpose_groups_any.
  unfold bindC at 1.
  match goal with
  | |- match ?m with _ => _ end = _ -> _ =>
      destruct m as [[t log3] |]; [| discriminate]
  end.
  unfold retC. intros [= <- <- _ _].
  split; [now rewrite length_map, py_range_length |].
  split; [now rewrite length_map, py_range_length |].
  split.
  - intros i r Hi. unfold py_range. rewrite map_map.
    rewrite (nth_map_seq
               (fun k => py_range2 (Z.of_nat k * Pc) (Z.of_nat k * Pc + Pc)))
      by lia.
    rewrite Z2Nat.id by lia. rewrite in_py_range2.
    pose proof (Z.div_mod r Pc ltac:(lia)) as E.
    pose proof (Z.mod_pos_bound r Pc HPc) as B.
    split.
    + intros H. split; [nia |]. symmetry.
      apply (Z.div_unique r Pc i (r - i * Pc)); lia.
    + intros [_ <-]. nia.
  - intros i r Hi. unfold py_range. rewrite map_map.
    rewrite (nth_map_seq (fun k => strided (Z.of_nat k) size Pr)) by lia.
    rewrite Z2Nat.id by lia. apply in_strided. exact HPr.
Qed.

Lemma get_proc_groups_membership_witness :
  length [[0; 1]; [2; 3]] = Z.to_nat (isqrt_grid 4)
  /\ length [[0; 2]; [1; 3]] = Z.to_nat (isqrt_grid 4)
  /\ (forall i r, 0 <= i < isqrt_grid 4 ->
        (In r (nth (Z.to_nat i) [[0; 1]; [2; 3]] [])
         <-> 0 <= r < isqrt_grid 4 * isqrt_grid 4 /\ r / isqrt_grid 4 = i))
  /\ (forall i r, 0 <= i < isqrt_grid 4 ->
        (In r (nth (Z.to_nat i) [[0; 2]; [1; 3]] [])
         <-> i <= r < 4 /\ (r - i) mod isqrt_grid 4 = 0)).
Proof.
  apply (get_proc_groups_membership isqrt_grid isqrt_grid 1 4 []
           [[0; 1]; [2; 3]; [0; 2]; [1; 3]; [1; 2]]
           [[0; 1]; [2; 3]] [[0; 2]; [1; 3]] (Some [1; 2])).
  - reflexivity.
  - reflexivity.
  - reflexivity.
Defined.

(* ================================================================== *)
(** * The feature tile of the 2D partition *)

Lemma nth_blocks_of_sizes (sizes : list Z) (off k : nat) :
  (k < length sizes)%nat ->
  nth k (blocks_of_sizes off sizes) (O, O) =
    ((off + list_sum (map Z.to_nat (firstn k sizes)))%nat,
     Z.to_nat (nth k sizes 0)).
Proof.
  revert off k. induction sizes as [| s sizes IH]; intros off k Hk; cbn in Hk.
  - lia.
  - destruct k as [| k]; cbn.
    + now rewrite Nat.add_0_r.
    + rewrite IH by lia. f_equal. unfold list_sum. lia.
Qed.

Lemma list_sum_const (c : nat) (l : list nat) :
  (forall x, In x l -> x = c) -> list_sum l = (length l * c)%nat.
Proof.
  induction l as [| a l IH]; intros H; [reflexivity |].
  change (list_sum (a :: l)) with (a + list_sum l)%nat. cbn [length].
  rewrite (H a) by now left. rewrite IH by (intros; apply H; now right). lia.
Qed.

Lemma nth_chunk_blocks (total parts k : Z) :
  0 <= total -> 0 <= k < parts ->
  nth (Z.to_nat k) (blocks_of_sizes 0 (chunk_sizes total parts)) (O, O)
  = (chunk_start total parts k, chunk_len total parts k).
Proof.
  intros Ht Hk.
  assert (Hper : 0 <= total / parts) by (apply Z.div_pos; lia).
  rewrite nth_blocks_of_sizes
    by (unfold chunk_sizes; rewrite length_map, py_range_length; lia).
  unfold chunk_start, chunk_len, chunk_sizes, py_range.
  rewrite map_map, firstn_map, firstn_seq_min, Nat.min_l by lia.
  rewrite (nth_map_seq (fun i => if Z.of_nat i =? parts - 1
                                 then total - total / parts * (parts - 1)
                                 else total / parts)) by lia.
  rewrite Z2Nat.id by lia. f_equal.
  rewrite (list_sum_const (Z.to_nat (total / parts))).
  - rewrite !length_map, length_seq. cbn. nia.
  - intros x Hx. apply in_map_iff in Hx as (s & <- & Hs).
    apply in_map_iff in Hs as (i & <- & Hi). apply in_seq in Hi.
    now replace (Z.of_nat i =? parts - 1) with false by (symmetry; lia).
Qed.

(** The tile at grid position [(rr, rc)] of the feature matrix. *)
Lemma feature_tile_at (inputs0 : tensor) (parts_r parts_c rr rc : Z) :
  1 <= parts_r -> 1 <= parts_c ->
  0 <= rr < parts_r -> 0 <= rc < parts_c ->
  exists rowparts tiles_of tiles,
    split_rows_sizes inputs0 (chunk_sizes (Z.of_nat (nrows inputs0)) parts_r)
      = Ok rowparts
    /\ mapM (fun p => split_cols_sizes p
                        (chunk_sizes (Z.of_nat (ncols inputs0)) parts_c))
            rowparts = Ok tiles_of
    /\ py_get tiles_of rr = Ok tiles
    /\ py_get tiles rc =
         Ok (tile inputs0
               (chunk_start (Z.of_nat (nrows inputs0)) parts_r rr)
               (chunk_len (Z.of_nat (nrows inputs0)) parts_r rr)
               (chunk_start (Z.of_nat (ncols inputs0)) parts_c rc)
               (chunk_len (Z.of_nat (ncols inputs0)) parts_c rc)).
Proof.
  intros Hpr Hpc Hrr Hrc.
  destruct (chunk_sizes_ok (Z.of_nat (nrows inputs0)) parts_r) as (Hr1 & Hr2 & Hr3);
    [lia | lia |].
  destruct (chunk_sizes_ok (Z.of_nat (ncols inputs0)) parts_c) as (Hc1 & Hc2 & Hc3);
    [lia | lia |].
  unfold split_rows_sizes. rewrite Hr1, Hr2, Z.eqb_refl. cbn [andb].
  set (rowparts := map _ (blocks_of_sizes 0 _)).
  assert (Hlen : length rowparts = Z.to_nat parts_r).
  { subst rowparts. now rewrite length_map, blocks_of_sizes_length. }
  assert (Hcols : forall p, In p rowparts ->
            split_cols_sizes p (chunk_sizes (Z.of_nat (ncols inputs0)) parts_c)
            = Ok (map (fun '(c0, w) => col_block p c0 w)
                      (blocks_of_sizes 0
                         (chunk_sizes (Z.of_nat (ncols inputs0)) parts_c)))).
  { intros p Hp. subst rowparts. apply in_map_iff in Hp as ([r0 h] & <- & _).
    unfold split_cols_sizes, row_block. cbn [tabulate ncols].
    now rewrite Hc1, Hc2, Z.eqb_refl. }
  destruct (mapM_total
              (fun p => split_cols_sizes p
                          (chunk_sizes (Z.of_nat (ncols inputs0)) parts_c))
              rowparts) as [tiles_of Htiles].
  { intros p Hp. rewrite (Hcols p Hp). now eexists. }
  assert (Ep : nth_error rowparts (Z.to_nat rr)
               = Some (row_block inputs0
                         (chunk_start (Z.of_nat (nrows inputs0)) parts_r rr)
                         (chunk_len (Z.of_nat (nrows inputs0)) parts_r rr))).
  { subst rowparts. rewrite nth_error_map.
    rewrite (nth_error_nth' _ (O, O))
      by (rewrite blocks_of_sizes_length, Hr3; lia).
    rewrite nth_chunk_blocks by lia. reflexivity. }
  destruct (mapM_nth_error _ _ _ _ _ Htiles Ep) as (tiles & Htl & Hnth).
  rewrite (Hcols _ (nth_error_In _ _ Ep)) in Htl. injection Htl as <-.
  apply py_get_nth in Hnth. rewrite Z2Nat.id in Hnth by lia.
  exists rowparts, tiles_of. eexists.
  split; [reflexivity |]. split; [exact Htiles |]. split; [exact Hnth |].
  - rewrite <- (Z2Nat.id rc) at 1 by lia. apply py_get_nth.
    rewrite nth_error_map.
    rewrite (nth_error_nth' _ (O, O))
      by (rewrite blocks_of_sizes_length, Hc3; lia).
    rewrite nth_chunk_blocks by lia. reflexivity.
Qed.

Lemma get_tile (A : tensor) (r0 h c0 w i j : nat) :
  (i < h)%nat -> (j < w)%nat -> (c0 + j < ncols A)%nat ->
  get (tile A r0 h c0 w) i j = get A (r0 + i) (c0 + j).
Proof.
  intros Hi Hj Hc. unfold tile, col_block, row_block. cbn [nrows].
  rewrite get_tabulate by assumption. now rewrite get_tabulate.
Qed.

Lemma chunk_inside (total parts k : Z) :
  0 <= total -> 0 <= k < parts ->
  (chunk_start total parts k + chunk_len total parts k <= Z.to_nat total)%nat.
Proof.
  intros Ht Hk. unfold chunk_start, chunk_len.
  assert (Hper : 0 <= total / parts) by (apply Z.div_pos; lia).
  assert (Hle : parts * (total / parts) <= total) by (apply Z.mul_div_le; lia).
  destruct (Z.eqb_spec k (parts - 1)); nia.
Qed.

(** X13. The feature tile of [twod_partition]: the feature matrix is cut
    into [P_row] row chunks of [N // P_row] rows and [P_col] column chunks
    of [F // P_col] columns, the last chunk of each taking the remainder;
    the rank at grid position [(rank_row, rank_col)] receives the rows of
    chunk [rank_row] and the columns of chunk [rank_col], entry by entry. *)
Theorem twod_partition_feature_tile (proc_row_size proc_col_size : Z -> Z)
    (rank size : Z) (inputs0 : tensor) (adj : list edge) (normalize : bool) :
  let N := Z.of_nat (nrows inputs0) in
  let F := Z.of_nat (ncols inputs0) in
  let P := proc_row_size size in
  let Pc := proc_col_size size in
  let rr := rank / Pc in
  let rc := rank mod Pc in
  1 <= P <= N -> 1 <= Pc -> N <= 2 ^ 63 ->
  0 <= rank -> rr < P -> rc < P ->
  (forall e, In e adj -> 0 <= fst e < N /\ 0 <= snd e < N) ->
  exists inputs_loc adj_loc,
    twod_partition proc_row_size proc_col_size rank size inputs0 adj normalize
      = Ok (inputs_loc, adj_loc)
    /\ Z.of_nat (nrows inputs_loc)
       = (if rr =? P - 1 then N - N / P * (P - 1) else N / P)
    /\ Z.of_nat (ncols inputs_loc)
       = (if rc =? Pc - 1 then F - F / Pc * (Pc - 1) else F / Pc)
    /\ (forall i j, (i < nrows inputs_loc)%nat -> (j < ncols inputs_loc)%nat ->
          get inputs_loc i j
          = get inputs0 (Z.to_nat (rr * (N / P)) + i) (Z.to_nat (rc * (F / Pc)) + j)).
Proof.
  intros N F P Pc rr0 rc0 HP HPc HN Hrank Hrr Hrc Hadj.
  set (rr := Z.to_nat rr0). set (rc := Z.to_nat rc0).
  set (vtx := map (fun k => Z.of_nat k * (N / P)) (seq 0 (Z.to_nat P)) ++ [N]).
  set (v := fun k => nth k vtx 0).
  assert (Hv : vtx_boundaries N (N / P) (proc_row_size size) = Ok vtx)
    by (apply vtx_boundaries_exact; exact HP).
  assert (Hlen : (length vtx - 1)%nat = Z.to_nat P).
  { subst vtx. rewrite length_app, length_map, length_seq. cbn. lia. }
  set (G1 := fun i => map (rebase false (v i))
                          (filter (in_interval false (v i) (v (S i))) adj)).
  set (G2 := fun i => map (rebase true (v i))
                          (filter (in_interval true (v i) (v (S i))) (G1 rc))).
  assert (Hs1 : split_coo proc_row_size adj N (N / P) 1 size
                = Ok (map G1 (seq 0 (Z.to_nat P)), vtx)).
  { rewrite (split_coo_parts proc_row_size adj N (N / P) 1 size false vtx
               eq_refl Hv).
    now rewrite Hlen. }
  assert (Hs2 : split_coo proc_row_size (G1 rc) N (N / P) 0 size
                = Ok (map G2 (seq 0 (Z.to_nat P)), vtx)).
  { rewrite (split_coo_parts proc_row_size (G1 rc) N (N / P) 0 size true vtx
               eq_refl Hv).
    now rewrite Hlen. }
  assert (Bd : 0 <= rr0) by (apply Z.div_pos; lia).
  pose proof (Z.mod_pos_bound rank Pc ltac:(lia)) as Bm. fold rc0 in Bm.
  assert (Hrrn : (rr < Z.to_nat P)%nat) by (subst rr; lia).
  assert (Hrcn : (rc < Z.to_nat P)%nat) by (subst rc; lia).
  set (work := map (fun k => (Z.of_nat k, G2 k)) (seq 0 (Z.to_nat P))).
  destruct (mapM_total
              (assemble_piece adj N (N / P) P (Z.of_nat rc) (v (S rc) - v rc)
                              vtx normalize) work) as [am_pbyp Ham].
  { intros [i p] Hin. subst work. apply in_map_iff in Hin as (k & [= <- <-] & Hk).
    apply in_seq in Hk.
    destruct (assemble_piece_ok adj N P rc k normalize HP HN ltac:(lia) Hrcn)
      as (s & _ & _ & Hs).
    now exists s. }
  assert (Hnth : nth_error work rr = Some (Z.of_nat rr, G2 rr)).
  { subst work. now rewrite (nth_error_map_seq (fun k => (Z.of_nat k, G2 k))). }
  destruct (mapM_nth_error _ _ _ _ _ Ham Hnth) as (adj_loc & _ & Hloc).
  destruct (feature_tile_at inputs0 P Pc rr0 rc0)
    as (rowparts & tiles_of & tiles & Hf1 & Hf2 & Hf3 & Hf4); try lia.
  fold N in Hf1.
  eexists. exists adj_loc. split.
  - assert (Hlenv : length vtx = S (Z.to_nat P)).
    { subst vtx. rewrite length_app, length_map, length_seq. cbn. lia. }
    unfold twod_partition. fold N P Pc.
    unfold py_floordiv, int_truediv, py_mod.
    replace (P =? 0) with false by (symmetry; lia).
    replace (Pc =? 0) with false by (symmetry; lia).
    rewrite Z.quot_div_nonneg by lia. fold rr0 rc0.
    assert (Err : rr0 = Z.of_nat rr) by (subst rr; lia).
    assert (Erc : rc0 = Z.of_nat rc) by (subst rc; lia).
    cbn [bind]. rewrite Hs1. cbn [bind]. rewrite Erc.
    rewrite (py_get_boundary vtx rc 1) by (cbn; lia). cbn [bind].
    rewrite <- (Z.add_0_r (Z.of_nat rc)).
    rewrite (py_get_boundary vtx rc 0) by (cbn; lia). cbn [bind].
    rewrite Z.add_0_r.
    rewrite (py_get_nth _ rc (G1 rc)) by now apply nth_error_map_seq.
    cbn [bind]. rewrite Hs2. cbn [bind].
    rewrite length_map, length_seq. unfold py_range at 1.
    rewrite Nat2Z.id, combine_map_map. fold work.
    replace (rc + Z.to_nat 1)%nat with (S rc) by lia.
    replace (rc + Z.to_nat 0)%nat with rc by lia.
    fold (v (S rc)) (v rc). rewrite Ham. cbn [bind].
    rewrite Hf1. cbn [bind]. rewrite Hf2. cbn [bind]. rewrite Err.
    rewrite (py_get_nth _ rr adj_loc Hloc). cbn [bind].
    rewrite <- Err, <- Erc. rewrite Hf3. cbn [bind]. rewrite Hf4. reflexivity.
  - assert (Hper : 0 <= N / P) by (apply Z.div_pos; lia).
    assert (Hperc : 0 <= F / Pc) by (apply Z.div_pos; lia).
    assert (Hle : P * (N / P) <= N) by (apply Z.mul_div_le; lia).
    assert (Hlec : Pc * (F / Pc) <= F) by (apply Z.mul_div_le; lia).
    unfold tile at 1 2 3 4. cbn [col_block row_block tabulate nrows ncols].
    unfold chunk_len. fold N F. split; [| split].
    + destruct (Z.eqb_spec rr0 (P - 1)); nia.
    + destruct (Z.eqb_spec rc0 (Pc - 1)); nia.
    + intros i j Hi Hj.
      pose proof (chunk_inside F Pc rc0 ltac:(lia) ltac:(lia)) as Hin.
      unfold chunk_len in Hin.
      rewrite get_tile; [reflexivity | exact Hi | exact Hj |].
      subst F. rewrite Nat2Z.id in Hin. unfold chunk_start in *. lia.
Qed.

Lemma twod_partition_feature_tile_witness :
  exists inputs_loc adj_loc,
    twod_partition isqrt_grid isqrt_grid 3 4 grid_features grid_edges true
      = Ok (inputs_loc, adj_loc)
    /\ Z.of_nat (nrows inputs_loc)
       = (if 3 / isqrt_grid 4 =? isqrt_grid 4 - 1
          then Z.of_nat (nrows grid_features)
               - Z.of_nat (nrows grid_features) / isqrt_grid 4 * (isqrt_grid 4 - 1)
          else Z.of_nat (nrows grid_features) / isqrt_grid 4)
    /\ Z.of_nat (ncols inputs_loc)
       = (if 3 mod isqrt_grid 4 =? isqrt_grid 4 - 1
          then Z.of_nat (ncols grid_features)
               - Z.of_nat (ncols grid_features) / isqrt_grid 4 * (isqrt_grid 4 - 1)
          else Z.of_nat (ncols grid_features) / isqrt_grid 4)
    /\ (forall i j, (i < nrows inputs_loc)%nat -> (j < ncols inputs_loc)%nat ->
          get inputs_loc i j
          = get grid_features
              (Z.to_nat (3 / isqrt_grid 4
                         * (Z.of_nat (nrows grid_features) / isqrt_grid 4)) + i)
              (Z.to_nat (3 mod isqrt_grid 4
                         * (Z.of_nat (ncols grid_features) / isqrt_grid 4)) + j)).
Proof.
  apply (twod_partition_feature_tile isqrt_grid isqrt_grid 3 4
           grid_features grid_edges true).
  - vm_compute. split; discriminate.
  - vm_compute. discriminate.
  - vm_compute. discriminate.
  - lia.
  - vm_compute. reflexivity.
  - vm_compute. reflexivity.
  - intros e He. cbn in He.
    repeat (destruct He as [<- | He]; [cbn; lia |]). contradiction.
Defined.

(** X14. With fewer nodes than grid rows the partition size [N // P_row]
    is zero and [twod_partition] raises [ValueError] from the [range] of
    [split_coo], whatever the rank and the edges. *)
Theorem twod_partition_few_nodes (proc_row_size proc_col_size : Z -> Z)
    (rank size : Z) (inputs0 : tensor) (adj : list edge) (normalize : bool) :
  Z.of_nat (nrows inputs0) < proc_row_size size ->
  proc_col_size size <> 0 ->
  twod_partition proc_row_size proc_col_size rank size inputs0 adj normalize
  = Raise ValueError.
Proof.
  intros HN HPc. unfold twod_partition, py_floordiv, int_truediv, py_mod.
  replace (proc_row_size size =? 0) with false by (symmetry; lia).
  replace (proc_col_size size =? 0) with false by (symmetry; lia).
  cbn [bind]. rewrite Z.div_small by lia.
  unfold split_coo, vtx_boundaries, py_range3. reflexivity.
Qed.

Lemma twod_partition_few_nodes_witness :
  twod_partition isqrt_grid isqrt_grid 0 4 one_node [(0, 0)] false
  = Raise ValueError.
Proof.
  apply (twod_partition_few_nodes isqrt_grid isqrt_grid 0 4 one_node).
  - reflexivity.
  - discriminate.
Defined.

(* ================================================================== *)
(** * The degree normalizer, entry by entry *)

Lemma entry_lt_trans (a b c : entry) : entry_lt a b -> entry_lt b c -> entry_lt a c.
Proof.
  destruct a as [[i j] x], b as [[i' j'] y], c as [[i'' j''] z].
  unfold entry_lt, key_ltb. cbn. lia.
Qed.

Lemma insert_entry_Forall (x e : entry) (l : list entry) :
  entry_lt x e -> Forall (entry_lt x) l -> Forall (entry_lt x) (insert_entry e l).
Proof.
  intros He. induction l as [| e' l IH]; intros Hl; cbn.
  - now constructor.
  - destruct e as [[i j] v], e' as [[i' j'] v'].
    apply Forall_cons_iff in Hl as [H1 H2].
    destruct (key_eqb i j i' j'); [| destruct (key_ltb i j i' j')].
    + constructor; assumption.
    + constructor; [assumption | now constructor].
    + constructor; [assumption | now apply IH].
Qed.

Lemma insert_entry_sorted (e : entry) (l : list entry) :
  StronglySorted entry_lt l -> StronglySorted entry_lt (insert_entry e l).
Proof.
  induction l as [| e' l IH]; intros Hs; cbn.
  - constructor; constructor.
  - destruct e as [[i j] v], e' as [[i' j'] v'].
    apply StronglySorted_inv in Hs as [Hs Hf].
    destruct (key_eqb i j i' j') eqn:Eq; [| destruct (key_ltb i j i' j') eqn:Lt].
    + constructor; [assumption |]. exact Hf.
    + constructor; [now constructor |].
      constructor; [exact Lt |].
      eapply Forall_impl; [| exact Hf].
      intros c Hc. apply (entry_lt_trans _ (i', j', v')); assumption.
    + constructor; [now apply IH |].
      apply insert_entry_Forall; [| assumption].
      unfold entry_lt, key_eqb, key_ltb in *. cbn. lia.
Qed.

Lemma coalesce_entries_sorted (l : list entry) :
  StronglySorted entry_lt (coalesce_entries l).
Proof.
  unfold coalesce_entries.
  assert (G : forall acc, StronglySorted entry_lt acc ->
              StronglySorted entry_lt
                (fold_left (fun acc e => insert_entry e acc) l acc)).
  { induction l as [| e l IH]; intros acc Ha; cbn; [assumption |].
    apply IH. now apply insert_entry_sorted. }
  apply G. constructor.
Qed.

Lemma insert_entry_last (e : entry) (l : list entry) :
  Forall (fun x => entry_lt x e) l -> insert_entry e l = l ++ [e].
Proof.
  induction l as [| e' l IH]; intros H; cbn; [reflexivity |].
  apply Forall_cons_iff in H as [H1 H2].
  destruct e as [[i j] v], e' as [[i' j'] v'].
  replace (key_eqb i j i' j') with false
    by (unfold entry_lt, key_eqb, key_ltb in *; cbn in H1; lia).
  replace (key_ltb i j i' j') with false
    by (unfold entry_lt, key_eqb, key_ltb in *; cbn in H1; lia).
  now rewrite IH.
Qed.

Lemma sorted_app_last (acc : list entry) (e : entry) (l : list entry) :
  StronglySorted entry_lt (acc ++ e :: l) -> Forall (fun x => entry_lt x e) acc.
Proof.
  induction acc as [| a acc IH]; intros H; cbn in *; [constructor |].
  apply StronglySorted_inv in H as [Hs Hf].
  constructor; [| now apply IH].
  apply Forall_app in Hf as [_ Hf]. now apply Forall_cons_iff in Hf as [Hf _].
Qed.

(** Coalescing a list already sorted without duplicates changes nothing. *)
Lemma coalesce_sorted_id (l : list entry) :
  StronglySorted entry_lt l -> coalesce_entries l = l.
Proof.
  unfold coalesce_entries.
  assert (G : forall acc, StronglySorted entry_lt (acc ++ l) ->
              fold_left (fun acc e => insert_entry e acc) l acc = acc ++ l).
  { induction l as [| e l IH]; intros acc Ha; cbn.
    - now rewrite app_nil_r.
    - rewrite insert_entry_last by (eapply sorted_app_last; exact Ha).
      rewrite IH; rewrite <- app_assoc; [reflexivity | exact Ha]. }
  intros H. now apply (G []).
Qed.

Lemma sorted_map_keys (g : entry -> entry) (l : list entry) :
  (forall e, fst (g e) = fst e) ->
  StronglySorted entry_lt l -> StronglySorted entry_lt (map g l).
Proof.
  intros Hg. induction 1 as [| a l Hs IH Hf]; cbn; constructor; [assumption |].
  apply Forall_map. eapply Forall_impl; [| exact Hf].
  intros c Hc. unfold entry_lt in *. now rewrite !Hg.
Qed.

Ltac bool_lia :=
  rewrite ?andb_true_iff, ?andb_false_iff, ?Z.leb_le, ?Z.ltb_lt,
          ?Z.leb_gt, ?Z.ltb_ge;
  lia.

Lemma flat_map_nil {A B} (f : A -> list B) (l : list A) :
  (forall a, In a l -> f a = []) -> flat_map f l = [].
Proof.
  induction l as [| a l IH]; intros H; cbn; [reflexivity |].
  rewrite (H a) by now left. apply IH. intros; apply H; now right.
Qed.

Lemma flat_map_of_map {A B C} (g : A -> B) (f : B -> list C) (l : list A) :
  flat_map f (map g l) = flat_map (fun a => f (g a)) l.
Proof. induction l as [| a l IH]; cbn; [reflexivity | now rewrite IH]. Qed.

(** The one index of [0 .. n-1] equal to [k]. *)
Lemma flat_map_select {B} (F : nat -> list B) (k : Z) (s n : nat) :
  flat_map (fun q => if k =? Z.of_nat q then F q else []) (seq s n) =
    if (Z.of_nat s <=? k) && (k <? Z.of_nat (s + n)) then F (Z.to_nat k) else [].
Proof.
  revert s. induction n as [| n IH]; intros s; cbn [seq flat_map].
  - destruct (Z.leb_spec (Z.of_nat s) k), (Z.ltb_spec k (Z.of_nat (s + 0)));
      cbn; try reflexivity; lia.
  - rewrite IH. destruct (Z.eqb_spec k (Z.of_nat s)) as [-> | Hne].
    + rewrite Nat2Z.id.
      replace ((Z.of_nat (S s) <=? Z.of_nat s) && _) with false
        by (symmetry; bool_lia).
      replace ((Z.of_nat s <=? Z.of_nat s) && (Z.of_nat s <? Z.of_nat (s + S n)))
        with true by (symmetry; bool_lia).
      now rewrite app_nil_r.
    + cbn [app].
      replace (s + S n)%nat with (S s + n)%nat by lia.
      destruct (Z.leb_spec (Z.of_nat (S s)) k), (Z.leb_spec (Z.of_nat s) k);
        cbn; try reflexivity; lia.
Qed.

(** The entries of a diagonal matrix built from [vals]. *)
Lemma combine_diag (n : Z) (vals : list float) :
  length vals = Z.to_nat n ->
  combine (diag_indices n) vals =
    map (fun q => (Z.of_nat q, Z.of_nat q, nth q vals PrimFloat.zero))
        (seq 0 (Z.to_nat n)).
Proof.
  unfold diag_indices, py_range. rewrite map_map.
  generalize (Z.to_nat n) as m. intros m. revert vals.
  assert (G : forall s vals, length vals = m ->
            combine (map (fun x => (Z.of_nat x, Z.of_nat x)) (seq s m)) vals
            = map (fun q => (Z.of_nat q, Z.of_nat q, nth (q - s) vals PrimFloat.zero))
                  (seq s m)).
  { induction m as [| m IH]; intros s [| x vals] H; cbn in *; try reflexivity;
      try discriminate.
    rewrite Nat.sub_diag. f_equal.
    rewrite IH by lia. apply map_ext_in. intros q Hq. apply in_seq in Hq.
    replace (q - s)%nat with (S (q - S s)) by lia. reflexivity. }
  intros vals H. rewrite G by assumption.
  apply map_ext. intros q. now rewrite Nat.sub_0_r.
Qed.

(** Multiplying on the right by a diagonal matrix scales each entry by the
    diagonal value of its column. *)
Lemma products_right_diag (A : list entry) (vals : list float) (w : nat) :
  (forall e, In e A -> 0 <= snd (fst e) < Z.of_nat w) ->
  flat_map (fun '(i, k, a) =>
     flat_map (fun '(k', j, b) => if k =? k' then [(i, j, fmul a b)] else [])
       (map (fun q => (Z.of_nat q, Z.of_nat q, nth q vals PrimFloat.zero))
            (seq 0 w))) A
  = map (fun '(i, j, a) =>
           (i, j, fmul a (nth (Z.to_nat j) vals PrimFloat.zero))) A.
Proof.
  induction A as [| [[i k] a] A IH]; intros H; cbn [flat_map map]; [reflexivity |].
  rewrite IH by (intros; apply H; now right).
  rewrite flat_map_of_map.
  rewrite (flat_map_select
             (fun q => [(i, Z.of_nat q, fmul a (nth q vals PrimFloat.zero))])).
  specialize (H _ (or_introl eq_refl)). cbn in H.
  replace ((Z.of_nat 0 <=? k) && (k <? Z.of_nat (0 + w))) with true
    by (symmetry; bool_lia).
  cbn [app]. now rewrite Z2Nat.id by lia.
Qed.

Lemma flat_map_split {B} (f g : nat -> list B) (r s n : nat) :
  (forall q, q <> r -> f q = []) ->
  (forall q, (q < r)%nat -> g q = []) ->
  flat_map (fun q => f q ++ g q) (seq s n)
  = flat_map f (seq s n) ++ flat_map g (seq s n).
Proof.
  intros Hf Hg. revert s. induction n as [| n IH]; intros s; cbn [seq flat_map];
    [reflexivity |].
  rewrite IH. destruct (Nat.lt_ge_cases s r) as [L | L].
  - rewrite (Hg s L), (Hf s) by lia. reflexivity.
  - rewrite (flat_map_nil f (seq (S s) n)).
    + now rewrite app_nil_r, <- app_assoc.
    + intros q Hq. apply in_seq in Hq. apply Hf. lia.
Qed.

(** Multiplying on the left by a diagonal matrix scales each entry by the
    diagonal value of its row, and keeps a sorted list in its order. *)
Lemma products_left_diag (X : list entry) (vals : list float) (h : nat) :
  StronglySorted entry_lt X ->
  (forall e, In e X -> 0 <= fst (fst e) < Z.of_nat h) ->
  flat_map (fun '(i, k, a) =>
     flat_map (fun '(k', j, b) => if k =? k' then [(i, j, fmul a b)] else []) X)
     (map (fun q => (Z.of_nat q, Z.of_nat q, nth q vals PrimFloat.zero))
          (seq 0 h))
  = map (fun '(i, j, b) =>
           (i, j, fmul (nth (Z.to_nat i) vals PrimFloat.zero) b)) X.
Proof.
  rewrite flat_map_of_map. cbv beta iota.
  induction 1 as [| [[i j] b] X Hs IH Hf]; intros Hin.
  - cbn. apply flat_map_nil. reflexivity.
  - cbn [flat_map map].
    specialize (IH (fun e He => Hin e (or_intror He))).
    pose proof (Hin _ (or_introl eq_refl)) as Hi. cbn in Hi.
    rewrite (flat_map_split
               (fun q => if Z.of_nat q =? i
                         then [(Z.of_nat q, j, fmul (nth q vals PrimFloat.zero) b)]
                         else [])
               _ (Z.to_nat i)).
    + rewrite IH. f_equal.
      rewrite (flat_map_ext _
                 (fun q => if i =? Z.of_nat q
                           then [(Z.of_nat q, j, fmul (nth q vals PrimFloat.zero) b)]
                           else []))
        by (intros q; now rewrite Z.eqb_sym).
      rewrite (flat_map_select
                 (fun q => [(Z.of_nat q, j, fmul (nth q vals PrimFloat.zero) b)])).
      replace ((Z.of_nat 0 <=? i) && (i <? Z.of_nat (0 + h))) with true
        by (symmetry; bool_lia).
      now rewrite Z2Nat.id by lia.
    + intros q Hq. destruct (Z.eqb_spec (Z.of_nat q) i); [lia | reflexivity].
    + intros q Hq. apply flat_map_nil. intros [[k' j'] b'] He.
      rewrite Forall_forall in Hf. specialize (Hf _ He).
      unfold entry_lt, key_ltb in Hf. cbn in Hf.
      destruct (Z.eqb_spec (Z.of_nat q) k'); [lia | reflexivity].
Qed.

Lemma nth_py_slice (deg : list float) (a h : Z) (q : nat) :
  0 <= a -> 0 <= h -> a + h <= Z.of_nat (length deg) -> (q < Z.to_nat h)%nat ->
  nth q (py_slice deg a (a + h)) PrimFloat.zero
  = nth (Z.to_nat a + q) deg PrimFloat.zero.
Proof.
  intros Ha Hh Hl Hq. unfold py_slice.
  replace (a <? 0) with false by (symmetry; lia).
  replace (a + h <? 0) with false by (symmetry; lia).
  rewrite nth_firstn, nth_skipn.
  replace (q <? _)%nat with true by (symmetry; apply Nat.ltb_lt; lia).
  f_equal. lia.
Qed.

Lemma in_bounds_all (r c : Z) (l : list entry) :
  forallb (in_bounds r c) l = true ->
  forall e, In e l -> 0 <= fst (fst e) < r /\ 0 <= snd (fst e) < c.
Proof.
  intros H [[i j] v] He. rewrite forallb_forall in H. specialize (H _ He).
  unfold in_bounds in H. cbn. lia.
Qed.

(** X15. With normalization on, and a block inside the graph,
    [scale_elements] coalesces the block and multiplies the value of each
    entry [(i, j)] by the scale factor of vertex [row_vtx + i] on the left
    and of vertex [col_vtx + j] on the right; the size and the indices of
    the coalesced block are kept. *)
Theorem scale_elements_entrywise (adj_matrix : list edge) (block : sparse)
    (node_count row_vtx col_vtx : Z) :
  0 < node_count ->
  forallb (in_bounds (sp_nrows block) (sp_ncols block)) (sp_entries block) = true ->
  0 <= sp_nrows block -> 0 <= sp_ncols block ->
  0 <= row_vtx -> row_vtx + sp_nrows block <= node_count ->
  0 <= col_vtx -> col_vtx + sp_ncols block <= node_count ->
  exists deg,
    degree_scale adj_matrix node_count = Ok deg
    /\ length deg = Z.to_nat node_count
    /\ scale_elements adj_matrix block node_count row_vtx col_vtx true
       = Ok (mkSparse (sp_nrows block) (sp_ncols block)
               (map (scale_entry deg row_vtx col_vtx)
                    (coalesce_entries (sp_entries block)))).
Proof.
  intros HN Hb Hr Hc Hrv Hrv' Hcv Hcv'. unfold scale_elements. cbn [negb].
  unfold degree_scale.
  destruct (histc_length (map fst adj_matrix) node_count HN) as (deg0 & -> & Hdeg0).
  cbn [bind coalesce sp_nrows sp_ncols sp_entries].
  set (deg := map pow_neg_half deg0).
  assert (Hdeg : length deg = Z.to_nat node_count)
    by (subst deg; now rewrite length_map).
  exists deg. split; [reflexivity |]. split; [exact Hdeg |].
  set (h := sp_nrows block) in *. set (w := sp_ncols block) in *.
  set (A := coalesce_entries (sp_entries block)).
  assert (HA : forallb (in_bounds h w) A = true)
    by now apply coalesce_entries_bounds.
  assert (HAs : StronglySorted entry_lt A) by apply coalesce_entries_sorted.
  pose proof (in_bounds_all h w A HA) as HAin.
  assert (Hl : length (py_slice deg row_vtx (row_vtx + h)) = Z.to_nat h)
    by (apply py_slice_length; lia).
  assert (Hrl : length (py_slice deg col_vtx (col_vtx + w)) = Z.to_nat w)
    by (apply py_slice_length; lia).
  rewrite diag_tensor_ok by assumption. cbn [bind].
  rewrite diag_tensor_ok by assumption. cbn [bind sp_entries].
  rewrite !combine_diag by assumption.
  unfold spspmm.
  rewrite products_right_diag
    by (intros e He; destruct (HAin e He); lia).
  match goal with
  | |- context [coalesce_entries (map ?g A)] => set (R := map g A)
  end.
  assert (HRs : StronglySorted entry_lt R).
  { subst R. apply sorted_map_keys; [| exact HAs]. now intros [[i j] a]. }
  rewrite (coalesce_sorted_id R HRs).
  rewrite products_left_diag; [| exact HRs |].
  2:{ intros e He. subst R. apply in_map_iff in He as ([[i j] a] & <- & He).
      destruct (HAin _ He). cbn in *. lia. }
  match goal with
  | |- context [coalesce_entries (map ?g R)] => set (L := map g R)
  end.
  assert (HLs : StronglySorted entry_lt L).
  { subst L. apply sorted_map_keys; [| exact HRs]. now intros [[i j] a]. }
  rewrite (coalesce_sorted_id L HLs).
  assert (EL : L = map (scale_entry deg row_vtx col_vtx) A).
  { subst L R. rewrite map_map. apply map_ext_in. intros [[i j] a] He.
    destruct (HAin _ He) as [Hi Hj]. cbn in Hi, Hj. unfold scale_entry.
    rewrite !nth_py_slice by lia.
    do 3 f_equal; [| f_equal]; f_equal; lia. }
  rewrite EL.
  unfold sparse_coo_tensor.
  replace ((h <? 0) || (w <? 0)) with false by (symmetry; lia).
  rewrite !length_map, Nat.eqb_refl. cbn [negb].
  rewrite combine_fst_snd.
  replace (forallb _ _) with true; [reflexivity |].
  symmetry. apply forallb_forall. intros e He.
  apply in_map_iff in He as ([[i j] a] & <- & He).
  destruct (HAin _ He) as [Hi Hj]. cbn in Hi, Hj. unfold scale_entry, in_bounds.
  bool_lia.
Qed.

Lemma scale_elements_entrywise_witness :
  exists deg,
    degree_scale grid_edges 5 = Ok deg
    /\ length deg = Z.to_nat 5
    /\ scale_elements grid_edges dup_block 5 2 2 true
       = Ok (mkSparse (sp_nrows dup_block) (sp_ncols dup_block)
               (map (scale_entry deg 2 2)
                    (coalesce_entries (sp_entries dup_block)))).
Proof.
  apply (scale_elements_entrywise grid_edges dup_block 5 2 2);
    try reflexivity; cbn; lia.
Defined.

Lemma fold_min_le (a : Z) (x : list Z) (u : Z) :
  In u x -> fold_right Z.min a x <= u.
Proof.
  induction x as [| y x IH]; intros H; cbn in *; [contradiction |].
  destruct H as [-> | H]; [lia | specialize (IH H); lia].
Qed.

Lemma fold_min_ge (a b : Z) (x : list Z) :
  b <= a -> (forall u, In u x -> b <= u) -> b <= fold_right Z.min a x.
Proof.
  intros Ha. induction x as [| y x IH]; intros H; cbn; [assumption |].
  pose proof (H y (or_introl eq_refl)).
  specialize (IH (fun u Hu => H u (or_intror Hu))). lia.
Qed.

Lemma fold_max_ge (a : Z) (x : list Z) (u : Z) :
  In u x -> u <= fold_right Z.max a x.
Proof.
  induction x as [| y x IH]; intros H; cbn in *; [contradiction |].
  destruct H as [-> | H]; [lia | specialize (IH H); lia].
Qed.

Lemma fold_max_le (a b : Z) (x : list Z) :
  a <= b -> (forall u, In u x -> u <= b) -> fold_right Z.max a x <= b.
Proof.
  intros Ha. induction x as [| y x IH]; intros H; cbn; [assumption |].
  pose proof (H y (or_introl eq_refl)).
  specialize (IH (fun u Hu => H u (or_intror Hu))). lia.
Qed.

Lemma hd_in (x : list Z) (u : Z) : In u x -> In (hd 0 x) x.
Proof. destruct x; cbn; [contradiction | auto]. Qed.

(** With the range [[0, N - 1]] a vertex falls in the bin of its number. *)
Lemma histc_bin_aligned (N v : Z) :
  2 <= N -> 0 <= v < N -> histc_bin 0 (N - 1) N v = v.
Proof.
  intros HN Hv. unfold histc_bin.
  replace ((v - 0) * N) with (v * (N - 1) + v) by lia.
  replace (N - 1 - 0) with (N - 1) by lia.
  destruct (Z.eq_dec v (N - 1)) as [-> | Hne].
  - replace ((N - 1) * (N - 1) + (N - 1)) with (N * (N - 1)) by lia.
    rewrite Z.div_mul by lia. rewrite Z.eqb_refl. lia.
  - rewrite Z.div_add_l by lia. rewrite (Z.div_small v) by lia.
    replace (v + 0 =? N) with false by (symmetry; lia). lia.
Qed.

Lemma length_filter_map {A B} (g : A -> B) (p : B -> bool) (l : list A) :
  length (filter p (map g l)) = length (filter (fun a => p (g a)) l).
Proof.
  induction l as [| a l IH]; cbn; [reflexivity |].
  destruct (p (g a)); cbn; now rewrite IH.
Qed.

Lemma filter_ext_in {A} (p q : A -> bool) (l : list A) :
  (forall a, In a l -> p a = q a) -> filter p l = filter q l.
Proof.
  induction l as [| a l IH]; intros H; cbn; [reflexivity |].
  rewrite (H a) by now left.
  rewrite IH by (intros; apply H; now right). reflexivity.
Qed.

(** With every source in [[0, N)] and both end vertices among the sources
    the bins of [histc] are the vertices. *)
Lemma histogram_counts_sources (adj_matrix : list edge) (node_count : Z) :
  1 <= node_count ->
  (forall e, In e adj_matrix -> 0 <= fst e < node_count) ->
  In 0 (map fst adj_matrix) ->
  In (node_count - 1) (map fst adj_matrix) ->
  degree_scale adj_matrix node_count
  = Ok (map (fun v => pow_neg_half (float_of_Z (out_degree adj_matrix v)))
            (py_range node_count)).
Proof.
  intros HN Hin H0 H1. unfold degree_scale, histc.
  replace (node_count <=? 0) with false by (symmetry; lia).
  set (x := map fst adj_matrix) in *.
  assert (Hx : forall u, In u x -> 0 <= u < node_count).
  { intros u Hu. subst x. apply in_map_iff in Hu as (e & <- & He). now apply Hin. }
  assert (Hhd : 0 <= hd 0 x < node_count) by (apply Hx, (hd_in x 0), H0).
  assert (Elo : fold_right Z.min (hd 0 x) x = 0).
  { apply Z.le_antisymm; [now apply fold_min_le |].
    apply fold_min_ge; [lia |]. intros u Hu. apply Hx in Hu. lia. }
  assert (Ehi : fold_right Z.max (hd 0 x) x = node_count - 1).
  { apply Z.le_antisymm; [| now apply fold_max_ge].
    apply fold_max_le; [lia |]. intros u Hu. apply Hx in Hu. lia. }
  rewrite Elo, Ehi.
  assert (Ebin : forall lo hi,
            (if 0 =? node_count - 1 then (0 - 1, node_count - 1 + 1)
             else (0, node_count - 1)) = (lo, hi) ->
            forall v, 0 <= v < node_count -> histc_bin lo hi node_count v = v).
  { intros lo hi E v Hv. destruct (Z.eqb_spec 0 (node_count - 1)) as [E1 | E1];
      injection E as <- <-.
    - replace node_count with 1 in * by lia. replace v with 0 by lia. reflexivity.
    - apply histc_bin_aligned; lia. }
  destruct (if 0 =? node_count - 1 then _ else _) as [lo hi] eqn:E.
  cbn [bind]. f_equal. rewrite map_map. apply map_ext_in. intros b Hb.
  do 2 f_equal. unfold out_degree. f_equal.
  subst x. rewrite length_filter_map. f_equal.
  apply filter_ext_in. intros e He.
  now rewrite (Ebin lo hi eq_refl (fst e) (Hin e He)).
Qed.

(** X16. When every source lies in [[0, N)], both vertex 0 and vertex
    [N - 1] have an outgoing edge and [N <= 2 ^ 26], the histogram of
    [scale_elements] is the out-degree of every vertex, and the scale
    factor of vertex [v] is [out_degree(v) ^ -0.5].  (The histogram takes
    its range from the least and the greatest source: the precondition is
    what lines the bins up with the vertices; the bound on [N] keeps the
    binary64 bin position of the library on the exact one.) *)
Theorem degree_scale_counts_sources (adj_matrix : list edge) (node_count : Z) :
  1 <= node_count <= 2 ^ 26 ->
  (forall e, In e adj_matrix -> 0 <= fst e < node_count) ->
  In 0 (map fst adj_matrix) ->
  In (node_count - 1) (map fst adj_matrix) ->
  degree_scale adj_matrix node_count
  = Ok (map (fun v => pow_neg_half (float_of_Z (out_degree adj_matrix v)))
            (py_range node_count)).
Proof.
  intros HN. apply histogram_counts_sources. lia.
Qed.

Lemma degree_scale_counts_sources_witness :
  degree_scale grid_edges 5
  = Ok (map (fun v => pow_neg_half (float_of_Z (out_degree grid_edges v)))
            (py_range 5)).
Proof.
  apply (degree_scale_counts_sources grid_edges 5).
  - lia.
  - intros e He. cbn in He.
    repeat (destruct He as [<- | He]; [cbn; lia |]). contradiction.
  - cbn. auto.
  - cbn. auto 10.
Defined.

(* ================================================================== *)
(** * Degree-zero vertices in the two normalizers *)

Lemma self_loops_sources (edge_index : list edge) (w : list float)
    (fill_value : float) (N : Z) :
  length w = length edge_index ->
  fst (add_remaining_self_loops edge_index w fill_value N)
  = filter (fun e => negb (is_self_loop e)) edge_index ++ diag_indices N.
Proof.
  intros H. unfold add_remaining_self_loops. cbn [fst].
  now rewrite (kept_edges edge_index w H).
Qed.

Lemma out_degree_pos (adj : list edge) (v : Z) :
  In v (map fst adj) -> 1 <= out_degree adj v.
Proof.
  intros H. apply in_map_iff in H as (e & He & Hin).
  unfold out_degree.
  assert (Hf : In e (filter (fun e0 => fst e0 =? v) adj)).
  { apply filter_In. split; [assumption |]. apply Z.eqb_eq. exact He. }
  destruct (filter (fun e0 => fst e0 =? v) adj); [contradiction | cbn [length]; lia].
Qed.

(** C3 (amended). [norm] gives a vertex whose degree (summed edge weight)
    is zero the scale factor 0, and the factor of every vertex is a
    function of its own degree (lines 33-34 on that one value), so no
    other factor changes.  [scale_elements] has no clamp; it is called by
    [twod_partition] only, on the edge list to which [main] has added a
    self loop for every node (lines 309-310, whenever normalization is
    on): there, for sources in [[0, N)] and [N <= 2 ^ 26], every vertex
    has a degree of at least 1 and its factor is [degree ^ -0.5], so a
    zero degree does not reach the 2D path. *)
Theorem zero_degree_scale_factors (edge_weight : list float) (row : list Z)
    (num_nodes : Z) (deg : list float)
    (edge_index : list edge) (w : list float) (fill_value : float)
    (node_count : Z) :
  scatter_add edge_weight row num_nodes = Ok deg ->
  length w = length edge_index ->
  1 <= node_count <= 2 ^ 26 ->
  (forall e, In e edge_index -> 0 <= fst e < node_count) ->
  (exists s,
     norm_deg_inv_sqrt edge_weight row num_nodes = Ok s
     /\ length s = length deg
     /\ forall v x, nth_error deg v = Some x ->
          nth_error s v = Some (clamped_scale x)
          /\ (PrimFloat.eqb x PrimFloat.zero = true ->
              nth_error s v = Some PrimFloat.zero))
  /\ (let adj_matrix :=
        fst (add_remaining_self_loops edge_index w fill_value node_count) in
      exists s,
        degree_scale adj_matrix node_count = Ok s
        /\ length s = Z.to_nat node_count
        /\ forall v, 0 <= v < node_count ->
             1 <= out_degree adj_matrix v
             /\ nth_error s (Z.to_nat v)
                = Some (pow_neg_half (float_of_Z (out_degree adj_matrix v)))).
Proof.
  intros Hdeg Hw HN Hin. split.
  - unfold norm_deg_inv_sqrt. rewrite Hdeg. cbn [bind].
    eexists. split; [reflexivity |]. split.
    + unfold clamp_inf. now rewrite !length_map.
    + intros v x Hv. unfold clamp_inf. rewrite map_map.
      rewrite (nth_error_map_some _ _ _ _ Hv). split; [reflexivity |].
      intros Hx. now rewrite (pow_neg_half_zero x Hx).
  - cbv zeta. rewrite (self_loops_sources edge_index w fill_value node_count Hw).
    set (adj := filter _ edge_index ++ diag_indices node_count).
    assert (Hloop : forall v, 0 <= v < node_count -> In v (map fst adj)).
    { intros v Hv. subst adj. rewrite map_app. apply in_or_app. right.
      unfold diag_indices. rewrite map_map. cbn [fst].
      apply in_map_iff. exists v. split; [reflexivity |].
      now apply in_py_range. }
    assert (Hsrc : forall e, In e adj -> 0 <= fst e < node_count).
    { intros e He. subst adj. apply in_app_or in He as [He | He].
      - apply filter_In in He as [He _]. now apply Hin.
      - unfold diag_indices in He. apply in_map_iff in He as (k & <- & Hk).
        apply in_py_range in Hk. exact Hk. }
    rewrite (histogram_counts_sources adj node_count ltac:(lia) Hsrc
               (Hloop 0 ltac:(lia)) (Hloop (node_count - 1) ltac:(lia))).
    eexists. split; [reflexivity |]. split.
    + now rewrite length_map, py_range_length.
    + intros v Hv. split; [apply out_degree_pos, Hloop, Hv |].
      unfold py_range. rewrite map_map.
      rewrite nth_error_map_seq by lia. now rewrite Z2Nat.id by lia.
Qed.

Lemma zero_degree_scale_factors_witness :
  (exists s,
     norm_deg_inv_sqrt [PrimFloat.one; PrimFloat.one] [0; 2] 3 = Ok s
     /\ length s = length [PrimFloat.one; PrimFloat.zero; PrimFloat.one]
     /\ forall v x,
          nth_error [PrimFloat.one; PrimFloat.zero; PrimFloat.one] v = Some x ->
          nth_error s v = Some (clamped_scale x)
          /\ (PrimFloat.eqb x PrimFloat.zero = true ->
              nth_error s v = Some PrimFloat.zero))
  /\ (let adj_matrix :=
        fst (add_remaining_self_loops sink_graph
               [PrimFloat.one; PrimFloat.one] PrimFloat.one 3) in
      exists s,
        degree_scale adj_matrix 3 = Ok s
        /\ length s = Z.to_nat 3
        /\ forall v, 0 <= v < 3 ->
             1 <= out_degree adj_matrix v
             /\ nth_error s (Z.to_nat v)
                = Some (pow_neg_half (float_of_Z (out_degree adj_matrix v)))).
Proof.
  apply (zero_degree_scale_factors [PrimFloat.one; PrimFloat.one] [0; 2] 3
           [PrimFloat.one; PrimFloat.zero; PrimFloat.one]
           sink_graph [PrimFloat.one; PrimFloat.one] PrimFloat.one 3).
  - reflexivity.
  - reflexivity.
  - lia.
  - intros e He. cbn in He.
    repeat (destruct He as [<- | He]; [cbn; lia |]). contradiction.
Defined.

(* ================================================================== *)
(** * The ring multiplier for every number of ranks *)

(** X17. An adjacency row-block with fewer columns than there are ranks
    (and at least one) gives the partition width [int(cols / size) = 0],
    which [torch.split] refuses: the first rank raises [RuntimeError] before
    any exchange. *)
Theorem blockRow_too_narrow (A H : tensor) (rest : list (tensor * tensor))
    (W : tensor) :
  (0 < ncols A)%nat ->
  (ncols A < S (length rest))%nat ->
  blockRow ((A, H) :: rest) W = Crashed RuntimeError.
Proof.
  intros H0 H1. unfold blockRow. cbn [length].
  unfold py_range. rewrite Nat2Z.id. cbn [seq map combine mapM].
  unfold blockRow_start at 1. cbn [fst snd].
  unfold blockRow_enter, int_truediv.
  replace (Z.of_nat (S (length rest)) =? 0) with false
    by (symmetry; apply Z.eqb_neq; lia).
  cbn [bind]. rewrite Z.quot_small by lia.
  unfold split_cols. cbn [Z.ltb Z.eqb Z.compare].
  replace (Nat.eqb (ncols A) 0) with false by (symmetry; apply Nat.eqb_neq; lia).
  reflexivity.
Qed.

Lemma blockRow_too_narrow_witness :
  blockRow [(of_rows [[1; 2]], of_rows [[1]]); (of_rows [[3; 4]], of_rows [[1]]);
            (of_rows [[5; 6]], of_rows [[1]])] ring_weight
  = Crashed RuntimeError.
Proof.
  apply (blockRow_too_narrow (of_rows [[1; 2]]) (of_rows [[1]])
           [(of_rows [[3; 4]], of_rows [[1]]); (of_rows [[5; 6]], of_rows [[1]])]
           ring_weight); cbn; lia.
Defined.

Lemma code_from_step (rank : Z) (sz i : nat) :
  (i < sz)%nat ->
  code_from rank (Z.of_nat sz) i =
    blockRow_iter rank (Z.of_nat sz) (Z.of_nat i)
    ++ code_from rank (Z.of_nat sz) (S i).
Proof.
  intros H. unfold code_from. rewrite Nat2Z.id.
  replace (sz - i)%nat with (S (sz - S i)) by lia.
  cbn [seq map flat_map]. now rewrite app_assoc.
Qed.

Lemma code_from_end (rank : Z) (sz : nat) :
  code_from rank (Z.of_nat sz) sz = [MulWeight].
Proof. unfold code_from. now rewrite Nat2Z.id, Nat.sub_diag. Qed.

Lemma blockRow_code_from (rank size : Z) :
  blockRow_code rank size = code_from rank size 0.
Proof. unfold blockRow_code, code_from, py_range. now rewrite Nat.sub_0_r. Qed.

Lemma exchange_as_written (rank size : Z) :
  0 <= rank < size ->
  (if rank =? 0
   then [Send ((rank + 1) mod size);
         Recv (if rank - 1 <? 0 then size - 1 else rank - 1)]
   else [Recv (if rank - 1 <? 0 then size - 1 else rank - 1);
         Send ((rank + 1) mod size)])
  = ring_exchange rank size.
Proof.
  intros H. rewrite (ring_src rank size H). reflexivity.
Qed.

Lemma advance_comm (rank size : Z) (rest : list instr) (s : store) :
  advance (ring_exchange rank size ++ rest) s
  = Ok (s, ring_exchange rank size ++ rest).
Proof. unfold ring_exchange. destruct (rank =? 0); reflexivity. Qed.

Lemma length_update {A} (l : list A) (i : nat) (a : A) :
  (i < length l)%nat -> length (update l (Z.of_nat i) a) = length l.
Proof.
  intros H. unfold update. rewrite Nat2Z.id.
  rewrite length_app, length_firstn. cbn [length]. rewrite length_skipn. lia.
Qed.

Lemma nth_update {A} (l : list A) (i j : nat) (a d : A) :
  (i < length l)%nat ->
  nth j (update l (Z.of_nat i) a) d = if (j =? i)%nat then a else nth j l d.
Proof.
  intros H. unfold update. rewrite Nat2Z.id.
  assert (Hf : length (firstn i l) = i) by (rewrite length_firstn; lia).
  destruct (Nat.eqb_spec j i) as [-> | Hne].
  - rewrite app_nth2 by lia. now rewrite Hf, Nat.sub_diag.
  - destruct (Nat.lt_ge_cases j i) as [L | L].
    + rewrite app_nth1 by lia. rewrite nth_firstn.
      now replace (j <? i)%nat with true by (symmetry; apply Nat.ltb_lt; lia).
    + rewrite app_nth2 by lia. rewrite Hf.
      replace (j - i)%nat with (S (j - S i)) by lia. cbn [nth].
      rewrite nth_skipn. f_equal. lia.
Qed.

Lemma skipn_nth_cons {A} (l : list A) (j : nat) (d : A) :
  (j < length l)%nat -> skipn j l = nth j l d :: skipn (S j) l.
Proof.
  revert j. induction l as [| a l IH]; intros j H; cbn in H; [lia |].
  destruct j as [| j]; [reflexivity |]. cbn. apply IH. lia.
Qed.

(** The scheduler picks the first rank blocked in a send whose peer is
    blocked in the matching receive. *)
Lemma find_transfer_at (net : list process) (k : nat) (d : Z)
    (rest : list instr) (q : process) :
  (k < length net)%nat ->
  (forall r, (r < k)%nat -> head_is_send (nth r net idle) = false) ->
  snd (nth k net idle) = Send d :: rest ->
  py_get net d = Ok q -> 0 <= d ->
  waits_recv_from q (Z.of_nat k) = true ->
  find_transfer net net 0 = Some (Z.of_nat k, d).
Proof.
  intros Hk Hbefore Hsend Hq Hd Hwait.
  assert (G : forall m j, (j + m = k)%nat ->
            find_transfer net (skipn j net) (Z.of_nat j) = Some (Z.of_nat k, d)).
  { induction m as [| m IH]; intros j Hj.
    - replace j with k by lia.
      rewrite (skipn_nth_cons net k idle Hk). cbn [find_transfer].
      rewrite Hsend, Hq, Hwait.
      replace (0 <=? d) with true by (symmetry; lia). reflexivity.
    - rewrite (skipn_nth_cons net j idle) by lia. cbn [find_transfer].
      specialize (Hbefore j ltac:(lia)). unfold head_is_send in Hbefore.
      replace (Z.of_nat j + 1) with (Z.of_nat (S j)) by lia.
      destruct (snd (nth j net idle)) as [| [] ?]; try discriminate;
        apply IH; lia. }
  apply (G k O). lia.
Qed.

Lemma all_done_false (net : list process) (k : nat) :
  (k < length net)%nat -> snd (nth k net idle) <> [] -> all_done net = false.
Proof.
  intros Hk Hne. destruct (all_done net) eqn:E; [| reflexivity].
  unfold all_done in E. rewrite forallb_forall in E.
  specialize (E (nth k net idle) (nth_In _ _ Hk)).
  destruct (snd (nth k net idle)); [now contradiction Hne | discriminate].
Qed.

Lemma all_done_true (net : list process) :
  (forall r, (r < length net)%nat -> snd (nth r net idle) = []) ->
  all_done net = true.
Proof.
  intros H. unfold all_done. apply forallb_forall. intros p Hp.
  apply (In_nth _ _ idle) in Hp as (r & Hr & <-). now rewrite H.
Qed.

Lemma py_get_rank {A} (l : list A) (r : nat) (d : A) :
  (r < length l)%nat -> py_get l (Z.of_nat r) = Ok (nth r l d).
Proof.
  intros H. rewrite (py_get_ok l _ d) by lia. now rewrite Nat2Z.id.
Qed.

(** A rendezvous between two different ranks of the job. *)
Lemma transfer_at (net : list process) (k d : nat) (rs : store)
    (sender' receiver' : process) :
  (k < length net)%nat -> (d < length net)%nat ->
  deliver (fst (nth d net idle)) (inputs (fst (nth k net idle))) = Ok rs ->
  advance (tl (snd (nth k net idle))) (fst (nth k net idle)) = Ok sender' ->
  advance (tl (snd (nth d net idle))) rs = Ok receiver' ->
  transfer net (Z.of_nat k) (Z.of_nat d)
  = Ok (update (update net (Z.of_nat k) sender') (Z.of_nat d) receiver').
Proof.
  intros Hk Hd H1 H2 H3. unfold transfer.
  rewrite (py_get_rank net k idle Hk). cbn [bind].
  rewrite (py_get_rank net d idle Hd). cbn [bind].
  rewrite H1. cbn [bind]. rewrite H2. cbn [bind]. rewrite H3. reflexivity.
Qed.

Lemma ring_exchange_rank (sz r : nat) :
  (2 <= sz)%nat -> (r < sz)%nat ->
  ring_exchange (Z.of_nat r) (Z.of_nat sz) =
    if (r =? 0)%nat
    then [Send (Z.of_nat (ring_next sz r)); Recv (Z.of_nat (sz - 1))]
    else [Recv (Z.of_nat (r - 1)); Send (Z.of_nat (ring_next sz r))].
Proof.
  intros Hsz Hr. unfold ring_exchange, ring_next.
  assert (E1 : (Z.of_nat r + 1) mod Z.of_nat sz
               = Z.of_nat (if (S r <? sz)%nat then S r else O)).
  { destruct (Nat.ltb_spec (S r) sz).
    - rewrite Z.mod_small by lia. lia.
    - replace (Z.of_nat r + 1) with (Z.of_nat sz) by lia.
      now rewrite Z.mod_same by lia. }
  rewrite E1. destruct (Nat.eqb_spec r 0) as [-> | Hne].
  - cbn [Z.of_nat Z.eqb]. do 3 f_equal.
    replace (0 - 1) with (Z.of_nat (sz - 1) + (-1) * Z.of_nat sz) by lia.
    rewrite Z.mod_add by lia. apply Z.mod_small. lia.
  - replace (Z.of_nat r =? 0) with false by (symmetry; lia).
    do 2 f_equal. rewrite Z.mod_small by lia. lia.
Qed.

Ltac nat_tests :=
  repeat match goal with
         | |- context [(?a =? ?b)%nat] =>
             first [ replace (a =? b)%nat with true
                       by (symmetry; apply Nat.eqb_eq; lia)
                   | replace (a =? b)%nat with false
                       by (symmetry; apply Nat.eqb_neq; lia) ]
         | |- context [(?a <? ?b)%nat] =>
             first [ replace (a <? b)%nat with true
                       by (symmetry; apply Nat.ltb_lt; lia)
                   | replace (a <? b)%nat with false
                       by (symmetry; apply Nat.ltb_ge; lia) ]
         | |- context [(?a <=? ?b)%nat] =>
             first [ replace (a <=? b)%nat with true
                       by (symmetry; apply Nat.leb_le; lia)
                   | replace (a <=? b)%nat with false
                       by (symmetry; apply Nat.leb_gt; lia) ]
         end.

Lemma ring_code_others (sz i k r : nat) :
  (r < sz)%nat -> (k < sz)%nat -> r <> k -> r <> ring_next sz k ->
  ring_code (Z.of_nat sz) i (S k) r = ring_code (Z.of_nat sz) i k r.
Proof.
  intros Hr Hk H1 H2. unfold ring_code, ring_next in *. rewrite Nat2Z.id.
  destruct (Nat.ltb_spec (S k) sz), (Nat.eqb_spec r 0),
           (Nat.lt_ge_cases k r); nat_tests; try reflexivity; lia.
Qed.

(** The code of the rank whose turn it is to send, and of its neighbour. *)
Lemma ring_code_sender (sz i k : nat) :
  (S i < sz)%nat -> (k < sz)%nat ->
  ring_code (Z.of_nat sz) i k k =
    Send (Z.of_nat (ring_next sz k))
    :: (if (k =? 0)%nat then [Recv (Z.of_nat (sz - 1))] else [])
    ++ Rebind :: code_from (Z.of_nat k) (Z.of_nat sz) (S i).
Proof.
  intros Hi Hk. unfold ring_code, at_round. rewrite Nat2Z.id.
  rewrite ring_exchange_rank by lia.
  destruct (Nat.eqb_spec k 0) as [-> | Hne]; nat_tests; reflexivity.
Qed.

Lemma ring_code_receiver (sz i k : nat) :
  (S i < sz)%nat -> (k < sz)%nat ->
  ring_code (Z.of_nat sz) i k (ring_next sz k) =
    Recv (Z.of_nat k)
    :: (if (ring_next sz k =? 0)%nat then []
        else [Send (Z.of_nat (ring_next sz (ring_next sz k)))])
    ++ Rebind :: code_from (Z.of_nat (ring_next sz k)) (Z.of_nat sz) (S i).
Proof.
  intros Hi Hk. unfold ring_code, at_round. rewrite Nat2Z.id.
  assert (Hd : (ring_next sz k < sz)%nat)
    by (unfold ring_next; destruct (Nat.ltb_spec (S k) sz); lia).
  rewrite ring_exchange_rank by lia.
  assert (Ed : ring_next sz k = if (S k <? sz)%nat then S k else O) by reflexivity.
  set (d := ring_next sz k) in *.
  destruct (Nat.ltb_spec (S k) sz) as [L | L]; nat_tests; cbn [app tl];
    do 2 f_equal; lia.
Qed.

Lemma ring_code_sender_after (sz i k : nat) :
  (S i < sz)%nat -> (k < sz)%nat ->
  ring_code (Z.of_nat sz) i (S k) k =
    if (k =? 0)%nat
    then Recv (Z.of_nat (sz - 1))
         :: Rebind :: code_from (Z.of_nat k) (Z.of_nat sz) (S i)
    else at_round (Z.of_nat k) (Z.of_nat sz) (S i).
Proof.
  intros Hi Hk. unfold ring_code. rewrite Nat2Z.id.
  destruct (Nat.eqb_spec k 0) as [-> | Hne]; nat_tests; [| reflexivity].
  unfold at_round. rewrite Nat2Z.id, ring_exchange_rank by lia.
  nat_tests. reflexivity.
Qed.

Lemma ring_code_receiver_after (sz i k : nat) :
  (S i < sz)%nat -> (k < sz)%nat ->
  ring_code (Z.of_nat sz) i (S k) (ring_next sz k) =
    if (ring_next sz k =? 0)%nat
    then at_round (Z.of_nat (ring_next sz k)) (Z.of_nat sz) (S i)
    else Send (Z.of_nat (ring_next sz (ring_next sz k)))
         :: Rebind :: code_from (Z.of_nat (ring_next sz k)) (Z.of_nat sz) (S i).
Proof.
  intros Hi Hk. unfold ring_code. rewrite Nat2Z.id.
  assert (Ed : ring_next sz k = if (S k <? sz)%nat then S k else O) by reflexivity.
  set (d := ring_next sz k) in *.
  destruct (Nat.ltb_spec (S k) sz) as [L | L]; nat_tests; [| reflexivity].
  unfold at_round. rewrite Nat2Z.id, ring_exchange_rank by lia.
  nat_tests. reflexivity.
Qed.

(** The ranks before the one whose turn it is are not blocked in a send. *)
Lemma ring_code_waiting (sz i k r : nat) (p : process) :
  (r < k)%nat -> (k < sz)%nat ->
  snd p = ring_code (Z.of_nat sz) i k r -> head_is_send p = false.
Proof.
  intros Hr Hk Hp. unfold head_is_send. rewrite Hp.
  unfold ring_code, at_round. rewrite Nat2Z.id.
  rewrite ring_exchange_rank by lia.
  destruct (Nat.eqb_spec r 0) as [-> | Hne]; nat_tests.
  - destruct (S i <? sz)%nat; reflexivity.
  - destruct (S (S i) <? sz)%nat; reflexivity.
Qed.

Lemma ring_code_round_over (sz i r : nat) :
  (r < sz)%nat ->
  ring_code (Z.of_nat sz) i sz r = ring_code (Z.of_nat sz) (S i) 0 r.
Proof.
  intros Hr. unfold ring_code. rewrite Nat2Z.id.
  destruct (Nat.eqb_spec r 0); nat_tests; reflexivity.
Qed.

Lemma ring_code_finished (sz i k r : nat) :
  (sz <= S i)%nat -> ring_code (Z.of_nat sz) i k r = [].
Proof.
  intros H. unfold ring_code, at_round. rewrite Nat2Z.id.
  nat_tests. now destruct (r =? 0)%nat, (k =? 0)%nat, (k <? sz)%nat,
                          (k <? r)%nat, (k =? r)%nat.
Qed.

Lemma split_cols_even (A : tensor) (sz n : nat) :
  (1 <= sz)%nat -> (0 < n)%nat -> ncols A = (sz * n)%nat ->
  split_cols A (Z.of_nat n)
  = Ok (map (fun k => col_block A (k * n) (Nat.min n (ncols A - k * n)))
            (seq 0 sz)).
Proof.
  intros Hsz Hn Hc. unfold split_cols.
  replace (Z.of_nat n <? 0) with false by (symmetry; lia).
  replace (Z.of_nat n =? 0) with false by (symmetry; lia).
  rewrite Nat2Z.id.
  replace ((ncols A + n - 1) / n)%nat with sz.
  2:{ apply (Nat.div_unique _ _ _ (n - 1)); nia. }
  now rewrite Nat.max_l by lia.
Qed.

Lemma combine_ranked {A} (l : list A) (d : A) :
  combine (py_range (Z.of_nat (length l))) l
  = map (fun r => (Z.of_nat r, nth r l d)) (seq 0 (length l)).
Proof.
  unfold py_range. rewrite Nat2Z.id.
  assert (G : forall s,
            combine (map Z.of_nat (seq s (length l))) l
            = map (fun r => (Z.of_nat r, nth (r - s) l d)) (seq s (length l))).
  { induction l as [| x l IH]; intros s; cbn; [reflexivity |].
    rewrite Nat.sub_diag. f_equal. rewrite IH.
    apply map_ext_in. intros r Hr. apply in_seq in Hr.
    replace (r - s)%nat with (S (r - S s)) by lia. reflexivity. }
  rewrite G. apply map_ext. intros r. now rewrite Nat.sub_0_r.
Qed.

Lemma ring_code_start (sz r : nat) :
  ring_code (Z.of_nat sz) 0 0 r = at_round (Z.of_nat r) (Z.of_nat sz) 0.
Proof.
  unfold ring_code. destruct (Nat.eqb_spec r 0); nat_tests; reflexivity.
Qed.

Lemma length_update2 {A} (l : list A) (k d : nat) (a b : A) :
  (k < length l)%nat -> (d < length l)%nat ->
  length (update (update l (Z.of_nat k) a) (Z.of_nat d) b) = length l.
Proof.
  intros Hk Hd. rewrite length_update by (rewrite length_update; lia).
  now apply length_update.
Qed.

Lemma nth_update2 {A} (l : list A) (k d r : nat) (a b x : A) :
  (k < length l)%nat -> (d < length l)%nat ->
  nth r (update (update l (Z.of_nat k) a) (Z.of_nat d) b) x
  = if (r =? d)%nat then b else if (r =? k)%nat then a else nth r l x.
Proof.
  intros Hk Hd. rewrite nth_update by (rewrite length_update; lia).
  now rewrite nth_update by assumption.
Qed.

Section RingRun.

Variable locals : list (tensor * tensor).
Variable W : tensor.
Variables sz n f : nat.

Hypothesis Hsz : length locals = sz.
Hypothesis Hn : (0 < n)%nat.
Hypothesis Hshape : forall r, (r < sz)%nat ->
  nrows (ring_adj locals r) = n /\ ncols (ring_adj locals r) = (sz * n)%nat
  /\ nrows (ring_feat locals r) = n /\ ncols (ring_feat locals r) = f.
Hypothesis HW : nrows W = f.

Lemma held_rank_lt (r j : nat) : (r < sz)%nat -> (held_rank sz r j < sz)%nat.
Proof.
  intros H. unfold held_rank.
  destruct j as [| [| j]]; [assumption | destruct (r =? 0)%nat; lia | lia].
Qed.

Lemma held_block_shape (r j : nat) :
  (r < sz)%nat ->
  nrows (held_block locals r j) = n /\ ncols (held_block locals r j) = f.
Proof.
  intros H. unfold held_block. rewrite Hsz.
  destruct (Hshape _ (held_rank_lt r j H)) as (_ & _ & H1 & H2). now split.
Qed.

Lemma ring_part_eq (r j : nat) :
  (r < sz)%nat ->
  ring_part locals n r j
  = col_block (ring_adj locals r) ((r + j) mod sz * n) n.
Proof.
  intros H. unfold ring_part, ring_parts. rewrite Hsz.
  destruct (Hshape r H) as (H1 & H2 & _).
  rewrite <- Nat2Z.inj_add, <- Nat2Z.inj_mod, Nat2Z.id.
  assert (Hp : ((r + j) mod sz < sz)%nat) by (apply Nat.mod_upper_bound; lia).
  rewrite (nth_map_seq
             (fun k => col_block (ring_adj locals r) (k * n)
                         (Nat.min n (ncols (ring_adj locals r) - k * n))))
    by lia.
  f_equal. nia.
Qed.

Lemma ring_part_shape (r j : nat) :
  (r < sz)%nat ->
  nrows (ring_part locals n r j) = n /\ ncols (ring_part locals n r j) = n.
Proof.
  intros H. rewrite ring_part_eq by assumption. cbn.
  destruct (Hshape r H) as (H1 & _). now split.
Qed.

Lemma ring_acc_shape (r c : nat) :
  nrows (ring_acc locals n f r c) = n /\ ncols (ring_acc locals n f r c) = f.
Proof. induction c as [| c IH]; cbn; [split; reflexivity | exact IH]. Qed.

Lemma py_get_part (r j : nat) :
  (r < sz)%nat ->
  py_get (ring_parts locals n r)
         ((Z.of_nat r + Z.of_nat j) mod Z.of_nat sz)
  = Ok (ring_part locals n r j).
Proof.
  intros H. unfold ring_part. rewrite Hsz. apply py_get_ok. unfold ring_parts.
  rewrite length_map, length_seq, Hsz. apply Z.mod_pos_bound. lia.
Qed.

(** One iteration of the loop body on the variables [store_of]: the
    accumulation, then the exchange is reached or the call ends. *)
Lemma advance_iter (r j m : nat) (b : bool) :
  (r < sz)%nat -> (j < sz)%nat ->
  inputs (store_of locals W n f r m b j) = held_block locals r j ->
  advance (code_from (Z.of_nat r) (Z.of_nat sz) j) (store_of locals W n f r m b j)
  = Ok (store_of locals W n f r m b (S j),
        at_round (Z.of_nat r) (Z.of_nat sz) j).
Proof.
  intros Hr Hj Hin.
  destruct (ring_part_shape r j Hr) as [Hp1 Hp2].
  destruct (held_block_shape r j Hr) as [Hh1 Hh2].
  destruct (ring_acc_shape r j) as [Ha1 Ha2].
  destruct (ring_acc_shape r (S j)) as [Hb1 Hb2].
  assert (Ez : z_loc (store_of locals W n f r m b j) = ring_acc locals n f r j).
  { unfold store_of. cbn [z_loc]. rewrite Hsz.
    now replace (sz <=? j)%nat with false by (symmetry; apply Nat.leb_gt; lia). }
  rewrite code_from_step by assumption.
  unfold blockRow_iter. cbv zeta. cbn [app].
  rewrite (advance_accumulate _ _ (ring_part locals n r j));
    [| apply (py_get_part r j Hr) | rewrite Hin; congruence
     | rewrite Ez; congruence | rewrite Hin, Ez; congruence].
  rewrite Hin, Ez.
  change (tabulate (nrows (ring_acc locals n f r j)) (ncols (ring_acc locals n f r j))
            (fun i0 j0 => get (ring_acc locals n f r j) i0 j0
               + sumZ (ncols (ring_part locals n r j))
                   (fun k => get (ring_part locals n r j) i0 k
                             * get (held_block locals r j) k j0)))
    with (ring_acc locals n f r (S j)).
  unfold at_round. rewrite Nat2Z.id.
  destruct (Nat.ltb_spec (S j) sz) as [L | L].
  - replace (Z.of_nat j =? Z.of_nat sz - 1) with false by (symmetry; lia).
    rewrite (exchange_as_written (Z.of_nat r) (Z.of_nat sz)) by lia.
    rewrite <- app_assoc. cbn [app]. rewrite advance_comm.
    do 2 f_equal. unfold store_of, set_z_loc. cbn. rewrite Hsz.
    now replace (sz <=? S j)%nat with false by (symmetry; apply Nat.leb_gt; lia).
  - replace (Z.of_nat j =? Z.of_nat sz - 1) with true by (symmetry; lia).
    cbn [app]. replace (S j) with sz by lia. rewrite code_from_end.
    rewrite advance_mulweight by (cbn; destruct (ring_acc_shape r sz); congruence).
    do 2 f_equal. unfold store_of, set_z_loc. cbn. rewrite Hsz.
    replace (sz <=? sz)%nat with true by (symmetry; apply Nat.leb_le; lia).
    unfold ring_final. rewrite Hsz. reflexivity.
Qed.

(** After its last call of an exchange a rank rebinds [inputs] to the
    block it received and runs the next iteration. *)
Lemma advance_rebind (r i : nat) (b : bool) :
  (r < sz)%nat -> (S i < sz)%nat ->
  advance (Rebind :: code_from (Z.of_nat r) (Z.of_nat sz) (S i))
          (store_of locals W n f r (S i) b (S i))
  = Ok (store_of locals W n f r (S i) true (S (S i)),
        at_round (Z.of_nat r) (Z.of_nat sz) (S i)).
Proof.
  intros Hr Hi. cbn [advance].
  change (set_rebound (store_of locals W n f r (S i) b (S i)))
    with (store_of locals W n f r (S i) true (S i)).
  apply advance_iter; [assumption | assumption | reflexivity].
Qed.

(** A received block lands in the receive buffer. *)
Lemma deliver_block (r m m' : nat) (b : bool) (c : nat) :
  (r < sz)%nat ->
  deliver (store_of locals W n f r m b c) (held_block locals r (S m'))
  = Ok (store_of locals W n f r (S m') b c).
Proof.
  intros Hr. destruct (held_block_shape r (S m') Hr) as [H1 H2].
  rewrite deliver_ok; [reflexivity | |]; unfold store_of; cbn [inputs_recv].
  - destruct m; [cbn; destruct (Hshape r Hr) as (_ & _ & H3 & _); congruence |].
    destruct (held_block_shape r (S m) Hr). congruence.
  - destruct m; [cbn; destruct (Hshape r Hr) as (_ & _ & _ & H3); congruence |].
    destruct (held_block_shape r (S m) Hr). congruence.
Qed.

Lemma store_of_ext (r m m' : nat) (b b' : bool) (c c' : nat) :
  m = m' -> b = b' -> c = c' ->
  store_of locals W n f r m b c = store_of locals W n f r m' b' c'.
Proof. now intros -> -> ->. Qed.

(** The block a rank sends in iteration [i] is the one its neighbour
    multiplies with in iteration [i + 1]. *)
Lemma sent_block (i k : nat) :
  (S i < sz)%nat -> (k < sz)%nat ->
  inputs (store_at locals W n f i k k)
  = held_block locals (ring_next sz k) (S i).
Proof.
  intros Hi Hk.
  assert (Ed : ring_next sz k = if (S k <? sz)%nat then S k else O) by reflexivity.
  set (d := ring_next sz k) in *.
  unfold store_at, round_got, round_done. rewrite Hsz.
  unfold held_block at 1. rewrite Hsz.
  destruct (Nat.eqb_spec k 0) as [-> | Hk0]; nat_tests; cbn [Nat.b2n];
    rewrite ?Nat.add_0_r.
  - destruct i as [| i].
    + cbn. unfold held_rank. rewrite Ed. nat_tests. reflexivity.
    + unfold store_of, inputs. cbn [inputs_is_recv inputs_recv inputs_arg].
      nat_tests. unfold held_block. rewrite Hsz.
      destruct i; reflexivity.
  - destruct i as [| i].
    + cbn. unfold held_rank.
      destruct (Nat.ltb_spec (S k) sz); nat_tests; f_equal; lia.
    + unfold store_of, inputs. cbn [inputs_is_recv inputs_recv inputs_arg].
      nat_tests. replace (S i + 1)%nat with (S (S i)) by lia.
      unfold held_block. now rewrite Hsz.
Qed.

Lemma store_at_others (i k r : nat) :
  (r < sz)%nat -> (k < sz)%nat -> r <> k -> r <> ring_next sz k ->
  store_at locals W n f i (S k) r = store_at locals W n f i k r.
Proof.
  intros Hr Hk H1 H2. unfold store_at, round_got, round_done, ring_next in *.
  rewrite Hsz.
  destruct (Nat.ltb_spec (S k) sz), (Nat.eqb_spec r 0),
           (Nat.lt_ge_cases k r); nat_tests; try reflexivity; lia.
Qed.

Lemma sender_advance (i k : nat) :
  (S i < sz)%nat -> (k < sz)%nat ->
  advance (tl (ring_code (Z.of_nat sz) i k k)) (store_at locals W n f i k k)
  = Ok (store_at locals W n f i (S k) k, ring_code (Z.of_nat sz) i (S k) k).
Proof.
  intros Hi Hk.
  rewrite ring_code_sender, ring_code_sender_after by assumption. cbn [tl].
  unfold store_at, round_got, round_done. rewrite Hsz.
  destruct (Nat.eqb_spec k 0) as [-> | Hk0]; nat_tests; cbn [Nat.b2n app].
  - reflexivity.
  - rewrite (store_of_ext k (i + 1) (S i) _ (0 <? i + 0)%nat (i + 1 + 0) (S i))
      by (try reflexivity; lia).
    rewrite advance_rebind by assumption.
    do 2 f_equal. apply store_of_ext; [lia | | lia].
    symmetry. apply Nat.ltb_lt. lia.
Qed.

Lemma receiver_advance (i k : nat) :
  (S i < sz)%nat -> (k < sz)%nat ->
  exists rs,
    deliver (store_at locals W n f i k (ring_next sz k))
            (inputs (store_at locals W n f i k k)) = Ok rs
    /\ advance (tl (ring_code (Z.of_nat sz) i k (ring_next sz k))) rs
       = Ok (store_at locals W n f i (S k) (ring_next sz k),
             ring_code (Z.of_nat sz) i (S k) (ring_next sz k)).
Proof.
  intros Hi Hk.
  rewrite sent_block by assumption.
  rewrite ring_code_receiver, ring_code_receiver_after by assumption. cbn [tl].
  assert (Ed : ring_next sz k = if (S k <? sz)%nat then S k else O) by reflexivity.
  set (d := ring_next sz k) in *.
  assert (Hd : (d < sz)%nat) by (destruct (Nat.ltb_spec (S k) sz); lia).
  unfold store_at at 1.
  rewrite deliver_block by assumption. eexists. split; [reflexivity |].
  unfold store_at, round_got, round_done. rewrite Hsz.
  destruct (Nat.ltb_spec (S k) sz) as [L | L]; nat_tests; cbn [Nat.b2n app].
  - cbn [advance]. do 2 f_equal. apply store_of_ext; try reflexivity; lia.
  - rewrite (store_of_ext d (S i) (S i) _ (0 <? i + 0)%nat (i + 1 + 0) (S i))
      by (try reflexivity; lia).
    rewrite advance_rebind by assumption.
    do 2 f_equal. apply store_of_ext; [lia | | lia].
    symmetry. apply Nat.ltb_lt. lia.
Qed.

Lemma nth_net_at (i k r : nat) :
  (r < sz)%nat ->
  nth r (net_at locals W n f i k) idle
  = (store_at locals W n f i k r, ring_code (Z.of_nat sz) i k r).
Proof.
  intros Hr. unfold net_at. rewrite Hsz.
  now rewrite (nth_map_seq
                 (fun r => (store_at locals W n f i k r,
                            ring_code (Z.of_nat sz) i k r))).
Qed.

Lemma length_net_at (i k : nat) : length (net_at locals W n f i k) = sz.
Proof. unfold net_at. now rewrite length_map, length_seq. Qed.

(** One transfer of the exchange: it is the turn of rank [k], its
    neighbour is waiting for it, and the job moves to the next turn. *)
Lemma net_step (i k : nat) :
  (S i < sz)%nat -> (k < sz)%nat ->
  all_done (net_at locals W n f i k) = false
  /\ find_transfer (net_at locals W n f i k) (net_at locals W n f i k) 0
     = Some (Z.of_nat k, Z.of_nat (ring_next sz k))
  /\ transfer (net_at locals W n f i k) (Z.of_nat k) (Z.of_nat (ring_next sz k))
     = Ok (net_at locals W n f i (S k)).
Proof.
  intros Hi Hk.
  assert (Hd : (ring_next sz k < sz)%nat)
    by (unfold ring_next; destruct (Nat.ltb_spec (S k) sz); lia).
  split; [| split].
  - apply (all_done_false _ k); [now rewrite length_net_at |].
    rewrite nth_net_at by assumption. cbn [snd].
    rewrite ring_code_sender by assumption. discriminate.
  - eapply (find_transfer_at _ k (Z.of_nat (ring_next sz k)) _
              (nth (ring_next sz k) (net_at locals W n f i k) idle)).
    + now rewrite length_net_at.
    + intros r Hr. apply (ring_code_waiting sz i k r); try lia.
      rewrite nth_net_at by lia. reflexivity.
    + rewrite nth_net_at by assumption. cbn [snd].
      apply ring_code_sender; assumption.
    + apply py_get_rank. now rewrite length_net_at.
    + lia.
    + unfold waits_recv_from. rewrite nth_net_at by assumption. cbn [snd].
      rewrite ring_code_receiver by assumption. apply Z.eqb_refl.
  - destruct (receiver_advance i k Hi Hk) as (rs & Hdel & Hadv).
    rewrite (transfer_at _ k (ring_next sz k) rs
               (store_at locals W n f i (S k) k,
                ring_code (Z.of_nat sz) i (S k) k)
               (store_at locals W n f i (S k) (ring_next sz k),
                ring_code (Z.of_nat sz) i (S k) (ring_next sz k))).
    + f_equal. apply (nth_ext _ _ idle idle).
      * rewrite length_update2, !length_net_at by (rewrite length_net_at; lia).
        reflexivity.
      * intros r Hr.
        rewrite length_update2, length_net_at in Hr by (rewrite length_net_at; lia).
        rewrite nth_update2 by (rewrite length_net_at; lia).
        rewrite !nth_net_at by assumption.
        destruct (Nat.eqb_spec r (ring_next sz k)) as [-> | Hrd];
          [reflexivity |].
        destruct (Nat.eqb_spec r k) as [-> | Hrk]; [reflexivity |].
        now rewrite store_at_others, ring_code_others.
    + now rewrite length_net_at.
    + now rewrite length_net_at.
    + rewrite !nth_net_at by assumption. exact Hdel.
    + rewrite nth_net_at by assumption. apply sender_advance; assumption.
    + rewrite nth_net_at by assumption. exact Hadv.
Qed.

Lemma net_round_over (i : nat) :
  net_at locals W n f i sz = net_at locals W n f (S i) 0.
Proof.
  unfold net_at. rewrite Hsz. apply map_ext_in. intros r Hr. apply in_seq in Hr.
  rewrite ring_code_round_over by lia. f_equal.
  unfold store_at, round_got, round_done. rewrite Hsz.
  destruct (Nat.eqb_spec r 0); nat_tests; cbn [Nat.b2n];
    apply store_of_ext; try lia; nat_tests; reflexivity.
Qed.

(** From any turn of any iteration the job runs to the end, given one unit
    of fuel per transfer left, and every rank returns its [ring_final]. *)
Lemma net_runs (fuel : nat) :
  forall i k,
    (k < sz)%nat -> ((sz - 1 - i) * sz <= fuel + k)%nat ->
    run fuel (net_at locals W n f i k)
    = Finished (map (ring_final locals W n f) (seq 0 sz)).
Proof.
  assert (Hend : forall fuel i k, (sz <= S i)%nat ->
            run fuel (net_at locals W n f i k)
            = Finished (map (ring_final locals W n f) (seq 0 sz))).
  { intros fuel0 i k Hi.
    assert (Hdone : all_done (net_at locals W n f i k) = true).
    { apply all_done_true. intros r Hr. rewrite length_net_at in Hr.
      rewrite nth_net_at by assumption. apply ring_code_finished. exact Hi. }
    destruct fuel0; cbn [run]; rewrite Hdone; f_equal;
      unfold net_at; rewrite map_map, Hsz; apply map_ext_in; intros r Hr;
      cbn [fst]; unfold store_at, store_of; cbn [z_loc]; rewrite Hsz;
      now replace (sz <=? i + 1 + _)%nat with true
        by (symmetry; apply Nat.leb_le; lia). }
  induction fuel as [| fuel IH]; intros i k Hk Hfuel;
    destruct (Nat.le_gt_cases sz (S i)) as [Hi | Hi];
    try (now apply Hend).
  - exfalso. nia.
  - destruct (net_step i k Hi Hk) as (Hnd & Hft & Htr).
    rewrite (run_step fuel _ _ _ _ Hnd Hft Htr).
    destruct (Nat.lt_ge_cases (S k) sz) as [L | L].
    + apply IH; lia.
    + replace (S k) with sz by lia. rewrite net_round_over.
      apply IH; [lia | nia].
Qed.

Lemma blockRow_enter_store (r : nat) :
  (r < sz)%nat ->
  blockRow_enter (ring_adj locals r) (ring_feat locals r) W (Z.of_nat sz)
  = Ok (store_of locals W n f r 0 false 0).
Proof.
  intros Hr. destruct (Hshape r Hr) as (H1 & H2 & H3 & H4).
  unfold blockRow_enter, int_truediv.
  replace (Z.of_nat sz =? 0) with false by (symmetry; lia).
  cbn [bind].
  replace (Z.of_nat (ncols (ring_adj locals r)) ÷ Z.of_nat sz) with (Z.of_nat n).
  2:{ rewrite Z.quot_div_nonneg by lia. rewrite H2.
      apply (Z.div_unique _ _ _ 0); nia. }
  rewrite (split_cols_even _ sz n ltac:(lia) Hn H2). cbn [bind].
  replace (Z.of_nat n <? 0) with false by (symmetry; lia).
  rewrite Nat2Z.id. unfold store_of, ring_parts. rewrite Hsz, H4.
  replace (sz <=? 0)%nat with false by (symmetry; apply Nat.leb_gt; lia).
  reflexivity.
Qed.

Lemma blockRow_start_store (r : nat) :
  (r < sz)%nat ->
  blockRow_start (Z.of_nat sz) W (Z.of_nat r)
    (nth r locals (zeros 0 0, zeros 0 0))
  = Ok (store_at locals W n f 0 0 r, ring_code (Z.of_nat sz) 0 0 r).
Proof.
  intros Hr. unfold blockRow_start.
  change (fst (nth r locals (zeros 0 0, zeros 0 0))) with (ring_adj locals r).
  change (snd (nth r locals (zeros 0 0, zeros 0 0))) with (ring_feat locals r).
  rewrite blockRow_enter_store by assumption. cbn [bind].
  rewrite blockRow_code_from, ring_code_start.
  rewrite advance_iter; [| assumption | lia | reflexivity].
  do 2 f_equal. unfold store_at, round_got, round_done. rewrite Hsz.
  destruct (Nat.eqb_spec r 0); nat_tests; reflexivity.
Qed.

(** The whole job. *)
Lemma blockRow_runs :
  blockRow locals W = Finished (map (ring_final locals W n f) (seq 0 sz)).
Proof.
  unfold blockRow. rewrite (combine_ranked locals (zeros 0 0, zeros 0 0)).
  rewrite Hsz.
  rewrite (mapM_ok _
             (fun x : Z * (tensor * tensor) =>
                (store_at locals W n f 0 0 (Z.to_nat (fst x)),
                 ring_code (Z.of_nat sz) 0 0 (Z.to_nat (fst x))))).
  - rewrite map_map. cbn [fst].
    replace (map _ (seq 0 sz)) with (net_at locals W n f 0 0).
    2:{ unfold net_at. rewrite Hsz. apply map_ext. intros r.
        now rewrite Nat2Z.id. }
    destruct (Nat.eq_dec sz 0) as [-> | Hpos].
    + unfold net_at. rewrite Hsz. reflexivity.
    + apply net_runs; [lia | nia].
  - intros [rank args] Hin. apply in_map_iff in Hin as (r & [= <- <-] & Hr).
    apply in_seq in Hr. cbn [fst]. rewrite Nat2Z.id.
    apply blockRow_start_store. lia.
Qed.

(** The accumulator and the result, entry by entry. *)
Lemma get_ring_acc (r c a b : nat) :
  (r < sz)%nat -> (a < n)%nat -> (b < f)%nat ->
  get (ring_acc locals n f r c) a b
  = sumZ c (fun j => sumZ n (fun k =>
      get (ring_adj locals r) a ((r + j) mod sz * n + k)
      * get (held_block locals r j) k b)).
Proof.
  intros Hr Ha Hb. induction c as [| c IH]; cbn [ring_acc sumZ].
  - unfold zeros. now rewrite get_tabulate.
  - unfold accum. destruct (ring_acc_shape r c) as [E1 E2].
    rewrite get_tabulate by lia. rewrite IH. f_equal.
    destruct (ring_part_shape r c Hr) as [_ ->].
    apply sumZ_ext. intros k Hk. f_equal.
    rewrite ring_part_eq by assumption. unfold col_block.
    destruct (Hshape r Hr) as (H1 & _).
    now rewrite get_tabulate by lia.
Qed.

Lemma get_ring_final (r a b : nat) :
  (r < sz)%nat -> (a < n)%nat -> (b < ncols W)%nat ->
  get (ring_final locals W n f r) a b
  = sumZ f (fun c =>
      sumZ sz (fun j => sumZ n (fun k =>
        get (ring_adj locals r) a ((r + j) mod sz * n + k)
        * get (held_block locals r j) k c))
      * get W c b).
Proof.
  intros Hr Ha Hb. unfold ring_final. rewrite Hsz.
  destruct (ring_acc_shape r sz) as [E1 E2].
  rewrite get_tabulate by lia. rewrite E2.
  apply sumZ_ext. intros c Hc. now rewrite get_ring_acc.
Qed.

End RingRun.

(** X18. What [blockRow] computes, for every number of ranks.  On tensors
    of matching shapes (per rank an [n x (size * n)] adjacency row-block
    and an [n x f] feature block, a weight of [f] rows) no rank raises, the
    exchange does not deadlock, and rank [r] returns the [n x ncols W]
    tensor [(sum_j A_r[(r + j) mod size] * X_(r,j)) * W], where [A_r[p]] is
    column partition [p] of its row-block and [X_(r,j)] is the feature
    block of rank [held_rank size r j]: its own block in iteration 0, the
    block of its left neighbour in iteration 1, and the block of the last
    rank in every later iteration.  With one or two ranks this is the
    block of rank [(r + j) mod size], the one the product needs. *)
Theorem blockRow_computes (locals : list (tensor * tensor)) (W : tensor)
    (n f : nat) :
  (0 < n)%nat ->
  (forall p, In p locals ->
     nrows (fst p) = n /\ ncols (fst p) = (length locals * n)%nat
     /\ nrows (snd p) = n /\ ncols (snd p) = f) ->
  nrows W = f ->
  exists zs,
    blockRow locals W = Finished zs
    /\ length zs = length locals
    /\ (forall r, (r < length locals)%nat ->
          let z := nth r zs (zeros 0 0) in
          nrows z = n /\ ncols z = ncols W
          /\ forall a b, (a < n)%nat -> (b < ncols W)%nat ->
               get z a b =
                 sumZ f (fun c =>
                   sumZ (length locals) (fun j => sumZ n (fun k =>
                     get (ring_adj locals r) a
                         ((r + j) mod length locals * n + k)
                     * get (held_block locals r j) k c))
                   * get W c b))
    /\ (forall r j, (length locals <= 2)%nat ->
          (r < length locals)%nat -> (j < length locals)%nat ->
          held_rank (length locals) r j = ((r + j) mod length locals)%nat).
Proof.
  intros Hn Hloc HW.
  assert (Hshape : forall r, (r < length locals)%nat ->
            nrows (ring_adj locals r) = n
            /\ ncols (ring_adj locals r) = (length locals * n)%nat
            /\ nrows (ring_feat locals r) = n
            /\ ncols (ring_feat locals r) = f).
  { intros r Hr. apply (Hloc (nth r locals (zeros 0 0, zeros 0 0))).
    now apply nth_In. }
  exists (map (ring_final locals W n f) (seq 0 (length locals))).
  split; [| split; [| split]].
  - apply (blockRow_runs locals W (length locals) n f); auto.
  - now rewrite length_map, length_seq.
  - intros r Hr. cbv zeta.
    rewrite (nth_map_seq (ring_final locals W n f)) by assumption.
    split; [| split].
    + unfold ring_final. cbn [nrows tabulate].
      apply (ring_acc_shape locals n f r (length locals)).
    + reflexivity.
    + intros a b Ha Hb.
      apply (get_ring_final locals W (length locals) n f); auto.
  - intros r j Hsz Hr Hj. unfold held_rank.
    destruct (length locals) as [| [| [| m]]]; try lia.
    + replace r with O by lia. replace j with O by lia. reflexivity.
    + destruct r as [| [| r]], j as [| [| j]]; try lia; reflexivity.
Qed.

Lemma blockRow_computes_witness :
  exists zs,
    blockRow ring3_locals ring_weight = Finished zs
    /\ length zs = length ring3_locals
    /\ (forall r, (r < length ring3_locals)%nat ->
          let z := nth r zs (zeros 0 0) in
          nrows z = 1%nat /\ ncols z = ncols ring_weight
          /\ forall a b, (a < 1)%nat -> (b < ncols ring_weight)%nat ->
               get z a b =
                 sumZ 1 (fun c =>
                   sumZ (length ring3_locals) (fun j => sumZ 1 (fun k =>
                     get (ring_adj ring3_locals r) a
                         ((r + j) mod length ring3_locals * 1 + k)
                     * get (held_block ring3_locals r j) k c))
                   * get ring_weight c b))
    /\ (forall r j, (length ring3_locals <= 2)%nat ->
          (r < length ring3_locals)%nat -> (j < length ring3_locals)%nat ->
          held_rank (length ring3_locals) r j
          = ((r + j) mod length ring3_locals)%nat).
Proof.
  apply (blockRow_computes ring3_locals ring_weight 1 1).
  - lia.
  - intros p Hp. cbn in Hp.
    repeat (destruct Hp as [<- | Hp]; [repeat split |]). contradiction.
  - reflexivity.
Defined.

(* ================================================================== *)
(** * The ring multiplier: the exchanges of the run *)


Lemma run_log_outcome (fuel : nat) (net : list process) :
  snd (run_log fuel net) = run fuel net.
Proof.
  revert net. induction fuel as [| fuel IH]; intros net; cbn [run_log run].
  - destruct (all_done net); reflexivity.
  - destruct (all_done net); [reflexivity |].
    destruct (find_transfer net net 0) as [[src dst] |]; [| reflexivity].
    destruct (transfer net src dst) as [net' |]; [| reflexivity].
    specialize (IH net'). destruct (run_log fuel net') as [log out].
    exact IH.
Qed.

Lemma blockRow_log_outcome (locals : list (tensor * tensor)) (W : tensor) :
  snd (blockRow_log locals W) = blockRow locals W.
Proof.
  unfold blockRow_log, blockRow.
  destruct (mapM _ _) as [net |]; [apply run_log_outcome | reflexivity].
Qed.

Lemma run_log_step (fuel : nat) (net net' : list process) (src dst : Z)
    (log : list exchange) (out : outcome) :
  all_done net = false ->
  find_transfer net net 0 = Some (src, dst) ->
  transfer net src dst = Ok net' ->
  run_log fuel net' = (log, out) ->
  run_log (S fuel) net
  = (mkExchange src (iteration_of (Z.of_nat (length net))
                                  (nth (Z.to_nat src) net idle))
                dst (iteration_of (Z.of_nat (length net))
                                  (nth (Z.to_nat dst) net idle)) :: log,
     out).
Proof.
  intros H1 H2 H3 H4. cbn [run_log]. now rewrite H1, H2, H3, H4.
Qed.

Lemma accumulates_iter (rank size i : Z) :
  length (filter is_accumulate (blockRow_iter rank size i)) = 1%nat.
Proof.
  unfold blockRow_iter. cbn [filter is_accumulate length].
  destruct (i =? size - 1); [reflexivity |].
  now destruct (rank =? 0).
Qed.

Lemma accumulates_code_from (rank : Z) (sz m j : nat) :
  (j + m = sz)%nat ->
  length (filter is_accumulate (code_from rank (Z.of_nat sz) j)) = m.
Proof.
  revert j. induction m as [| m IH]; intros j Hj.
  - replace j with sz by lia. now rewrite code_from_end.
  - rewrite code_from_step by lia.
    rewrite filter_app, length_app, accumulates_iter, (IH (S j)) by lia.
    reflexivity.
Qed.

Lemma ring_next_mod (sz k : nat) :
  (k < sz)%nat -> (Z.of_nat k + 1) mod Z.of_nat sz = Z.of_nat (ring_next sz k).
Proof.
  intros H. unfold ring_next. destruct (Nat.ltb_spec (S k) sz).
  - rewrite Z.mod_small by lia. lia.
  - replace (Z.of_nat k + 1) with (Z.of_nat sz) by lia.
    now rewrite Z.mod_same by lia.
Qed.

Lemma length_ring_round (sz : nat) (i : Z) :
  length (ring_round (Z.of_nat sz) i) = sz.
Proof. unfold ring_round. now rewrite length_map, py_range_length, Nat2Z.id. Qed.

Lemma ring_round_turn (sz : nat) (i : Z) (k : nat) :
  (k < sz)%nat ->
  skipn k (ring_round (Z.of_nat sz) i)
  = mkExchange (Z.of_nat k) i (Z.of_nat (ring_next sz k)) i
    :: skipn (S k) (ring_round (Z.of_nat sz) i).
Proof.
  intros H.
  rewrite (skipn_nth_cons _ k (mkExchange 0 0 0 0))
    by now rewrite length_ring_round.
  f_equal. unfold ring_round, py_range. rewrite map_map, Nat2Z.id.
  rewrite (nth_map_seq (fun q => mkExchange (Z.of_nat q) i
                                   ((Z.of_nat q + 1) mod Z.of_nat sz) i))
    by assumption.
  now rewrite ring_next_mod.
Qed.

Lemma ring_log_turn (sz i k : nat) :
  (S i < sz)%nat -> (S k < sz)%nat ->
  ring_log_from (Z.of_nat sz) i k
  = mkExchange (Z.of_nat k) (Z.of_nat i) (Z.of_nat (ring_next sz k)) (Z.of_nat i)
    :: ring_log_from (Z.of_nat sz) i (S k).
Proof.
  intros Hi Hk. unfold ring_log_from. rewrite Nat2Z.id.
  replace (S i <? sz)%nat with true by (symmetry; apply Nat.ltb_lt; lia).
  now rewrite ring_round_turn by lia.
Qed.

Lemma ring_log_last (sz i k : nat) :
  (S i < sz)%nat -> S k = sz ->
  ring_log_from (Z.of_nat sz) i k
  = mkExchange (Z.of_nat k) (Z.of_nat i) (Z.of_nat (ring_next sz k)) (Z.of_nat i)
    :: ring_log_from (Z.of_nat sz) (S i) 0.
Proof.
  intros Hi Hk. unfold ring_log_from. rewrite Nat2Z.id.
  replace (S i <? sz)%nat with true by (symmetry; apply Nat.ltb_lt; lia).
  rewrite ring_round_turn by lia.
  rewrite (skipn_all2 (n := S k)) by (rewrite length_ring_round; lia).
  cbn [app skipn]. f_equal.
  destruct (Nat.ltb_spec (S (S i)) sz) as [L | L].
  - replace (sz - 1 - S i)%nat with (S (sz - 1 - S (S i))) by lia.
    reflexivity.
  - now replace (sz - 1 - S i)%nat with O by lia.
Qed.

Section RingLog.

Variable locals : list (tensor * tensor).
Variable W : tensor.
Variables sz n f : nat.

Hypothesis Hsz : length locals = sz.
Hypothesis Hn : (0 < n)%nat.
Hypothesis Hshape : forall r, (r < sz)%nat ->
  nrows (ring_adj locals r) = n /\ ncols (ring_adj locals r) = (sz * n)%nat
  /\ nrows (ring_feat locals r) = n /\ ncols (ring_feat locals r) = f.
Hypothesis HW : nrows W = f.

(** Both ends of a transfer of iteration [i] are in iteration [i]. *)
Lemma iteration_sender (i k : nat) :
  (S i < sz)%nat -> (k < sz)%nat ->
  iteration_of (Z.of_nat sz) (nth k (net_at locals W n f i k) idle)
  = Z.of_nat i.
Proof.
  intros Hi Hk. rewrite (nth_net_at locals W sz n f Hsz) by assumption.
  unfold iteration_of. cbn [snd]. rewrite ring_code_sender by assumption.
  cbn [filter is_accumulate]. rewrite filter_app.
  replace (filter is_accumulate (if (k =? 0)%nat then _ else _)) with (@nil instr)
    by (now destruct (k =? 0)%nat).
  cbn [app filter is_accumulate].
  rewrite (accumulates_code_from _ sz (sz - S i)) by lia. lia.
Qed.

Lemma iteration_receiver (i k : nat) :
  (S i < sz)%nat -> (k < sz)%nat ->
  iteration_of (Z.of_nat sz)
    (nth (ring_next sz k) (net_at locals W n f i k) idle)
  = Z.of_nat i.
Proof.
  intros Hi Hk.
  assert (Hd : (ring_next sz k < sz)%nat)
    by (unfold ring_next; destruct (Nat.ltb_spec (S k) sz); lia).
  rewrite (nth_net_at locals W sz n f Hsz) by assumption.
  unfold iteration_of. cbn [snd]. rewrite ring_code_receiver by assumption.
  cbn [filter is_accumulate]. rewrite filter_app.
  replace (filter is_accumulate (if (ring_next sz k =? 0)%nat then _ else _))
    with (@nil instr) by (now destruct (ring_next sz k =? 0)%nat).
  cbn [app filter is_accumulate].
  rewrite (accumulates_code_from _ sz (sz - S i)) by lia. lia.
Qed.

(** From any turn of any iteration the job performs the transfers left of
    the ring schedule, and no other. *)
Lemma net_log (fuel : nat) :
  forall i k,
    (k < sz)%nat -> ((sz - 1 - i) * sz <= fuel + k)%nat ->
    run_log fuel (net_at locals W n f i k)
    = (ring_log_from (Z.of_nat sz) i k,
       Finished (map (ring_final locals W n f) (seq 0 sz))).
Proof.
  assert (Hout : forall fuel i k,
            (k < sz)%nat -> ((sz - 1 - i) * sz <= fuel + k)%nat ->
            snd (run_log fuel (net_at locals W n f i k))
            = Finished (map (ring_final locals W n f) (seq 0 sz))).
  { intros fuel0 i k Hk Hf. rewrite run_log_outcome.
    now apply (net_runs locals W sz n f Hsz Hn Hshape HW). }
  assert (Hend : forall fuel i k, (sz <= S i)%nat ->
            fst (run_log fuel (net_at locals W n f i k)) = []).
  { intros fuel0 i k Hi.
    assert (Hdone : all_done (net_at locals W n f i k) = true).
    { apply all_done_true. intros r Hr.
      rewrite (length_net_at locals W sz n f Hsz) in Hr.
      rewrite (nth_net_at locals W sz n f Hsz) by assumption.
      apply ring_code_finished. exact Hi. }
    destruct fuel0; cbn [run_log]; now rewrite Hdone. }
  assert (Hlog : forall fuel i k,
            (k < sz)%nat -> ((sz - 1 - i) * sz <= fuel + k)%nat ->
            fst (run_log fuel (net_at locals W n f i k))
            = ring_log_from (Z.of_nat sz) i k).
  { induction fuel0 as [| fuel0 IH]; intros i k Hk Hfuel;
      destruct (Nat.le_gt_cases sz (S i)) as [Hi | Hi];
      try (rewrite Hend by assumption; unfold ring_log_from;
           rewrite Nat2Z.id;
           now replace (S i <? sz)%nat with false
             by (symmetry; apply Nat.ltb_ge; lia)).
    - exfalso. nia.
    - destruct (net_step locals W sz n f Hsz Hn Hshape HW i k Hi Hk)
        as (Hnd & Hft & Htr).
      destruct (run_log fuel0 (net_at locals W n f i (S k))) as [log out] eqn:E.
      rewrite (run_log_step fuel0 _ _ _ _ log out Hnd Hft Htr E). cbn [fst].
      rewrite (length_net_at locals W sz n f Hsz), !Nat2Z.id.
      rewrite iteration_sender, iteration_receiver by assumption.
      replace log with (fst (run_log fuel0 (net_at locals W n f i (S k))))
        by now rewrite E.
      destruct (Nat.lt_ge_cases (S k) sz) as [L | L].
      + rewrite IH by lia. now rewrite (ring_log_turn sz i k).
      + replace (S k) with sz by lia.
        rewrite (net_round_over locals W sz n f Hsz Hn HW).
        rewrite IH by (try lia; nia). rewrite (ring_log_last sz i k) by lia.
        reflexivity. }
  intros i k Hk Hfuel.
  rewrite (surjective_pairing (run_log fuel (net_at locals W n f i k))).
  now rewrite Hlog, Hout.
Qed.

Lemma blockRow_log_runs :
  blockRow_log locals W
  = (flat_map (ring_round (Z.of_nat sz)) (py_range (Z.of_nat sz - 1)),
     Finished (map (ring_final locals W n f) (seq 0 sz))).
Proof.
  unfold blockRow_log. rewrite (combine_ranked locals (zeros 0 0, zeros 0 0)).
  rewrite Hsz.
  rewrite (mapM_ok _
             (fun x : Z * (tensor * tensor) =>
                (store_at locals W n f 0 0 (Z.to_nat (fst x)),
                 ring_code (Z.of_nat sz) 0 0 (Z.to_nat (fst x))))).
  - rewrite map_map. cbn [fst].
    replace (map _ (seq 0 sz)) with (net_at locals W n f 0 0).
    2:{ unfold net_at. rewrite Hsz. apply map_ext. intros r.
        now rewrite Nat2Z.id. }
    destruct (Nat.eq_dec sz 0) as [E0 | Hpos].
    + unfold net_at. rewrite Hsz, E0. reflexivity.
    + rewrite (net_log (sz * sz) 0 0); [| lia | nia]. f_equal.
      unfold ring_log_from, py_range. rewrite Nat2Z.id.
      destruct (Nat.ltb_spec 1 sz) as [L | L].
      * replace (Z.to_nat (Z.of_nat sz - 1)) with (S (sz - 1 - 1)) by lia.
        reflexivity.
      * now replace (Z.to_nat (Z.of_nat sz - 1)) with O by lia.
  - intros [rank args] Hin. apply in_map_iff in Hin as (r & [= <- <-] & Hr).
    apply in_seq in Hr. cbn [fst]. rewrite Nat2Z.id.
    apply (blockRow_start_store locals W sz n f Hsz Hn Hshape HW). lia.
Qed.

End RingLog.

Lemma flat_map_ext_on {A B} (f g : A -> list B) (l : list A) :
  (forall a, In a l -> f a = g a) -> flat_map f l = flat_map g l.
Proof.
  induction l as [| a l IH]; intros H; cbn [flat_map]; [reflexivity |].
  rewrite (H a) by now left.
  rewrite IH by (intros; apply H; now right). reflexivity.
Qed.

Lemma calls_of_flat_map {A} (rank : Z) (g : A -> list exchange) (l : list A) :
  calls_of rank (flat_map g l) = flat_map (fun a => calls_of rank (g a)) l.
Proof.
  unfold calls_of. induction l as [| a l IH]; cbn [flat_map]; [reflexivity |].
  now rewrite flat_map_app, IH.
Qed.

(** The calls of one rank in one round of the ring: its exchange, in the
    order its code has it. *)
Lemma calls_of_round (sz r : nat) (i : Z) :
  (2 <= sz)%nat -> (r < sz)%nat ->
  calls_of (Z.of_nat r) (ring_round (Z.of_nat sz) i)
  = map (pair i) (ring_exchange (Z.of_nat r) (Z.of_nat sz)).
Proof.
  intros Hsz Hr. rewrite ring_exchange_rank by assumption.
  unfold calls_of, ring_round, py_range.
  rewrite Nat2Z.id, map_map, flat_map_of_map. cbn [src_rank src_iter dst_rank dst_iter].
  set (F := fun q : nat =>
              (if Z.of_nat q =? Z.of_nat r
               then [(i, Send (Z.of_nat (ring_next sz q)))] else [])
              ++ (if Z.of_nat (ring_next sz q) =? Z.of_nat r
                  then [(i, Recv (Z.of_nat q))] else [])).
  transitivity (flat_map F (seq 0 sz)).
  { apply flat_map_ext_on. intros q Hq. apply in_seq in Hq. subst F. cbv beta.
    now rewrite ring_next_mod by lia. }
  assert (Hno : forall s m, (forall q, (s <= q < s + m)%nat ->
                               q <> r /\ ring_next sz q <> r) ->
                flat_map F (seq s m) = []).
  { intros s m H. apply flat_map_nil. intros q Hq. apply in_seq in Hq.
    destruct (H q Hq) as [H1 H2]. subst F. cbv beta.
    replace (Z.of_nat q =? Z.of_nat r) with false by (symmetry; lia).
    now replace (Z.of_nat (ring_next sz q) =? Z.of_nat r) with false
      by (symmetry; lia). }
  destruct (Nat.eqb_spec r 0) as [-> | Hne].
  - assert (E : seq 0 sz = seq 0 1 ++ seq 1 (sz - 2) ++ seq (sz - 1) 1).
    { replace (sz - 1)%nat with (1 + (sz - 2))%nat by lia.
      rewrite <- !seq_app. f_equal. lia. }
    rewrite E, !flat_map_app, (Hno 1%nat).
    2:{ intros q Hq. unfold ring_next.
        destruct (Nat.ltb_spec (S q) sz); lia. }
    cbn [seq flat_map app]. subst F. cbv beta. unfold ring_next.
    nat_tests. rewrite Z.eqb_refl.
    replace (Z.of_nat 1 =? Z.of_nat 0) with false by reflexivity.
    replace (Z.of_nat (sz - 1) =? Z.of_nat 0) with false
      by (symmetry; apply Z.eqb_neq; lia).
    reflexivity.
  - assert (E : seq 0 sz
                = seq 0 (r - 1) ++ seq (r - 1) 2 ++ seq (S r) (sz - S r)).
    { replace (S r) with (r - 1 + 2)%nat by lia.
      rewrite <- seq_app.
      replace (r - 1)%nat with (0 + (r - 1))%nat at 2 by lia.
      rewrite <- seq_app. f_equal. lia. }
    rewrite E, !flat_map_app, (Hno 0%nat), (Hno (S r)).
    2:{ intros q Hq. unfold ring_next. destruct (Nat.ltb_spec (S q) sz); lia. }
    2:{ intros q Hq. unfold ring_next. destruct (Nat.ltb_spec (S q) sz); lia. }
    cbn [seq flat_map app]. rewrite app_nil_r. subst F. cbv beta.
    replace (S (r - 1)) with r by lia.
    replace (Z.of_nat (r - 1) =? Z.of_nat r) with false
      by (symmetry; apply Z.eqb_neq; lia).
    rewrite Z.eqb_refl.
    replace (Z.of_nat (ring_next sz (r - 1)) =? Z.of_nat r) with true
      by (symmetry; apply Z.eqb_eq; unfold ring_next;
          destruct (Nat.ltb_spec (S (r - 1)) sz); lia).
    replace (Z.of_nat (ring_next sz r) =? Z.of_nat r) with false
      by (symmetry; apply Z.eqb_neq; unfold ring_next;
          destruct (Nat.ltb_spec (S r) sz); lia).
    reflexivity.
Qed.

Lemma calls_of_ring (size rank : Z) :
  0 <= rank < size ->
  calls_of rank (flat_map (ring_round size) (py_range (size - 1)))
  = flat_map
      (fun i =>
         if i =? size - 1 then []
         else if rank =? 0
              then [(i, Send ((rank + 1) mod size));
                    (i, Recv ((rank - 1) mod size))]
              else [(i, Recv ((rank - 1) mod size));
                    (i, Send ((rank + 1) mod size))])
      (py_range size).
Proof.
  intros Hr. rewrite calls_of_flat_map.
  assert (E : py_range size = py_range (size - 1) ++ [size - 1]).
  { replace size with (size - 1 + 1) at 1 by lia. apply py_range_succ. lia. }
  rewrite E. clear E. rewrite flat_map_app.
  cbn [flat_map]. rewrite Z.eqb_refl, !app_nil_r.
  apply flat_map_ext_on. intros i Hi. apply in_py_range in Hi.
  replace (i =? size - 1) with false by (symmetry; lia).
  pose proof (calls_of_round (Z.to_nat size) (Z.to_nat rank) i
                ltac:(lia) ltac:(lia)) as E'.
  rewrite !Z2Nat.id in E' by lia. rewrite E'.
  unfold ring_exchange. now destruct (rank =? 0).
Qed.

(** C8. Over the run of the job, on tensors of matching shapes: no rank
    raises, the exchange does not deadlock, and the transfers that take
    place are, for every iteration [i < size - 1] in turn, once round the
    ring from rank 0, each from a rank in iteration [i] to its right
    neighbour in iteration [i].  So in every iteration [i < size - 1] a
    rank completes one send to [(rank + 1) mod size] and one receive from
    [(rank - 1) mod size], rank 0 the send first and every other rank the
    receive first, and in iteration [size - 1] it completes none. *)
Theorem blockRow_exchange_order (locals : list (tensor * tensor)) (W : tensor)
    (n f : nat) :
  (0 < n)%nat ->
  (forall p, In p locals ->
     nrows (fst p) = n /\ ncols (fst p) = (length locals * n)%nat
     /\ nrows (snd p) = n /\ ncols (snd p) = f) ->
  nrows W = f ->
  let size := Z.of_nat (length locals) in
  exists zs,
    blockRow locals W = Finished zs
    /\ blockRow_log locals W
       = (flat_map (ring_round size) (py_range (size - 1)), Finished zs)
    /\ forall rank, 0 <= rank < size ->
         calls_of rank (fst (blockRow_log locals W))
         = flat_map
             (fun i =>
                if i =? size - 1 then []
                else if rank =? 0
                     then [(i, Send ((rank + 1) mod size));
                           (i, Recv ((rank - 1) mod size))]
                     else [(i, Recv ((rank - 1) mod size));
                           (i, Send ((rank + 1) mod size))])
             (py_range size).
Proof.
  intros Hn Hloc HW size.
  assert (Hshape : forall r, (r < length locals)%nat ->
            nrows (ring_adj locals r) = n
            /\ ncols (ring_adj locals r) = (length locals * n)%nat
            /\ nrows (ring_feat locals r) = n
            /\ ncols (ring_feat locals r) = f).
  { intros r Hr. apply (Hloc (nth r locals (zeros 0 0, zeros 0 0))).
    now apply nth_In. }
  pose proof (blockRow_log_runs locals W (length locals) n f
                eq_refl Hn Hshape HW) as Hlog.
  exists (map (ring_final locals W n f) (seq 0 (length locals))).
  split; [| split].
  - rewrite <- blockRow_log_outcome. now rewrite Hlog.
  - exact Hlog.
  - intros rank Hr. rewrite Hlog. cbn [fst]. now apply calls_of_ring.
Qed.

Lemma blockRow_exchange_order_witness :
  let size := Z.of_nat (length ring3_locals) in
  exists zs,
    blockRow ring3_locals ring_weight = Finished zs
    /\ blockRow_log ring3_locals ring_weight
       = (flat_map (ring_round size) (py_range (size - 1)), Finished zs)
    /\ forall rank, 0 <= rank < size ->
         calls_of rank (fst (blockRow_log ring3_locals ring_weight))
         = flat_map
             (fun i =>
                if i =? size - 1 then []
                else if rank =? 0
                     then [(i, Send ((rank + 1) mod size));
                           (i, Recv ((rank - 1) mod size))]
                     else [(i, Recv ((rank - 1) mod size));
                           (i, Send ((rank + 1) mod size))])
             (py_range size).
Proof.
  apply (blockRow_exchange_order ring3_locals ring_weight 1 1).
  - lia.
  - intros p Hp. cbn in Hp.
    repeat (destruct Hp as [<- | Hp]; [repeat split |]). contradiction.
  - reflexivity.
Defined.

(* ================================================================== *)
(** * The accuracies of [test] *)

Lemma selected_le {A} (mask : list bool) (l : list A) :
  (length (filter fst (combine mask l)) <= length (filter (fun b : bool => b) mask))%nat.
Proof.
  revert l. induction mask as [| b mask IH]; intros [| a l]; cbn; try lia.
  specialize (IH l). destruct b; cbn; lia.
Qed.

Lemma selected_eq {A} (mask : list bool) (l : list A) :
  length mask = length l ->
  length (filter fst (combine mask l)) = length (filter (fun b : bool => b) mask).
Proof.
  revert l. induction mask as [| b mask IH]; intros [| a l] H; cbn in *;
    try reflexivity; try discriminate.
  specialize (IH l ltac:(lia)). destruct b; cbn; lia.
Qed.

Lemma accuracy_bounds (logits : tensor) (y : list Z) (mask : list bool) (a : Q) :
  accuracy logits y mask = Ok a -> (0 <= a <= 1)%Q.
Proof.
  unfold accuracy, max_indices, mask_select. intros H.
  destruct (Nat.eqb (length mask) (nrows logits)); [| discriminate]. cbn [bind] in H.
  destruct (Nat.eqb (ncols logits) 0); [discriminate |]. cbn [bind] in H.
  destruct (Nat.eqb (length mask) (length y)); [| discriminate]. cbn [bind] in H.
  destruct (Z.eqb_spec (count_true mask) 0) as [E | E]; [discriminate |].
  injection H as <-.
  set (pred := map argmax _). set (labels := map snd _).
  set (hits := filter _ (combine pred labels)).
  assert (Hc : (length hits <= length (filter (fun b : bool => b) mask))%nat).
  { subst hits. etransitivity; [apply filter_length_le |].
    rewrite length_combine. etransitivity; [apply Nat.le_min_l |].
    subst pred. rewrite !length_map. apply selected_le. }
  unfold count_true in *.
  unfold Qle. cbn [Qnum Qden]. rewrite Z2Pos.id by lia. lia.
Qed.

(** X19. Whenever [test] returns, it returns three accuracies, for the
    training, the validation and the test mask in this order, and each
    lies between 0 and 1. *)
Theorem test_accuracies_bounded (outputs : tensor) (y : list Z)
    (train_mask val_mask test_mask : list bool) (accs : list Q) :
  test outputs y train_mask val_mask test_mask = Ok accs ->
  exists a_train a_val a_test,
    accs = [a_train; a_val; a_test]
    /\ accuracy outputs y train_mask = Ok a_train
    /\ accuracy outputs y val_mask = Ok a_val
    /\ accuracy outputs y test_mask = Ok a_test
    /\ (0 <= a_train <= 1)%Q /\ (0 <= a_val <= 1)%Q /\ (0 <= a_test <= 1)%Q.
Proof.
  unfold test. cbn [mapM]. intros H.
  destruct (accuracy outputs y train_mask) as [a1 |] eqn:E1; [| discriminate].
  destruct (accuracy outputs y val_mask) as [a2 |] eqn:E2; [| discriminate].
  destruct (accuracy outputs y test_mask) as [a3 |] eqn:E3; [| discriminate].
  cbn in H. injection H as <-.
  exists a1, a2, a3. repeat split; try reflexivity;
    first [ apply (accuracy_bounds _ _ _ _ E1)
          | apply (accuracy_bounds _ _ _ _ E2)
          | apply (accuracy_bounds _ _ _ _ E3) ].
Qed.

Lemma test_accuracies_bounded_witness :
  exists a_train a_val a_test,
    [1 # 2; 1 # 1; 1 # 1]%Q = [a_train; a_val; a_test]
    /\ accuracy four_logits four_labels mask_train = Ok a_train
    /\ accuracy four_logits four_labels mask_val = Ok a_val
    /\ accuracy four_logits four_labels mask_test = Ok a_test
    /\ (0 <= a_train <= 1)%Q /\ (0 <= a_val <= 1)%Q /\ (0 <= a_test <= 1)%Q.
Proof.
  apply (test_accuracies_bounded four_logits four_labels
           mask_train mask_val mask_test).
  reflexivity.
Defined.

Lemma accuracy_outcome (logits : tensor) (y : list Z) (mask : list bool) :
  nrows logits = length y -> (0 < ncols logits)%nat ->
  length mask = length y ->
  if count_true mask =? 0 then accuracy logits y mask = Raise ZeroDivisionError
  else exists a, accuracy logits y mask = Ok a.
Proof.
  intros Hr Hc Hm. unfold accuracy, max_indices, mask_select.
  rewrite Hr, Hm, Nat.eqb_refl. cbn [bind].
  replace (Nat.eqb (ncols logits) 0) with false
    by (symmetry; apply Nat.eqb_neq; lia).
  cbn [bind]. destruct (count_true mask =? 0); [reflexivity | now eexists].
Qed.

(** X20. On logits with one row per label and at least one class, and
    masks with one flag per node, [test] raises no error other than the
    division by zero of an empty mask: it returns its three accuracies when
    every mask selects a node, and raises [ZeroDivisionError] as soon as
    one of them selects none. *)
Theorem test_empty_mask (outputs : tensor) (y : list Z)
    (train_mask val_mask test_mask : list bool) :
  nrows outputs = length y -> (0 < ncols outputs)%nat ->
  length train_mask = length y ->
  length val_mask = length y ->
  length test_mask = length y ->
  if (count_true train_mask =? 0) || (count_true val_mask =? 0)
     || (count_true test_mask =? 0)
  then test outputs y train_mask val_mask test_mask = Raise ZeroDivisionError
  else exists accs, test outputs y train_mask val_mask test_mask = Ok accs.
Proof.
  intros Hr Hc H1 H2 H3. unfold test. cbn [mapM].
  pose proof (accuracy_outcome outputs y train_mask Hr Hc H1) as A1.
  pose proof (accuracy_outcome outputs y val_mask Hr Hc H2) as A2.
  pose proof (accuracy_outcome outputs y test_mask Hr Hc H3) as A3.
  destruct (count_true train_mask =? 0); cbn [orb].
  - now rewrite A1.
  - destruct A1 as [a1 ->]. cbn [bind].
    destruct (count_true val_mask =? 0); cbn [orb].
    + now rewrite A2.
    + destruct A2 as [a2 ->]. cbn [bind].
      destruct (count_true test_mask =? 0).
      * now rewrite A3.
      * destruct A3 as [a3 ->]. cbn [bind]. now eexists.
Qed.

Lemma test_empty_mask_witness :
  test four_logits four_labels mask_train [false; false; false; false] mask_test
  = Raise ZeroDivisionError.
Proof.
  apply (test_empty_mask four_logits four_labels
           mask_train [false; false; false; false] mask_test);
    try reflexivity; cbn; lia.
Defined.
